(** * sjtu::linked_hashmap: an insertion-ordered hash map

    A shallow embedding of [src/linked_hashmap/linked_hashmap.hpp].

    The C++ class keeps every entry in a heap-allocated [Node] that is linked
    twice: through [time_lst]/[time_nxt] into a doubly linked list between two
    sentinels [hd] and [tl] (the iteration order), and through [nxt] into the
    chain of bucket [hash(key) % len] of the array [buc].

    The embedding keeps this pointer structure.  Nodes live in a store
    [gmap nat Node] addressed by [nat] pointers ([nullptr] is [0]); a map object
    is the record of its fields; each member function is a computation in a
    small state-and-error monad whose outcomes are a normal return, a thrown
    exception, undefined behaviour (a null or dangling dereference, an
    out-of-range array access, a division by zero) or divergence of a loop.

    Several maps share one store: a state pairs the store with the object
    a member function is called on, whose address is kept in [this], and
    the member functions of an iterator run in the state of the map the
    iterator came from.  [size_t] arithmetic wraps modulo [2^64].  [new]
    always succeeds, with an address that is neither null nor in use.
    Every loop is given as many rounds as the store has cells, plus one,
    and diverges beyond.

    The file has the member functions first, then client code, the words
    of the specification and the representation invariant, then the
    lemmas about each member function, the properties claimed of the
    container and further properties of its member functions, and last
    an instance of each property on integer keys. *)

From Stdlib Require Import ZArith Lia.
From stdpp Require Import base option list gmap.

Abbreviation ptr := nat (only parsing).
Definition nullptr : ptr := 0%nat.

(** [size_t] is a 64-bit unsigned integer: arithmetic wraps modulo [2^64]. *)
Definition size_t (z : Z) : Z := (z mod 2 ^ 64)%Z.

(** The two exception classes of [exceptions.hpp] the map throws. *)
Inductive exn := invalid_iterator | index_out_of_bound.

Section linked_hashmap.
Context {Key T : Type}.
(** [Hash] and [Equal], the two strategy objects of the template. *)
Variable hash : Key → Z.
Variable equal : Key → Key → bool.
(** [T{}], the value-initialised mapped value that [operator[]] inserts. *)
Variable T_default : T.

Abbreviation value_type := (Key * T)%type.

Definition LEN : Z := 13.

(** [struct Node].  [val] is an owning pointer to a [value_type] that no
    other node shares, so the pair is stored in the node, [None] standing
    for the null [val] of the two sentinels. *)
Record Node := mkNode {
  val : option value_type;
  time_lst : ptr;
  time_nxt : ptr;
  nxt : ptr
}.

(** The data members of the class.  [buc] is an array owned by the object,
    kept as the list of its slots; [this] is the address of the object,
    which iterators remember in [source]. *)
Record linked_hashmap := mkMap {
  this : ptr;
  len : Z;
  load : Z;
  hd : ptr;
  tl : ptr;
  buc : list ptr
}.

Record iterator := mkIter { source : ptr; it_at : ptr }.

(** The node store together with the object a member function runs on. *)
Record state := mkState { mem : gmap nat Node; obj : linked_hashmap }.

Inductive result (A : Type) :=
| Ok (a : A) (s : state)
| Throw (e : exn) (s : state)
| UB
| Diverge.
Arguments Ok {A} a s.
Arguments Throw {A} e s.
Arguments UB {A}.
Arguments Diverge {A}.

Definition M (A : Type) : Type := state → result A.

Definition ret {A} (a : A) : M A := λ s, Ok a s.
Definition bind {A B} (x : M A) (f : A → M B) : M B := λ s,
  match x s with
  | Ok a s' => f a s'
  | Throw e s' => Throw e s'
  | UB => UB
  | Diverge => Diverge
  end.
Definition throw {A} (e : exn) : M A := λ s, Throw e s.
Definition undefined {A} : M A := λ _, UB.
Definition diverge {A} : M A := λ _, Diverge.

#[global] Instance M_ret : MRet M := @ret.
#[global] Instance M_bind : MBind M := λ A B f x, bind x f.

(** ** Store primitives *)

(** Reading [*p]. *)
Definition deref (p : ptr) : M Node := λ s,
  match mem s !! p with Some n => Ok n s | None => UB end.

(** Writing one field of [*p]. *)
Definition assign (p : ptr) (f : Node → Node) : M unit := λ s,
  match mem s !! p with
  | Some n => Ok () (mkState (<[p := f n]> (mem s)) (obj s))
  | None => UB
  end.

(** [new Node{...}]: a non-null address that is not in use. *)
Definition new_Node (n : Node) : M ptr := λ s,
  let p := fresh ({[nullptr]} ∪ dom (mem s)) in
  Ok p (mkState (<[p := n]> (mem s)) (obj s)).

(** [delete p] for a non-null [p]. *)
Definition delete_Node (p : ptr) : M unit := λ s,
  match mem s !! p with
  | Some _ => Ok () (mkState (delete p (mem s)) (obj s))
  | None => UB
  end.

Definition get_this : M linked_hashmap := λ s, Ok (obj s) s.
Definition set_this (f : linked_hashmap → linked_hashmap) : M unit := λ s,
  Ok () (mkState (mem s) (f (obj s))).

Definition set_time_lst (q : ptr) (n : Node) : Node :=
  mkNode (val n) q (time_nxt n) (nxt n).
Definition set_time_nxt (q : ptr) (n : Node) : Node :=
  mkNode (val n) (time_lst n) q (nxt n).
Definition set_nxt (q : ptr) (n : Node) : Node :=
  mkNode (val n) (time_lst n) (time_nxt n) q.
Definition set_second (v : T) (n : Node) : Node :=
  mkNode (match val n with Some kv => Some (kv.1, v) | None => None end)
         (time_lst n) (time_nxt n) (nxt n).

Definition set_len (z : Z) (m : linked_hashmap) : linked_hashmap :=
  mkMap (this m) z (load m) (hd m) (tl m) (buc m).
Definition set_load (z : Z) (m : linked_hashmap) : linked_hashmap :=
  mkMap (this m) (len m) z (hd m) (tl m) (buc m).
Definition set_hd (p : ptr) (m : linked_hashmap) : linked_hashmap :=
  mkMap (this m) (len m) (load m) p (tl m) (buc m).
Definition set_tl (p : ptr) (m : linked_hashmap) : linked_hashmap :=
  mkMap (this m) (len m) (load m) (hd m) p (buc m).
Definition set_buc (b : list ptr) (m : linked_hashmap) : linked_hashmap :=
  mkMap (this m) (len m) (load m) (hd m) (tl m) b.

(** [*p->val]: undefined when [val] is null. *)
Definition deref_val (p : ptr) : M value_type :=
  n ← deref p;
  match val n with Some kv => ret kv | None => undefined end.

(** [hash(x) % len]: undefined when [len] is zero. *)
Definition bucket_of (l : Z) (x : Key) : nat :=
  Z.to_nat (size_t (hash x) mod l).
Definition hash_index (x : Key) : M nat :=
  m ← get_this;
  if (len m =? 0)%Z then undefined else ret (bucket_of (len m) x).

(** [buc[index]] as an rvalue and [buc[index] = p]. *)
Definition buc_read (index : nat) : M ptr :=
  m ← get_this;
  match buc m !! index with Some p => ret p | None => undefined end.
Definition buc_write (index : nat) (p : ptr) : M unit :=
  m ← get_this;
  if decide (index < length (buc m))%nat
  then set_this (set_buc (<[index := p]> (buc m)))
  else undefined.

(** A loop that runs for more iterations than the store has cells has
    come back to a cell it has visited: it is given that many rounds and
    diverges beyond. *)
Definition rounds : M nat := λ s, Ok (S (size (mem s))) s.

(** ** Private member functions *)

(** The [for] loop of [ChangeSpace]. *)
Fixpoint ChangeSpace_loop (fuel : nat) (it : ptr) : M unit :=
  m ← get_this;
  if decide (it = tl m) then ret ()
  else match fuel with
       | O => diverge
       | S fuel' =>
         kv ← deref_val it;
         index ← hash_index kv.1;
         b ← buc_read index;
         assign it (set_nxt b);;
         buc_write index it;;
         n ← deref it;
         ChangeSpace_loop fuel' (time_nxt n)
       end.

(** [void ChangeSpace(const int &d)] *)
Definition ChangeSpace (d : Z) : M unit :=
  m ← get_this;
  let len' := if (0 <? d)%Z
              then size_t (Z.lor (Z.shiftl (len m) d) 1)
              else Z.shiftr (len m) (- d) in
  set_this (set_len len');;
  set_this (set_buc (replicate (Z.to_nat len') nullptr));;
  h ← deref (hd m);
  fuel ← rounds;
  ChangeSpace_loop fuel (time_nxt h).

(** [Node *Add(const value_type &key)] *)
Definition Add (key : value_type) : M ptr :=
  m ← get_this;
  set_this (set_load (size_t (load m + 1)));;
  (if (load m >? len m)%Z then ChangeSpace 1 else ret ());;
  index ← hash_index key.1;
  m ← get_this;
  t ← deref (tl m);
  b ← buc_read index;
  p ← new_Node (mkNode (Some key) (time_lst t) (tl m) b);
  t ← deref (tl m);
  assign (time_lst t) (set_time_nxt p);;
  assign (tl m) (set_time_lst p);;
  buc_write index p;;
  ret p.

(** [void Del(Node *p)] *)
Definition Del (p : ptr) : M unit :=
  n ← deref p;
  assign (time_lst n) (set_time_nxt (time_nxt n));;
  n ← deref p;
  assign (time_nxt n) (set_time_lst (time_lst n));;
  m ← get_this;
  set_this (set_load (size_t (load m - 1)));;
  delete_Node p;;
  m ← get_this;
  if ((len m >? LEN) && (size_t (Z.shiftl (load m) 2) <? len m))%Z
  then ChangeSpace (-1)
  else ret ().

(** The [while] loop of [ClearNode]. *)
Fixpoint ClearNode_loop (fuel : nat) (it : ptr) : M unit :=
  m ← get_this;
  if decide (it = tl m) then ret ()
  else match fuel with
       | O => diverge
       | S fuel' =>
         n ← deref it;
         Del it;;
         ClearNode_loop fuel' (time_nxt n)
       end.

(** [void ClearNode()] *)
Definition ClearNode : M unit :=
  set_this (set_len LEN);;
  m ← get_this;
  h ← deref (hd m);
  fuel ← rounds;
  ClearNode_loop fuel (time_nxt h).

(** The [for] loop of [Find]. *)
Fixpoint Find_loop (fuel : nat) (x : Key) (it : ptr) : M ptr :=
  if decide (it = nullptr) then m ← get_this; ret (tl m)
  else match fuel with
       | O => diverge
       | S fuel' =>
         kv ← deref_val it;
         if equal x kv.1 then ret it
         else n ← deref it; Find_loop fuel' x (nxt n)
       end.

(** [Node *Find(const Key &x) const] *)
Definition Find (x : Key) : M ptr :=
  index ← hash_index x;
  b ← buc_read index;
  fuel ← rounds;
  Find_loop fuel x b.

(** ** Iterators *)

(** [iterator &operator++()] *)
Definition iterator_incr (i : iterator) : M iterator :=
  m ← get_this;
  if decide (it_at i = tl m) then throw invalid_iterator
  else n ← deref (it_at i); ret (mkIter (source i) (time_nxt n)).

(** [iterator &operator--()] *)
Definition iterator_decr (i : iterator) : M iterator :=
  m ← get_this;
  n ← deref (it_at i);
  if decide (time_lst n = hd m) then throw invalid_iterator
  else ret (mkIter (source i) (time_lst n)).

(** [bool operator==(const iterator &rhs) const] *)
Definition iterator_eq (i j : iterator) : bool :=
  bool_decide (it_at i = it_at j).

(** [value_type &operator*() const] *)
Definition iterator_star (i : iterator) : M value_type :=
  deref_val (it_at i).

(** ** Public member functions *)

(** The body of [linked_hashmap()], run on the raw storage of the object. *)
Definition construct : M unit :=
  set_this (set_len LEN);;
  set_this (set_load 0);;
  h ← new_Node (mkNode None nullptr nullptr nullptr);
  set_this (set_hd h);;
  t ← new_Node (mkNode None nullptr nullptr nullptr);
  set_this (set_tl t);;
  set_this (set_buc (replicate (Z.to_nat LEN) nullptr));;
  assign h (set_time_nxt t);;
  assign t (set_time_lst h).

(** The [for] loop of the copy constructor: [it] walks the nodes of the
    source object [other] while [Add] runs on the object under
    construction. *)
Fixpoint copy_loop (fuel : nat) (other : linked_hashmap) (it : ptr) : M unit :=
  if decide (it = tl other) then ret ()
  else match fuel with
       | O => diverge
       | S fuel' =>
         kv ← deref_val it;
         Add kv;;
         n ← deref it;
         copy_loop fuel' other (time_nxt n)
       end.

(** The body of [linked_hashmap(const linked_hashmap &obj)]. *)
Definition copy_construct (other : linked_hashmap) : M unit :=
  set_this (set_len (len other));;
  set_this (set_load 0);;
  h ← new_Node (mkNode None nullptr nullptr nullptr);
  set_this (set_hd h);;
  t ← new_Node (mkNode None nullptr nullptr nullptr);
  set_this (set_tl t);;
  set_this (set_buc (replicate (Z.to_nat (len other)) nullptr));;
  assign h (set_time_nxt t);;
  assign t (set_time_lst h);;
  o ← deref (hd other);
  fuel ← rounds;
  copy_loop fuel other (time_nxt o).

(** Raw storage for an object at address [addr]. *)
Definition raw (addr : ptr) (h : gmap nat Node) : state :=
  mkState h (mkMap addr 0 0 nullptr nullptr []).

(** [T &at(const Key &key)]; the reference returned is the address of the
    node that holds the mapped value. *)
Definition at_ (key : Key) : M ptr :=
  tmp ← Find key;
  m ← get_this;
  if decide (tmp = tl m) then throw index_out_of_bound
  else deref_val tmp;; ret tmp.

(** [const T &at(const Key &key) const] *)
Definition at_const (key : Key) : M ptr :=
  tmp ← Find key;
  m ← get_this;
  if decide (tmp = tl m) then throw index_out_of_bound
  else deref_val tmp;; ret tmp.

(** [T &operator[](const Key &key)] *)
Definition operator_index (key : Key) : M ptr :=
  tmp ← Find key;
  m ← get_this;
  if decide (tmp = tl m)
  then p ← Add (key, T_default); deref_val p;; ret p
  else deref_val tmp;; ret tmp.

(** [const T &operator[](const Key &key) const] *)
Definition operator_index_const (key : Key) : M ptr := at_const key.

(** Reading and writing through a [T&] obtained from [at] or
    [operator[]]. *)
Definition ref_read (r : ptr) : M T :=
  kv ← deref_val r; ret kv.2.
Definition ref_write (r : ptr) (v : T) : M unit :=
  deref_val r;; assign r (set_second v).

(** [iterator begin()] and [iterator end()] *)
Definition begin_ : M iterator :=
  m ← get_this;
  h ← deref (hd m);
  ret (mkIter (this m) (time_nxt h)).
Definition end_ : M iterator :=
  m ← get_this;
  ret (mkIter (this m) (tl m)).

(** [size_t size() const] and [bool empty() const] *)
Definition size_ : M Z := m ← get_this; ret (load m).
Definition empty_ : M bool := m ← get_this; ret (load m =? 0)%Z.

(** [void clear()] *)
Definition clear : M unit :=
  ClearNode;;
  m ← get_this;
  set_this (set_buc (replicate (Z.to_nat (len m)) nullptr)).

(** [pair<iterator, bool> insert(const value_type &value)] *)
Definition insert_ (value : value_type) : M (iterator * bool) :=
  a ← Find value.1;
  m ← get_this;
  if decide (a ≠ tl m) then ret (mkIter (this m) a, false)
  else p ← Add value; ret (mkIter (this m) p, true).

(** The [while] loop of [erase]. *)
Fixpoint erase_loop (fuel : nat) (target it : ptr) : M ptr :=
  n ← deref it;
  if decide (nxt n ≠ target)
  then match fuel with
       | O => diverge
       | S fuel' => erase_loop fuel' target (nxt n)
       end
  else ret it.

(** [void erase(iterator pos)] *)
Definition erase (pos : iterator) : M unit :=
  m ← get_this;
  if decide (it_at pos = tl m ∨ source pos ≠ this m)
  then throw invalid_iterator
  else
    kv ← deref_val (it_at pos);
    index ← hash_index kv.1;
    b ← buc_read index;
    (if decide (b = it_at pos)
     then n ← deref (it_at pos); buc_write index (nxt n)
     else
       fuel ← rounds;
       it ← erase_loop fuel (it_at pos) b;
       n ← deref it;
       n' ← deref (nxt n);
       assign it (set_nxt (nxt n')));;
    Del (it_at pos).

(** [size_t count(const Key &key) const] *)
Definition count (key : Key) : M Z :=
  p ← Find key;
  m ← get_this;
  ret (if decide (p ≠ tl m) then 1 else 0)%Z.

(** [iterator find(const Key &key)] *)
Definition find (key : Key) : M iterator :=
  p ← Find key;
  m ← get_this;
  ret (mkIter (this m) p).

(** [linked_hashmap &operator=(const linked_hashmap &obj)]: [other] holds
    the fields of [obj], and [this != &obj] compares the two addresses. *)
Definition operator_assign (other : linked_hashmap) : M unit :=
  m ← get_this;
  if decide (this m ≠ this other)
  then
    ClearNode;;
    set_this (set_len (len other));;
    set_this (set_buc (replicate (Z.to_nat (len other)) nullptr));;
    o ← deref (hd other);
    fuel ← rounds;
    copy_loop fuel other (time_nxt o)
  else ret ().

(** [delete p], which does nothing for a null [p]. *)
Definition delete_ptr (p : ptr) : M unit :=
  if decide (p = nullptr) then ret () else delete_Node p.

(** [~linked_hashmap()]; once [delete[] buc] has run the array has no
    slot left. *)
Definition destructor : M unit :=
  ClearNode;;
  m ← get_this;
  delete_ptr (hd m);;
  m ← get_this;
  delete_ptr (tl m);;
  set_this (set_buc []).

(** ** The places [ChangeSpace] is called from *)

(** [Add] calls [ChangeSpace(1)] in its first statement, once [load++]
    has run; [Add_link] is the rest of [Add], which links the new node
    in. *)
Definition Add_link (key : value_type) : M ptr :=
  index ← hash_index key.1;
  m ← get_this;
  t ← deref (tl m);
  b ← buc_read index;
  p ← new_Node (mkNode (Some key) (time_lst t) (tl m) b);
  t ← deref (tl m);
  assign (time_lst t) (set_time_nxt p);;
  assign (tl m) (set_time_lst p);;
  buc_write index p;;
  ret p.

(** [Del] calls [ChangeSpace(-1)] in its last statement; [Del_unlink] is
    what precedes it, and [Del_resize] is that last statement,
    [if (len > LEN && load << 2 < len) ChangeSpace(-1);]. *)
Definition Del_unlink (p : ptr) : M unit :=
  n ← deref p;
  assign (time_lst n) (set_time_nxt (time_nxt n));;
  n ← deref p;
  assign (time_nxt n) (set_time_lst (time_lst n));;
  m ← get_this;
  set_this (set_load (size_t (load m - 1)));;
  delete_Node p.

Definition Del_resize : M unit :=
  m ← get_this;
  if ((len m >? LEN) && (size_t (Z.shiftl (load m) 2) <? len m))%Z
  then ChangeSpace (-1)
  else ret ().

(** [erase] up to the last statement of the [Del] it ends with. *)
Definition erase_unlink (pos : iterator) : M unit :=
  m ← get_this;
  if decide (it_at pos = tl m ∨ source pos ≠ this m)
  then throw invalid_iterator
  else
    kv ← deref_val (it_at pos);
    index ← hash_index kv.1;
    b ← buc_read index;
    (if decide (b = it_at pos)
     then n ← deref (it_at pos); buc_write index (nxt n)
     else
       fuel ← rounds;
       it ← erase_loop fuel (it_at pos) b;
       n ← deref it;
       n' ← deref (nxt n);
       assign it (set_nxt (nxt n')));;
    Del_unlink (it_at pos).

(** ** What the map asks of [Hash] and [Equal] *)

(** [Equal] is an equivalence and [Hash] gives equal keys the same
    value, as the C++ requirements on the two strategies say. *)
Record lawful : Prop := {
  lawful_refl : ∀ x, equal x x = true;
  lawful_sym : ∀ x y, equal x y = true → equal y x = true;
  lawful_trans : ∀ x y z, equal x y = true → equal y z = true → equal x z = true;
  lawful_hash : ∀ x y, equal x y = true → hash x = hash y
}.

(** ** Client code *)

(** Iterating from [begin()] to [end()], collecting what each iterator
    points at. *)
Fixpoint traverse_loop (fuel : nat) (it : iterator) : M (list value_type) :=
  e ← end_;
  if iterator_eq it e then ret []
  else match fuel with
       | O => diverge
       | S fuel' =>
         kv ← iterator_star it;
         it' ← iterator_incr it;
         rest ← traverse_loop fuel' it';
         ret (kv :: rest)
       end.

Definition traverse : M (list value_type) :=
  b ← begin_;
  fuel ← rounds;
  traverse_loop fuel b.

(** [n] times [++it], and [n] times [--it]. *)
Fixpoint incr_n (n : nat) (it : iterator) : M iterator :=
  match n with
  | O => mret it
  | S n' => it' ← iterator_incr it; incr_n n' it'
  end.

Fixpoint decr_n (n : nat) (it : iterator) : M iterator :=
  match n with
  | O => mret it
  | S n' => it' ← iterator_decr it; decr_n n' it'
  end.

(** What a client does to a map, through the public member functions:
    [m.insert(value)], [if ((it = m.find(key)) != m.end()) m.erase(it)],
    [m[key] = v] and [m.clear()]. *)
Inductive op :=
| op_insert (value : value_type)
| op_erase (key : Key)
| op_assign (key : Key) (v : T)
| op_clear.

Definition exec (o : op) : M unit :=
  match o with
  | op_insert value => insert_ value;; mret ()
  | op_erase key =>
    it ← find key;
    e ← end_;
    if iterator_eq it e then mret () else erase it
  | op_assign key v => r ← operator_index key; ref_write r v
  | op_clear => clear
  end.

Fixpoint run (ops : list op) : M unit :=
  match ops with
  | [] => mret ()
  | o :: ops' => exec o;; run ops'
  end.

(** The most entries a map is taken to hold.  A node and its pair occupy
    at least 32 bytes of a 64-bit address space, so no map holds [2^62]
    entries; below that bound [load + 1], [load << 2] and [len << 1 | 1]
    do not wrap. *)
Definition max_load : Z := 2 ^ 62.

(** The states of a map that client code can bring about: a map is
    default-constructed, or copy-constructed from a reachable one, and
    then used through the public member functions, each called on a map
    of fewer than [max_load] entries. *)
Inductive reachable : state → Prop :=
| reachable_new addr h s :
    construct (raw addr h) = Ok () s → reachable s
| reachable_copy addr h A s :
    reachable (mkState h A) →
    copy_construct A (raw addr h) = Ok () s → reachable s
| reachable_exec o s s' :
    reachable s → (load (obj s) < max_load)%Z →
    exec o s = Ok () s' → reachable s'.

(** ** The words of the specification *)

(** The reference model of a map: an association list in insertion
    order.  [insert] appends unless the key is there, [erase] takes the
    entry of the key out, [m[key] = v] overwrites the value of the key or
    appends. *)
Definition has_key (k : Key) (L : list value_type) : bool :=
  existsb (λ e, equal k e.1) L.

Fixpoint remove_key (k : Key) (L : list value_type) : list value_type :=
  match L with
  | [] => []
  | e :: L' => if equal k e.1 then L' else e :: remove_key k L'
  end.

Fixpoint update_key (k : Key) (v : T) (L : list value_type) : list value_type :=
  match L with
  | [] => []
  | e :: L' => if equal k e.1 then (e.1, v) :: L' else e :: update_key k v L'
  end.

Definition model_step (L : list value_type) (o : op) : list value_type :=
  match o with
  | op_insert value => if has_key value.1 L then L else L ++ [value]
  | op_erase key => remove_key key L
  | op_assign key v =>
    if has_key key L then update_key key v L else L ++ [(key, v)]
  | op_clear => []
  end.

Definition model (ops : list op) : list value_type :=
  fold_left model_step ops [].

(** What a run leaves when its insertions all put in new keys: an
    insertion appends, an erase filters the key out. *)
Definition expected_step (L : list value_type) (o : op) : list value_type :=
  match o with
  | op_insert value => L ++ [value]
  | op_erase key => filter (λ e : value_type, equal key e.1 = false) L
  | op_assign key v => L ++ [(key, v)]
  | op_clear => []
  end.

Definition expected (ops : list op) : list value_type :=
  fold_left expected_step ops [].

(** The keys a run inserts, in the order of the run. *)
Definition inserted_by (o : op) : list Key :=
  match o with
  | op_insert value => [value.1]
  | op_assign key _ => [key]
  | _ => []
  end.

Definition inserted (ops : list op) : list Key := ops ≫= inserted_by.

(** No key of the list is equal to another one. *)
Fixpoint pairwise_distinct (ks : list Key) : Prop :=
  match ks with
  | [] => True
  | k :: ks' =>
    (∀ k', k' ∈ ks' → equal k k' = false ∧ equal k' k = false) ∧
    pairwise_distinct ks'
  end.

(** A boolean test for pairwise distinctness. *)
Fixpoint pairwise_distinctb (ks : list Key) : bool :=
  match ks with
  | [] => true
  | k :: ks' =>
    forallb (λ k', negb (equal k k') && negb (equal k' k)) ks' &&
    pairwise_distinctb ks'
  end.

(** [hops f h p q]: [q] is reached from [p] by zero or more hops along
    the pointer field [f], each from a non-null allocated cell. *)
Inductive hops (f : Node → ptr) (h : gmap nat Node) : ptr → ptr → Prop :=
| hops_here p : hops f h p p
| hops_next p n q :
    p ≠ nullptr → h !! p = Some n → hops f h (f n) q → hops f h p q.

(** A live node: a non-null cell of the Order List other than the two
    sentinels. *)
Definition live (s : state) (p : ptr) : Prop :=
  hops time_nxt (mem s) (hd (obj s)) p ∧
  p ≠ nullptr ∧ p ≠ hd (obj s) ∧ p ≠ tl (obj s).

(** The invariant of the two structures: the slot of the key of a live
    node reaches the node through [nxt], and a non-null node that a slot
    reaches through [nxt] is live. *)
Definition dual_structure (s : state) : Prop :=
  (∀ p, live s p →
     ∃ n kv b, mem s !! p = Some n ∧ val n = Some kv ∧
               buc (obj s) !! bucket_of (len (obj s)) kv.1 = Some b ∧
               hops nxt (mem s) b p) ∧
  (∀ i b p, buc (obj s) !! i = Some b → hops nxt (mem s) b p →
            p ≠ nullptr → live s p).

(** [same_entry s s' key]: [find(key)] returns, in [s] and in [s'], the
    same iterator, which points in both at the same pair. *)
Definition same_entry (s s' : state) (key : Key) : Prop :=
  ∃ it kv, find key s = Ok it s ∧ find key s' = Ok it s' ∧
           iterator_star it s = Ok kv s ∧ iterator_star it s' = Ok kv s'.

(** ** Representation invariant *)

(** [lseg f h p l q]: following the pointer field [f] from [p] visits
    exactly the cells [l], all of them allocated and non-null, and then
    arrives at [q]. *)
Fixpoint lseg (f : Node → ptr) (h : gmap nat Node) (p : ptr) (l : list ptr)
    (q : ptr) : Prop :=
  match l with
  | [] => p = q
  | x :: l' => p = x ∧ x ≠ nullptr ∧ ∃ n, h !! x = Some n ∧ lseg f h (f n) l' q
  end.

(** A live node together with the pair it holds. *)
Abbreviation entry := (ptr * value_type)%type.

(** The cells of the Order List, sentinels included. *)
Definition cells (m : linked_hashmap) (l : list entry) : list ptr :=
  hd m :: l.*1 ++ [tl m].

(** Every node of [l] holds its pair. *)
Definition holds (h : gmap nat Node) (l : list entry) : Prop :=
  Forall (λ x : entry, val <$> h !! x.1 = Some (Some x.2)) l.

(** The Order List: [l] is threaded in both directions between [hd] and
    [tl]. *)
Definition order_list (h : gmap nat Node) (m : linked_hashmap)
    (l : list entry) : Prop :=
  lseg time_nxt h (hd m) (cells m l) nullptr ∧
  lseg time_lst h (tl m) (reverse (cells m l)) nullptr ∧
  NoDup (cells m l) ∧
  holds h l.

(** The entries of [l] that fall in bucket [i] of a table of [c] slots,
    newest first. *)
Definition chain (c : Z) (i : nat) (l : list entry) : list entry :=
  reverse (filter (λ x : entry, bucket_of c x.2.1 = i) l).

(** The Bucket Table: slot [i] heads the chain of the entries of bucket
    [i]. *)
Definition bucket_table (h : gmap nat Node) (m : linked_hashmap)
    (l : list entry) : Prop :=
  (0 < len m)%Z ∧
  length (buc m) = Z.to_nat (len m) ∧
  ∀ i b, buc m !! i = Some b → lseg nxt h b (chain (len m) i l).*1 nullptr.

(** No two entries have equal keys. *)
Definition distinct_keys (l : list entry) : Prop :=
  ∀ i j x y, l !! i = Some x → l !! j = Some y →
             equal x.2.1 y.2.1 = true → i = j.

(** The capacities [13, 27, 55, ...]: one less than [14 * 2^k]. *)
Definition capacity (c : Z) : Prop := ∃ k : nat, (c + 1 = 14 * 2 ^ Z.of_nat k)%Z.

(** The counters: [load] counts the entries and [len] is a capacity. *)
Definition counters (m : linked_hashmap) (l : list entry) : Prop :=
  load m = Z.of_nat (length l) ∧
  (load m ≤ max_load)%Z ∧
  capacity (len m).

(** [Inv s l]: the state [s] represents the entries [l], in this order. *)
Definition Inv (s : state) (l : list entry) : Prop :=
  order_list (mem s) (obj s) l ∧
  bucket_table (mem s) (obj s) l ∧
  distinct_keys l ∧
  counters (obj s) l.

(** The node that holds a key equal to [x], if there is one. *)
Definition find_node (x : Key) (l : list entry) : option ptr :=
  fst <$> head (filter (λ e : entry, equal x e.2.1 = true) l).

(** What a member function leaves alone: every allocated cell that is not
    a cell of the map it runs on. *)
Definition preserves (s s' : state) (l : list entry) : Prop :=
  ∀ q n, mem s !! q = Some n → q ∉ cells (obj s) l → mem s' !! q = Some n.

(** What a step may touch: cells of the map, and cells it allocates. *)
Definition footprint (s s' : state) (l l' : list entry) : Prop :=
  preserves s s' l ∧
  (∀ q, q ∈ cells (obj s') l' → q ∈ cells (obj s) l ∨ mem s !! q = None) ∧
  this (obj s') = this (obj s).

(** The node an iterator is at after [k] steps from [begin()]: the node of
    entry [k], and [tl] past the last entry. *)
Definition position (m : linked_hashmap) (l : list entry) (k : nat) : ptr :=
  default (tl m) (l.*1 !! k).

(** Apart from the cells of the map, the store of [s] is the store [h0]. *)
Definition outside (h0 : gmap nat Node) (s : state) (l : list entry) : Prop :=
  (∀ q, q ∈ cells (obj s) l → h0 !! q = None) ∧
  (∀ q, q ∉ cells (obj s) l → mem s !! q = h0 !! q).

(** The bounds the resizing keeps on a count [ld] against a capacity
    [ln]: at most one more entry than slots, and, above the floor, at
    least a quarter as many entries as slots. *)
Definition load_factor_ok (ld ln : Z) : Prop :=
  (ld ≤ ln + 1)%Z ∧ (LEN < ln → ln ≤ 4 * ld)%Z.

(** The capacity [ChangeSpace d] moves to. *)
Definition resized (d : Z) (c : Z) : Z :=
  if (0 <? d)%Z then size_t (Z.lor (Z.shiftl c d) 1) else Z.shiftr c (- d).

(** The capacity after [Add]: grown when the count read before the
    increment exceeds it. *)
Definition grown (m : linked_hashmap) : Z :=
  if (load m >? len m)%Z then Z.lor (Z.shiftl (len m) 1) 1 else len m.

(** Whether [Del] shrinks the table, and the capacity it leaves: the
    count compared is the one after the decrement. *)
Definition shrinks (m : linked_hashmap) : bool :=
  ((len m >? LEN) && (4 * (load m - 1) <? len m))%Z.

Definition shrunk (m : linked_hashmap) : Z :=
  if shrinks m then Z.shiftr (len m) 1 else len m.

(** ** Reasoning about computations *)

(** [wp x s Q]: run from [s], the computation [x] returns normally, with a
    result and a final state that satisfy [Q]. *)
Definition wp {A} (x : M A) (s : state) (Q : A → state → Prop) : Prop :=
  match x s with Ok a s' => Q a s' | _ => False end.

(** [nothrow x]: the computation [x] throws from no state. *)
Definition nothrow {A} (x : M A) : Prop := ∀ s e s', x s ≠ Throw e s'.

(** [keeps_dom x]: the computation [x] neither allocates nor frees. *)
Definition keeps_dom {A} (x : M A) : Prop :=
  ∀ s a s', x s = Ok a s' → dom (mem s') = dom (mem s).

(** * Rules for the primitives *)

Lemma wp_ok {A} (x : M A) s Q :
  wp x s Q ↔ ∃ a s', x s = Ok a s' ∧ Q a s'.
Proof.
  unfold wp. split.
  - destruct (x s) as [a s'| | |]; try tauto. eauto.
  - intros (a & s' & -> & HQ). exact HQ.
Qed.

Lemma wp_mono {A} (x : M A) s (Q Q' : A → state → Prop) :
  wp x s Q → (∀ a s', Q a s' → Q' a s') → wp x s Q'.
Proof. unfold wp. destruct (x s); auto. Qed.

Lemma wp_ret {A} (a : A) s (Q : A → state → Prop) : Q a s → wp (mret a) s Q.
Proof. done. Qed.

Lemma wp_bind {A B} (x : M A) (f : A → M B) s Q :
  wp x s (λ a s', wp (f a) s' Q) → wp (x ≫= f) s Q.
Proof. unfold wp, mbind, M_bind, bind. destruct (x s); auto. Qed.

Lemma wp_deref p s n (Q : Node → state → Prop) :
  mem s !! p = Some n → Q n s → wp (deref p) s Q.
Proof. unfold wp, deref. intros ->. done. Qed.

Lemma wp_deref_val p s n kv (Q : value_type → state → Prop) :
  mem s !! p = Some n → val n = Some kv → Q kv s → wp (deref_val p) s Q.
Proof.
  intros Hp Hv HQ. unfold deref_val. apply wp_bind.
  apply (wp_deref _ _ n); [done|]. rewrite Hv. by apply wp_ret.
Qed.

Lemma wp_assign p f s n (Q : unit → state → Prop) :
  mem s !! p = Some n →
  Q () (mkState (<[p := f n]> (mem s)) (obj s)) →
  wp (assign p f) s Q.
Proof. unfold wp, assign. intros ->. done. Qed.

Lemma wp_new_Node n s (Q : ptr → state → Prop) :
  (∀ p, p ≠ nullptr → mem s !! p = None →
        Q p (mkState (<[p := n]> (mem s)) (obj s))) →
  wp (new_Node n) s Q.
Proof.
  intros HQ. unfold wp, new_Node.
  pose proof (is_fresh ({[nullptr]} ∪ dom (mem s))) as Hf.
  apply HQ.
  - intros E. apply Hf. rewrite E. set_solver.
  - apply not_elem_of_dom. set_solver.
Qed.

Lemma wp_delete_Node p s n (Q : unit → state → Prop) :
  mem s !! p = Some n →
  Q () (mkState (delete p (mem s)) (obj s)) →
  wp (delete_Node p) s Q.
Proof. unfold wp, delete_Node. intros ->. done. Qed.

Lemma wp_get_this s (Q : linked_hashmap → state → Prop) :
  Q (obj s) s → wp get_this s Q.
Proof. done. Qed.

Lemma wp_set_this f s (Q : unit → state → Prop) :
  Q () (mkState (mem s) (f (obj s))) → wp (set_this f) s Q.
Proof. done. Qed.

Lemma wp_rounds s (Q : nat → state → Prop) :
  Q (S (size (mem s))) s → wp rounds s Q.
Proof. done. Qed.

Lemma wp_hash_index x s (Q : nat → state → Prop) :
  len (obj s) ≠ 0%Z → Q (bucket_of (len (obj s)) x) s → wp (hash_index x) s Q.
Proof.
  intros Hl HQ. unfold hash_index. apply wp_bind, wp_get_this.
  destruct (Z.eqb_spec (len (obj s)) 0); [done|]. by apply wp_ret.
Qed.

Lemma wp_buc_read i s p (Q : ptr → state → Prop) :
  buc (obj s) !! i = Some p → Q p s → wp (buc_read i) s Q.
Proof.
  intros Hi HQ. unfold buc_read. apply wp_bind, wp_get_this.
  rewrite Hi. by apply wp_ret.
Qed.

Lemma wp_buc_write i p s (Q : unit → state → Prop) :
  (i < length (buc (obj s)))%nat →
  Q () (mkState (mem s) (set_buc (<[i := p]> (buc (obj s))) (obj s))) →
  wp (buc_write i p) s Q.
Proof.
  intros Hi HQ. unfold buc_write. apply wp_bind, wp_get_this.
  rewrite decide_True by done. by apply wp_set_this.
Qed.

(** * List segments *)

Lemma lseg_app f h p l1 l2 q :
  lseg f h p (l1 ++ l2) q ↔ ∃ r, lseg f h p l1 r ∧ lseg f h r l2 q.
Proof.
  revert p. induction l1 as [|x l1 IH]; intros p; simpl.
  - split; [eauto|]. by intros (r & -> & H).
  - split.
    + intros (-> & Hx & n & Hn & Hs). apply IH in Hs as (r & H1 & H2).
      exists r. eauto 10.
    + intros (r & (-> & Hx & n & Hn & H1) & H2).
      split; [done|]. split; [done|]. exists n. split; [done|].
      apply IH. eauto.
Qed.

Lemma lseg_frame f h h' p l q :
  (∀ x, x ∈ l → f <$> h' !! x = f <$> h !! x) →
  lseg f h p l q → lseg f h' p l q.
Proof.
  revert p. induction l as [|x l IH]; intros p Hf; simpl; [done|].
  intros (-> & Hx & n & Hn & Hs).
  split; [done|]. split; [done|].
  pose proof (Hf x (list_elem_of_here _ _)) as E. rewrite Hn in E.
  destruct (h' !! x) as [n'|] eqn:Hn'; simpl in E; [|done].
  exists n'. split; [done|]. injection E as ->.
  apply IH; [|done]. intros y Hy. apply Hf. by apply list_elem_of_further.
Qed.

Lemma lseg_lookup f h p l q x :
  lseg f h p l q → x ∈ l → x ≠ nullptr ∧ is_Some (h !! x).
Proof.
  revert p. induction l as [|y l IH]; intros p Hs Hx.
  - by apply elem_of_nil in Hx.
  - destruct Hs as (-> & Hy & n & Hn & Hs).
    apply elem_of_cons in Hx as [->|Hx]; eauto.
Qed.

(** The steps of a segment, one cell at a time. *)
Lemma lseg_step f h p l1 x y l2 q :
  lseg f h p (l1 ++ x :: y :: l2) q → f <$> h !! x = Some y.
Proof.
  intros Hs. apply lseg_app in Hs as (r & _ & Hs).
  destruct Hs as (-> & _ & n & Hn & Hs). destruct Hs as (E & _).
  rewrite Hn. simpl. by rewrite E.
Qed.

(** * Lookup *)

(** From here on [Hash] and [Equal] are taken to be lawful. *)
Hypothesis Hlawful : lawful.

Lemma equal_refl x : equal x x = true.
Proof. apply Hlawful. Qed.

Lemma equal_sym x y : equal x y = true → equal y x = true.
Proof. apply Hlawful. Qed.

Lemma equal_trans x y z : equal x y = true → equal y z = true → equal x z = true.
Proof. apply Hlawful. Qed.

Lemma hash_equal x y : equal x y = true → hash x = hash y.
Proof. apply Hlawful. Qed.

#[local] Hint Resolve equal_refl equal_sym equal_trans hash_equal : core.

Lemma distinct_keys_tail e l : distinct_keys (e :: l) → distinct_keys l.
Proof.
  intros Hd i j x y Hi Hj E.
  assert (S i = S j) by (eapply Hd; eauto). lia.
Qed.

Lemma filter_equal_length x l :
  distinct_keys l →
  (length (filter (λ e : entry, equal x e.2.1 = true) l) ≤ 1)%nat.
Proof.
  induction l as [|e l IH]; intros Hd; [simpl; lia|].
  rewrite filter_cons. destruct (decide _) as [He|He].
  - assert (filter (λ e : entry, equal x e.2.1 = true) l = []) as ->; [|simpl; lia].
    destruct (filter _ l) as [|e' r] eqn:Hf; [done|exfalso].
    assert (e' ∈ filter (λ e : entry, equal x e.2.1 = true) l) as Hin
      by (rewrite Hf; left).
    apply list_elem_of_filter in Hin as [He' Hin].
    apply list_elem_of_lookup in Hin as [j Hj].
    assert (O = S j); [|done].
    eapply (Hd O (S j) e e'); eauto.
  - apply IH. by eapply distinct_keys_tail.
Qed.

Lemma find_node_chain x c l :
  distinct_keys l →
  find_node x (chain c (bucket_of c x) l) = find_node x l.
Proof.
  intros Hd. unfold find_node, chain.
  rewrite filter_reverse, list_filter_filter.
  rewrite (list_filter_iff _ (λ e : entry, equal x e.2.1 = true)).
  2:{ intros e. split; [tauto|]. intros He. split; [done|].
      unfold bucket_of. by rewrite (hash_equal _ _ He). }
  pose proof (filter_equal_length x l Hd) as Hlen.
  destruct (filter _ l) as [|e [|e' r]]; simpl in *; [done|done|lia].
Qed.

Lemma find_node_Some x l p :
  find_node x l = Some p → ∃ kv, (p, kv) ∈ l ∧ equal x kv.1 = true.
Proof.
  unfold find_node. destruct (filter _ l) as [|[p' kv] r] eqn:Hf; [done|].
  simpl. intros [= ->]. exists kv.
  assert ((p, kv) ∈ filter (λ e : entry, equal x e.2.1 = true) l) as Hin
    by (rewrite Hf; left).
  apply list_elem_of_filter in Hin as [He Hin]. done.
Qed.

Lemma find_node_None x l :
  find_node x l = None ↔ ∀ e, e ∈ l → equal x e.2.1 = false.
Proof.
  unfold find_node. split.
  - intros Hn e He. destruct (filter _ l) as [|e' r] eqn:Hf; [|done].
    destruct (equal x e.2.1) eqn:E; [|done].
    by destruct (filter_nil_not_elem_of _ _ e Hf E).
  - intros Hall. destruct (filter _ l) as [|e' r] eqn:Hf; [done|].
    assert (e' ∈ filter (λ e : entry, equal x e.2.1 = true) l) as Hin
      by (rewrite Hf; left).
    apply list_elem_of_filter in Hin as [He Hin].
    specialize (Hall _ Hin). simpl in *. congruence.
Qed.

(** With distinct keys, the entry of a key is found wherever it stands. *)
Lemma find_node_elem x l p kv :
  distinct_keys l → (p, kv) ∈ l → equal x kv.1 = true →
  find_node x l = Some p.
Proof.
  intros Hd Hin He. unfold find_node.
  pose proof (filter_equal_length x l Hd) as Hlen.
  assert ((p, kv) ∈ filter (λ e : entry, equal x e.2.1 = true) l) as Hf
    by (by apply list_elem_of_filter).
  destruct (filter _ l) as [|e [|e' r]]; simpl in *; [| |lia].
  - by apply elem_of_nil in Hf.
  - apply list_elem_of_singleton in Hf. by subst e.
Qed.

Lemma holds_lookup h l p kv :
  holds h l → (p, kv) ∈ l → ∃ n, h !! p = Some n ∧ val n = Some kv.
Proof.
  intros Hh Hin. unfold holds in Hh. rewrite Forall_forall in Hh.
  specialize (Hh _ Hin). simpl in Hh.
  destruct (h !! p) as [n|]; [|done]. exists n. split; [done|].
  simpl in Hh. by injection Hh.
Qed.

Lemma Find_loop_spec fuel x s c b :
  lseg nxt (mem s) b c.*1 nullptr → holds (mem s) c →
  (length c ≤ fuel)%nat →
  Find_loop fuel x b s = Ok (default (tl (obj s)) (find_node x c)) s.
Proof.
  revert fuel b. induction c as [|[p kv] c IH]; intros fuel b Hs Hh Hf.
  - simpl in Hs. subst b. by destruct fuel.
  - rewrite fmap_cons in Hs. simpl in Hs.
    destruct Hs as (-> & Hp & n & Hn & Hs).
    destruct fuel as [|fuel]; [simpl in Hf; lia|].
    destruct (holds_lookup _ _ p kv Hh) as (n' & Hn' & Hv); [left|].
    rewrite Hn in Hn'. injection Hn' as <-.
    cbn [Find_loop]. rewrite decide_False by done.
    unfold deref_val. unfold mbind, M_bind, bind, deref.
    rewrite Hn. simpl. rewrite Hv. simpl.
    unfold find_node. rewrite filter_cons. simpl.
    destruct (equal x kv.1) eqn:E.
    + by rewrite decide_True.
    + rewrite decide_False by done. rewrite Hn.
      apply IH; [done| |simpl in Hf; lia].
      by apply Forall_inv_tail in Hh.
Qed.

Lemma chain_subset c i l e : e ∈ chain c i l → e ∈ l.
Proof.
  unfold chain. rewrite elem_of_reverse, list_elem_of_filter. tauto.
Qed.

Lemma holds_chain h c i l : holds h l → holds h (chain c i l).
Proof.
  unfold holds. rewrite !Forall_forall. intros Hh e He.
  apply Hh. by eapply chain_subset.
Qed.

Lemma bucket_of_lt c x : (0 < c)%Z → (bucket_of c x < Z.to_nat c)%nat.
Proof.
  intros Hc. unfold bucket_of.
  pose proof (Z.mod_pos_bound (size_t (hash x)) c Hc). lia.
Qed.

(** More cells than a duplicate-free list of allocated cells has. *)
Lemma NoDup_alloc_length (h : gmap nat Node) (l : list ptr) :
  NoDup l → (∀ x, x ∈ l → is_Some (h !! x)) → (length l ≤ size h)%nat.
Proof.
  intros Hnd Hall.
  rewrite <- (size_dom h), <- (size_list_to_set (C := gset nat) l Hnd).
  apply subseteq_size. intros x Hx.
  apply elem_of_list_to_set in Hx. apply elem_of_dom. auto.
Qed.

Lemma order_list_NoDup_entries h m l : order_list h m l → NoDup l.*1.
Proof.
  intros (_ & _ & Hnd & _). unfold cells in Hnd.
  apply NoDup_cons in Hnd as [_ Hnd]. by apply NoDup_app in Hnd as [Hnd _].
Qed.

Lemma order_list_alloc h m l x :
  order_list h m l → x ∈ cells m l → x ≠ nullptr ∧ is_Some (h !! x).
Proof. intros (Hf & _). by eapply lseg_lookup. Qed.

Lemma chain_length c i l h m :
  order_list h m l → (length (chain c i l) < size h)%nat.
Proof.
  intros Ho.
  assert (length (cells m l) ≤ size h)%nat as Hlen.
  { apply NoDup_alloc_length; [by destruct Ho as (_ & _ & ? & _)|].
    intros x Hx. by eapply order_list_alloc. }
  unfold cells, chain in *. simpl in Hlen.
  rewrite length_app, length_fmap in Hlen. simpl in Hlen.
  rewrite length_reverse.
  pose proof (length_filter (λ x : entry, bucket_of c x.2.1 = i) l). lia.
Qed.

(** [Find] returns the node of the key, or [tl], and changes nothing.  It
    relies on the two structures and on the keys being distinct, not on
    the counters. *)
Lemma Find_dual x s l :
  order_list (mem s) (obj s) l → bucket_table (mem s) (obj s) l →
  distinct_keys l →
  Find x s = Ok (default (tl (obj s)) (find_node x l)) s.
Proof.
  intros Ho (Hlen & Hbl & Hb) Hd.
  assert (bucket_of (len (obj s)) x < length (buc (obj s)))%nat as Hi
    by (rewrite Hbl; by apply bucket_of_lt).
  apply lookup_lt_is_Some in Hi as [b Hb'].
  unfold Find, hash_index, buc_read.
  unfold mbind, M_bind, bind, get_this, rounds.
  destruct (Z.eqb_spec (len (obj s)) 0); [lia|]. cbn -[Find_loop].
  rewrite Hb'. cbn -[Find_loop].
  rewrite (Find_loop_spec _ x s (chain (len (obj s)) (bucket_of (len (obj s)) x) l)).
  - by rewrite find_node_chain.
  - by apply Hb.
  - apply holds_chain. by destruct Ho as (_ & _ & _ & ?).
  - pose proof (chain_length (len (obj s)) (bucket_of (len (obj s)) x) l _ _ Ho). lia.
Qed.

Lemma Find_spec x s l :
  Inv s l → Find x s = Ok (default (tl (obj s)) (find_node x l)) s.
Proof. intros (Ho & Hbt & Hd & _). by apply Find_dual. Qed.

(** * Linking and unlinking a cell *)

(** Splicing [p] in after [a]. *)
Lemma lseg_link f h h' s X a p Y e :
  lseg f h s (X ++ a :: Y) e →
  NoDup (X ++ a :: Y) → p ∉ X ++ a :: Y → p ≠ nullptr →
  f <$> h' !! a = Some p →
  f <$> h' !! p = f <$> h !! a →
  (∀ x, x ≠ a → x ≠ p → f <$> h' !! x = f <$> h !! x) →
  lseg f h' s (X ++ a :: p :: Y) e.
Proof.
  intros Hs Hnd Hp Hp0 Ha Hpa Hfr.
  apply lseg_app in Hs as (r & HX & Hs).
  destruct Hs as (-> & Ha0 & na & Hna & HY).
  apply NoDup_app in Hnd as (_ & HXa & HaY). apply NoDup_cons in HaY as [HaY _].
  apply lseg_app. exists a. split.
  - eapply lseg_frame; [|exact HX]. intros x Hx. apply Hfr.
    + intros ->. eapply HXa; [done|left].
    + intros ->. apply Hp. apply elem_of_app. by left.
  - destruct (h' !! a) as [na'|] eqn:Hna'; [|done].
    rewrite Hna in Hpa. simpl in Ha, Hpa. injection Ha as Ha.
    destruct (h' !! p) as [np'|] eqn:Hnp'; [|done].
    simpl in Hpa. injection Hpa as Hpa.
    split; [done|]. split; [done|]. exists na'. split; [done|].
    rewrite Ha. split; [done|]. split; [done|]. exists np'. split; [done|].
    rewrite Hpa. eapply lseg_frame; [|exact HY]. intros x Hx. apply Hfr.
    + by intros ->.
    + intros ->. apply Hp. apply elem_of_app. right. by right.
Qed.

(** Splicing out the cell [p] that follows [a]. *)
Lemma lseg_unlink f h h' s X a p Y e :
  lseg f h s (X ++ a :: p :: Y) e →
  NoDup (X ++ a :: p :: Y) →
  f <$> h' !! a = f <$> h !! p →
  (∀ x, x ≠ a → x ≠ p → f <$> h' !! x = f <$> h !! x) →
  lseg f h' s (X ++ a :: Y) e.
Proof.
  intros Hs Hnd Ha Hfr.
  apply lseg_app in Hs as (r & HX & Hs).
  destruct Hs as (-> & Ha0 & na & Hna & Hs).
  destruct Hs as (Hnap & Hp0 & np & Hnp & HY).
  apply NoDup_app in Hnd as (_ & HXa & HaY).
  apply NoDup_cons in HaY as [HaY HpY].
  apply NoDup_cons in HpY as [HpY _].
  apply lseg_app. exists a. split.
  - eapply lseg_frame; [|exact HX]. intros x Hx. apply Hfr.
    + intros ->. eapply HXa; [done|left].
    + intros ->. eapply HXa; [done|]. right. left.
  - rewrite Hnp in Ha. destruct (h' !! a) as [na'|] eqn:Hna'; [|done].
    simpl in Ha. injection Ha as Ha.
    split; [done|]. split; [done|]. exists na'. split; [done|].
    rewrite Ha. eapply lseg_frame; [|exact HY]. intros x Hx. apply Hfr.
    + intros ->. apply HaY. by right.
    + by intros ->.
Qed.

Lemma snoc_exists {A} (x : A) (l : list A) : ∃ X a, x :: l = X ++ [a].
Proof.
  revert x. induction l as [|y l IH]; intros x.
  - by exists [], x.
  - destruct (IH y) as (X & a & E). exists (x :: X), a. by rewrite E.
Qed.

(** * The Order List *)

Lemma order_list_frame h h' m m' l :
  hd m' = hd m → tl m' = tl m →
  (∀ x, x ∈ cells m l → time_nxt <$> h' !! x = time_nxt <$> h !! x) →
  (∀ x, x ∈ cells m l → time_lst <$> h' !! x = time_lst <$> h !! x) →
  (∀ x, x ∈ l.*1 → val <$> h' !! x = val <$> h !! x) →
  order_list h m l → order_list h' m' l.
Proof.
  intros Hhd Htl Hn Hl Hv (Hf & Hb & Hnd & Hh).
  unfold order_list, cells in *. rewrite Hhd, Htl.
  split_and!; [| |done|].
  - by eapply lseg_frame.
  - eapply lseg_frame; [|done]. intros x Hx. apply Hl.
    by apply elem_of_reverse.
  - unfold holds in *. rewrite Forall_forall in *. intros e He.
    rewrite Hv; [by apply Hh|]. by apply list_elem_of_fmap_2.
Qed.

Lemma order_list_hd_next h m l :
  order_list h m l →
  time_nxt <$> h !! hd m = Some (default (tl m) (head l.*1)).
Proof.
  intros (Hf & _). unfold cells in Hf.
  destruct (l.*1) as [|x r]; simpl.
  - by apply (lseg_step _ _ _ [] _ _ []) in Hf.
  - by apply (lseg_step _ _ _ [] _ _ (r ++ [tl m])) in Hf.
Qed.

Lemma order_list_next h m l1 p kv l2 :
  order_list h m (l1 ++ (p, kv) :: l2) →
  time_nxt <$> h !! p = Some (default (tl m) (head l2.*1)).
Proof.
  intros (Hf & _). unfold cells in Hf.
  rewrite fmap_app, fmap_cons in Hf. simpl in Hf.
  destruct (l2.*1) as [|x r]; simpl in *.
  - rewrite <- app_assoc in Hf. simpl in Hf.
    by apply (lseg_step _ _ _ (hd m :: l1.*1) _ _ []) in Hf.
  - rewrite <- app_assoc in Hf. simpl in Hf.
    by apply (lseg_step _ _ _ (hd m :: l1.*1) _ _ (r ++ [tl m])) in Hf.
Qed.

Lemma order_list_distinct h m l :
  order_list h m l →
  hd m ≠ tl m ∧ (∀ p, p ∈ l.*1 → p ≠ hd m ∧ p ≠ tl m).
Proof.
  intros (_ & _ & Hnd & _). unfold cells in Hnd.
  apply NoDup_cons in Hnd as [Hhd Hnd].
  apply NoDup_app in Hnd as (_ & Hd & _).
  split.
  - intros E. apply Hhd. rewrite E. apply elem_of_app. right. left.
  - intros p Hp. split.
    + intros ->. apply Hhd. apply elem_of_app. by left.
    + intros ->. eapply Hd; [done|left].
Qed.

Lemma holds_frame h h' l :
  (∀ x, x ∈ l.*1 → val <$> h' !! x = val <$> h !! x) →
  holds h l → holds h' l.
Proof.
  unfold holds. rewrite !Forall_forall. intros Hv Hh e He.
  rewrite Hv; [by apply Hh|]. by apply list_elem_of_fmap_2.
Qed.

(** * Rebuilding the Bucket Table *)

Ltac proj := cbn [mem obj this len load hd tl buc
                  set_len set_load set_hd set_tl set_buc
                  val time_lst time_nxt nxt
                  set_time_lst set_time_nxt set_nxt set_second] in *.

Lemma chain_snoc c i l e :
  chain c i (l ++ [e]) =
  if decide (bucket_of c e.2.1 = i) then e :: chain c i l else chain c i l.
Proof.
  unfold chain. rewrite filter_app, filter_cons, filter_nil.
  case_decide; by rewrite ?reverse_snoc, ?app_nil_r.
Qed.

Lemma chain_elem c i l p kv : (p, kv) ∈ chain c i l → p ∈ l.*1.
Proof.
  intros H. apply chain_subset in H.
  by apply (list_elem_of_fmap_2 fst) in H.
Qed.

Lemma chain_elem_fst c i l p : p ∈ (chain c i l).*1 → p ∈ l.*1.
Proof.
  intros H. apply list_elem_of_fmap in H as ([q kv] & -> & H).
  by eapply chain_elem.
Qed.

Lemma ChangeSpace_loop_spec l2 : ∀ fuel l1 s it,
  order_list (mem s) (obj s) (l1 ++ l2) →
  (0 < len (obj s))%Z →
  length (buc (obj s)) = Z.to_nat (len (obj s)) →
  (∀ i b, buc (obj s) !! i = Some b →
          lseg nxt (mem s) b (chain (len (obj s)) i l1).*1 nullptr) →
  it = default (tl (obj s)) (head l2.*1) →
  (length l2 ≤ fuel)%nat →
  wp (ChangeSpace_loop fuel it) s (λ _ s',
    (∃ bs, obj s' = set_buc bs (obj s)) ∧
    bucket_table (mem s') (obj s') (l1 ++ l2) ∧
    (∀ q, q ∉ l2.*1 → mem s' !! q = mem s !! q) ∧
    (∀ q, set_nxt nullptr <$> mem s' !! q = set_nxt nullptr <$> mem s !! q)).
Proof.
  induction l2 as [|[p kv] l2 IH]; intros fuel l1 s it Ho Hlen Hbl Hch -> Hf.
  - simpl. rewrite app_nil_r in *.
    assert (wp (m ← get_this; if decide (tl (obj s) = tl m) then mret ()
                               else diverge) s (λ _ s',
      (∃ bs, obj s' = set_buc bs (obj s)) ∧
      bucket_table (mem s') (obj s') l1 ∧
      (∀ q, q ∉ [] → mem s' !! q = mem s !! q) ∧
      (∀ q, set_nxt nullptr <$> mem s' !! q = set_nxt nullptr <$> mem s !! q))) as H.
    { apply wp_bind, wp_get_this. rewrite decide_True by done. apply wp_ret.
      split_and!; try done. exists (buc (obj s)). by destruct (obj s). }
    destruct fuel; cbn [ChangeSpace_loop].
    + exact H.
    + unfold wp in *. unfold mbind, M_bind, bind, get_this in *.
      rewrite decide_True in * by done. exact H.
  - destruct fuel as [|fuel]; [simpl in Hf; lia|].
    pose proof (order_list_distinct _ _ _ Ho) as [Hht Hne].
    pose proof (order_list_NoDup_entries _ _ _ Ho) as Hnd.
    rewrite fmap_app, fmap_cons in Hnd, Hne. simpl in Hnd, Hne.
    assert (p ≠ tl (obj s)) as Hptl.
    { apply Hne. apply elem_of_app. right. left. }
    destruct (holds_lookup (mem s) (l1 ++ (p, kv) :: l2) p kv) as (n & Hn & Hv).
    { by destruct Ho as (_ & _ & _ & ?). }
    { apply elem_of_app. right. left. }
    pose proof (order_list_next _ _ _ _ _ _ Ho) as Hnext.
    rewrite Hn in Hnext. simpl in Hnext. injection Hnext as Hnext.
    assert (bucket_of (len (obj s)) kv.1 < length (buc (obj s)))%nat as Hi
      by (rewrite Hbl; by apply bucket_of_lt).
    destruct (lookup_lt_is_Some_2 _ _ Hi) as [b Hb].
    cbn [ChangeSpace_loop]. simpl head. simpl default.
    apply wp_bind, wp_get_this. rewrite decide_False by done.
    apply wp_bind. eapply wp_deref_val; [done..|].
    apply wp_bind, wp_hash_index; [lia|].
    apply wp_bind. eapply wp_buc_read; [done|].
    apply wp_bind. eapply wp_assign; [done|].
    apply wp_bind. apply wp_buc_write; [done|].
    apply wp_bind. eapply wp_deref; [proj; apply lookup_insert_eq|].
    proj. rewrite Hnext.
    eapply wp_mono.
    { apply (IH fuel (l1 ++ [(p, kv)])); proj.
      - rewrite <- app_assoc. simpl.
        eapply order_list_frame; [done|done| | | |exact Ho]; intros x Hx;
          (destruct (decide (x = p)) as [->|];
           [rewrite lookup_insert_eq, Hn; done|by rewrite lookup_insert_ne]).
      - done.
      - by rewrite length_insert.
      - intros i b' Hb'. rewrite chain_snoc. simpl.
        assert (∀ j x, x ∈ (chain (len (obj s)) j l1).*1 →
                  nxt <$> <[p:=set_nxt b n]> (mem s) !! x = nxt <$> mem s !! x) as Hfr.
        { intros j x Hx. apply chain_elem_fst in Hx.
          rewrite lookup_insert_ne; [done|]. intros ->.
          apply NoDup_app in Hnd as (_ & Hd & _). eapply Hd; [done|left]. }
        destruct (decide (bucket_of (len (obj s)) kv.1 = i)) as [<-|Hi'].
        + rewrite list_lookup_insert_eq in Hb' by done. injection Hb' as <-.
          rewrite fmap_cons. simpl.
          split; [done|]. split.
          { destruct Ho as (Hfw & _). eapply lseg_lookup; [exact Hfw|].
            unfold cells. right. rewrite fmap_app, fmap_cons.
            apply elem_of_app. left. apply elem_of_app. right. left. }
          exists (set_nxt b n). split; [apply lookup_insert_eq|]. proj.
          eapply lseg_frame; [apply Hfr|]. by apply Hch.
        + rewrite list_lookup_insert_ne in Hb' by done.
          eapply lseg_frame; [apply Hfr|]. by apply Hch.
      - reflexivity.
      - simpl in Hf. lia. }
    intros _ s' ([bs Hbs] & Hbt & Hfr & Hsame). proj.
    split_and!.
    + exists bs. by rewrite Hbs.
    + by rewrite <- app_assoc in Hbt.
    + intros q Hq. rewrite fmap_cons in Hq. simpl in Hq.
      rewrite Hfr.
      * apply lookup_insert_ne. intros ->. apply Hq. left.
      * intros Hin. apply Hq. by right.
    + intros q. rewrite Hsame.
      destruct (decide (q = p)) as [->|];
        [rewrite lookup_insert_eq, Hn; done|by rewrite lookup_insert_ne].
Qed.

Lemma same_but_nxt_fields (h h' : gmap nat Node) q :
  set_nxt nullptr <$> h' !! q = set_nxt nullptr <$> h !! q →
  time_nxt <$> h' !! q = time_nxt <$> h !! q ∧
  time_lst <$> h' !! q = time_lst <$> h !! q ∧
  val <$> h' !! q = val <$> h !! q.
Proof.
  destruct (h' !! q) as [[]|], (h !! q) as [[]|]; simpl; try done.
  intros [= -> -> ->]. done.
Qed.

Lemma order_list_same_but_nxt h h' m m' l :
  hd m' = hd m → tl m' = tl m →
  (∀ q, set_nxt nullptr <$> h' !! q = set_nxt nullptr <$> h !! q) →
  order_list h m l → order_list h' m' l.
Proof.
  intros Hhd Htl Hs. apply order_list_frame; try done;
    intros x _; by destruct (same_but_nxt_fields h h' x (Hs x)) as (? & ? & ?).
Qed.

Lemma order_list_length h m l :
  order_list h m l → (length l + 2 ≤ size h)%nat.
Proof.
  intros Ho.
  assert (length (cells m l) ≤ size h)%nat as Hlen.
  { apply NoDup_alloc_length; [by destruct Ho as (_ & _ & ? & _)|].
    intros x Hx. by eapply order_list_alloc. }
  unfold cells in Hlen. simpl in Hlen.
  rewrite length_app, length_fmap in Hlen. simpl in Hlen. lia.
Qed.

(** [ChangeSpace] needs the Order List only, leaves it as it is, and
    builds the Bucket Table of the new capacity from it. *)
Lemma ChangeSpace_spec d s l :
  order_list (mem s) (obj s) l →
  (0 < resized d (len (obj s)))%Z →
  wp (ChangeSpace d) s (λ _ s',
    (∃ bs, obj s' = set_buc bs (set_len (resized d (len (obj s))) (obj s))) ∧
    order_list (mem s') (obj s') l ∧
    bucket_table (mem s') (obj s') l ∧
    (∀ q, q ∉ l.*1 → mem s' !! q = mem s !! q) ∧
    (∀ q, set_nxt nullptr <$> mem s' !! q = set_nxt nullptr <$> mem s !! q)).
Proof.
  intros Ho Hpos. unfold ChangeSpace. fold (resized d (len (obj s))).
  apply wp_bind, wp_get_this.
  apply wp_bind, wp_set_this. apply wp_bind, wp_set_this.
  pose proof (order_list_hd_next _ _ _ Ho) as Hn.
  destruct (mem s !! hd (obj s)) as [nh|] eqn:Hh; [|done].
  simpl in Hn. injection Hn as Hn.
  apply wp_bind. eapply wp_deref; [proj; done|].
  apply wp_bind, wp_rounds. proj. rewrite Hn.
  eapply wp_mono.
  { apply (ChangeSpace_loop_spec l _ []); proj.
    - done.
    - done.
    - by rewrite length_replicate.
    - intros i b Hb. apply lookup_replicate in Hb as [-> _]. done.
    - done.
    - pose proof (order_list_length _ _ _ Ho). lia. }
  intros _ s' ([bs Hbs] & Hbt & Hfr & Hsame). proj.
  split_and!; try done.
  - exists bs. by rewrite Hbs.
  - eapply order_list_same_but_nxt; [..|exact Ho]; try done;
      by rewrite Hbs.
Qed.

(** * Appending to the Order List *)

Ltac lk := repeat first
  [ rewrite lookup_insert_eq
  | rewrite lookup_insert_ne by (done || (intros ?; subst; done) || congruence)
  | rewrite lookup_delete_ne by (done || congruence) ].

Lemma cells_snoc m l X a :
  hd m :: l.*1 = X ++ [a] → cells m l = X ++ [a; tl m].
Proof. unfold cells. intros E. by rewrite app_comm_cons, E, <- app_assoc. Qed.

(** The node before [tl]. *)
Lemma order_list_tl_prev h m l :
  order_list h m l →
  ∃ nt na X, h !! tl m = Some nt ∧ h !! time_lst nt = Some na ∧
             hd m :: l.*1 = X ++ [time_lst nt] ∧ time_lst nt ≠ tl m.
Proof.
  intros (Hf & Hb & Hnd & _).
  destruct (snoc_exists (hd m) l.*1) as (X & a & E).
  rewrite (cells_snoc _ _ _ _ E) in *.
  rewrite reverse_app in Hb. simpl in Hb.
  destruct Hb as (_ & _ & nt & Hnt & Hb).
  destruct Hb as (Ha & _ & na & Hna & _).
  exists nt, na, X. rewrite Ha. split_and!; try done.
  intros Heq. apply NoDup_app in Hnd as (_ & _ & Hnd).
  apply NoDup_cons in Hnd as [Hnd _]. apply Hnd. rewrite Heq. left.
Qed.

Lemma NoDup_reverse {A} (l : list A) : NoDup l → NoDup (reverse l).
Proof. by rewrite reverse_Permutation. Qed.

Lemma NoDup_middle {A} (X Y : list A) p :
  NoDup (X ++ Y) → p ∉ X ++ Y → NoDup (X ++ p :: Y).
Proof.
  intros Hnd Hp. rewrite <- Permutation_middle. by apply NoDup_cons.
Qed.

Lemma order_list_add h m l p kv b nt na :
  order_list h m l →
  h !! p = None → p ≠ nullptr →
  h !! tl m = Some nt → h !! time_lst nt = Some na →
  order_list
    (<[tl m := set_time_lst p nt]>
       (<[time_lst nt := set_time_nxt p na]>
          (<[p := mkNode (Some kv) (time_lst nt) (tl m) b]> h)))
    m (l ++ [(p, kv)]).
Proof.
  intros Ho Hp Hp0 Hnt Hna.
  destruct (order_list_tl_prev _ _ _ Ho) as (nt' & na' & X & Hnt' & Hna' & E & Hat).
  rewrite Hnt in Hnt'. injection Hnt' as <-. clear na' Hna'.
  set (a := time_lst nt) in *.
  assert (p ∉ cells m l) as Hpc.
  { intros Hin. destruct (order_list_alloc _ _ _ _ Ho Hin) as [_ [? ?]]. congruence. }
  assert (p ≠ tl m) as Hptl by (intros ->; congruence).
  assert (p ≠ a) as Hpa by (intros ->; congruence).
  destruct Ho as (Hf & Hb & Hnd & Hh).
  pose proof (cells_snoc _ _ _ _ E) as Ec.
  assert (cells m (l ++ [(p, kv)]) = X ++ [a; p; tl m]) as Ec'.
  { unfold cells. rewrite fmap_app. simpl.
    rewrite <- app_assoc. simpl. by rewrite app_comm_cons, E, <- app_assoc. }
  unfold order_list. rewrite Ec'. rewrite Ec in Hf, Hb, Hnd, Hpc.
  split_and!.
  - eapply (lseg_link _ h _ _ X a p [tl m]); try done.
    + by lk.
    + lk. rewrite Hna. simpl.
      apply (lseg_step _ _ _ X a (tl m) []) in Hf. by rewrite Hna in Hf.
    + intros x Hxa Hxp. lk.
      destruct (decide (x = tl m)) as [->|]; lk; [by rewrite Hnt|done].
  - assert (reverse (X ++ [a; tl m]) = tl m :: a :: reverse X) as Hr1
      by (by rewrite reverse_app).
    assert (reverse (X ++ [a; p; tl m]) = tl m :: p :: a :: reverse X) as Hr2
      by (by rewrite reverse_app).
    rewrite Hr2. rewrite Hr1 in Hb.
    eapply (lseg_link _ h _ _ [] (tl m) p (a :: reverse X)); try done.
    + simpl. rewrite <- Hr1. by apply NoDup_reverse.
    + intros Hin. apply Hpc. simpl in Hin. rewrite <- Hr1 in Hin.
      by apply elem_of_reverse.
    + by lk.
    + lk. by rewrite Hnt.
    + intros x Hxa Hxp. lk.
      destruct (decide (x = a)) as [->|]; lk; [by rewrite Hna|done].
  - change (X ++ [a; p; tl m]) with (X ++ [a] ++ p :: [tl m]).
    rewrite app_assoc. apply NoDup_middle; rewrite <- app_assoc; done.
  - unfold holds. rewrite Forall_app. split.
    + eapply holds_frame; [|exact Hh]. intros x Hx.
      assert (x ∈ cells m l) as Hxc.
      { unfold cells. right. apply elem_of_app. by left. }
      rewrite <- Ec in Hpc, Hnd.
      assert (x ≠ p) by (by intros ->).
      assert (x ≠ tl m).
      { intros ->. unfold cells in Hnd. apply NoDup_cons in Hnd as [_ Hnd].
        apply NoDup_app in Hnd as (_ & Hd & _). eapply Hd; [done|left]. }
      lk. destruct (decide (x = a)) as [->|]; lk; [by rewrite Hna|done].
    + apply Forall_singleton. simpl. by lk.
Qed.

(** * Capacity arithmetic *)

Lemma size_t_small z : (0 ≤ z < 2 ^ 64)%Z → size_t z = z.
Proof. intros H. unfold size_t. by apply Z.mod_small. Qed.

Lemma shiftl_lor_1 c : (0 ≤ c)%Z → Z.lor (Z.shiftl c 1) 1 = (2 * c + 1)%Z.
Proof.
  intros Hc. destruct c as [|p|p]; [done|done|].
  pose proof (Pos2Z.neg_is_neg p). lia.
Qed.

Lemma shiftr_1 c : Z.shiftr c 1 = (c / 2)%Z.
Proof. by rewrite Z.shiftr_div_pow2. Qed.

Lemma capacity_LEN : capacity LEN.
Proof. by exists O. Qed.

Lemma capacity_ge c : capacity c → (LEN ≤ c)%Z.
Proof.
  intros [k Hk]. unfold LEN.
  assert (1 ≤ 2 ^ Z.of_nat k)%Z by (apply Z.pow_le_mono_r with (b := 0%Z); lia).
  lia.
Qed.

Lemma capacity_grow c : capacity c → capacity (2 * c + 1).
Proof.
  intros [k Hk]. exists (S k).
  rewrite Nat2Z.inj_succ, Z.pow_succ_r by lia. lia.
Qed.

Lemma capacity_shrink c : capacity c → (LEN < c)%Z → capacity (c / 2).
Proof.
  intros [k Hk] Hc. unfold LEN in Hc. destruct k as [|k].
  - simpl in Hk. lia.
  - exists k. rewrite Nat2Z.inj_succ, Z.pow_succ_r in Hk by lia.
    assert (c = 2 * (14 * 2 ^ Z.of_nat k - 1) + 1)%Z as -> by lia.
    rewrite Z.mul_comm, Z.div_add_l by lia.
    change (1 / 2)%Z with 0%Z. lia.
Qed.

Lemma resized_grow c :
  capacity c → (c < max_load)%Z →
  resized 1 c = (2 * c + 1)%Z ∧ resized 1 c = Z.lor (Z.shiftl c 1) 1.
Proof.
  intros Hc Hm. pose proof (capacity_ge _ Hc) as Hge. unfold LEN in Hge.
  unfold resized, max_load in *. simpl (0 <? 1)%Z. cbv iota.
  rewrite shiftl_lor_1 by lia. split; apply size_t_small; lia.
Qed.

Lemma resized_shrink c : resized (-1) c = (c / 2)%Z.
Proof. unfold resized. simpl. apply shiftr_1. Qed.

Lemma order_list_obj h m m' l :
  hd m' = hd m → tl m' = tl m → order_list h m l → order_list h m' l.
Proof. intros Hhd Htl. by apply order_list_frame. Qed.

Lemma same_but_nxt_None (h h' : gmap nat Node) q :
  set_nxt nullptr <$> h' !! q = set_nxt nullptr <$> h !! q →
  h' !! q = None → h !! q = None.
Proof. intros E H. rewrite H in E. by destruct (h !! q). Qed.

Lemma distinct_keys_snoc l p key :
  distinct_keys l → find_node key.1 l = None →
  distinct_keys (l ++ [(p, key)]).
Proof.
  intros Hd Hn. rewrite find_node_None in Hn.
  assert (∀ i x, l !! i = Some x → equal x.2.1 key.1 = false ∧
                                  equal key.1 x.2.1 = false) as Hne.
  { intros i x Hi. apply list_elem_of_lookup_2 in Hi.
    split; [|by apply Hn].
    destruct (equal x.2.1 key.1) eqn:E; [|done].
    apply equal_sym in E. by rewrite (Hn _ Hi) in E. }
  intros i j x y Hi Hj E.
  destruct (decide (i < length l)%nat) as [Hil|Hil],
           (decide (j < length l)%nat) as [Hjl|Hjl].
  - rewrite lookup_app_l in Hi, Hj by done. by eapply Hd.
  - rewrite lookup_app_l in Hi by done.
    rewrite lookup_app_r in Hj by lia.
    apply list_lookup_singleton_Some in Hj as [_ <-].
    destruct (Hne _ _ Hi) as [E' _]. simpl in E. congruence.
  - rewrite lookup_app_l in Hj by done.
    rewrite lookup_app_r in Hi by lia.
    apply list_lookup_singleton_Some in Hi as [_ <-].
    destruct (Hne _ _ Hj) as [_ E']. simpl in E. congruence.
  - rewrite lookup_app_r in Hi, Hj by lia.
    apply list_lookup_singleton_Some in Hi as [? _].
    apply list_lookup_singleton_Some in Hj as [? _]. lia.
Qed.

(** * [Add] *)

Lemma Add_spec key s l :
  Inv s l → find_node key.1 l = None → (load (obj s) < max_load)%Z →
  wp (Add key) s (λ p s',
    Inv s' (l ++ [(p, key)]) ∧
    mem s !! p = None ∧ p ≠ nullptr ∧
    preserves s s' l ∧
    this (obj s') = this (obj s) ∧ hd (obj s') = hd (obj s) ∧
    tl (obj s') = tl (obj s) ∧
    len (obj s') = grown (obj s)).
Proof.
  intros (Ho & Hbt & Hd & Hld & Hmax & Hcap) Hnew Hlt.
  assert (0 ≤ load (obj s))%Z as Hl0 by lia.
  unfold Add.
  apply wp_bind, wp_get_this. apply wp_bind, wp_set_this. apply wp_bind.
  rewrite size_t_small by (unfold max_load in *; lia).
  eapply wp_mono.
  { instantiate (1 := λ _ s2,
      order_list (mem s2) (obj s2) l ∧ bucket_table (mem s2) (obj s2) l ∧
      (∀ q, q ∉ l.*1 → mem s2 !! q = mem s !! q) ∧
      (∀ q, set_nxt nullptr <$> mem s2 !! q = set_nxt nullptr <$> mem s !! q) ∧
      (∃ bs, obj s2 = set_buc bs (set_len (grown (obj s))
                                   (set_load (load (obj s) + 1) (obj s)))) ∧
      capacity (len (obj s2))).
    unfold grown.
    destruct (Z.gtb_spec (load (obj s)) (len (obj s))) as [Hgt|Hle].
    - assert (len (obj s) < max_load)%Z as Hlm by lia.
      destruct (resized_grow _ Hcap Hlm) as [Hr1 Hr2].
      pose proof (capacity_ge _ Hcap) as Hge. unfold LEN in Hge.
      eapply wp_mono.
      { apply (ChangeSpace_spec 1 _ l); proj.
        - by eapply order_list_obj; [| |exact Ho].
        - lia. }
      intros _ s2 ([bs Hbs] & Ho2 & Hbt2 & Hfr2 & Hsame2). proj.
      split_and!.
      + done.
      + done.
      + done.
      + done.
      + exists bs. by rewrite Hbs, Hr2.
      + rewrite Hbs. proj. rewrite Hr1. by apply capacity_grow.
    - apply wp_ret. proj. split_and!.
      + by eapply order_list_obj; [| |exact Ho].
      + done.
      + done.
      + done.
      + exists (buc (obj s)). by destruct (obj s).
      + done.
  }
  intros _ s2 (Ho2 & Hbt2 & Hfr2 & Hsame2 & [bs Hobj2] & Hcap2).
  destruct Hbt2 as (Hlen2 & Hbl2 & Hch2).
  assert (hd (obj s2) = hd (obj s)) as Hhd2 by (by rewrite Hobj2).
  assert (tl (obj s2) = tl (obj s)) as Htl2 by (by rewrite Hobj2).
  apply wp_bind, wp_hash_index; [lia|].
  apply wp_bind, wp_get_this.
  destruct (order_list_tl_prev _ _ _ Ho2) as (nt & na & X & Hnt & Hna & EX & Hat).
  apply wp_bind. eapply wp_deref; [done|].
  assert (bucket_of (len (obj s2)) key.1 < length (buc (obj s2)))%nat as Hi
    by (rewrite Hbl2; by apply bucket_of_lt).
  destruct (lookup_lt_is_Some_2 _ _ Hi) as [b Hb].
  apply wp_bind. eapply wp_buc_read; [done|].
  apply wp_bind. apply wp_new_Node. intros p Hp0 Hp. proj.
  assert (p ≠ tl (obj s2)) as Hptl by (intros ->; congruence).
  assert (p ≠ time_lst nt) as Hpa by (intros ->; congruence).
  apply wp_bind. eapply wp_deref; [proj; by lk|].
  apply wp_bind. eapply wp_assign; [proj; by lk|].
  apply wp_bind. eapply wp_assign; [proj; by lk|].
  apply wp_bind. apply wp_buc_write; [done|]. apply wp_ret. proj.
  pose proof (order_list_add _ _ _ p key b nt na Ho2 Hp Hp0 Hnt Hna) as Ho3.
  set (h3 := <[tl (obj s2) := _]> _) in *.
  assert (∀ x, x ≠ p → nxt <$> h3 !! x = nxt <$> mem s2 !! x) as Hnxt.
  { intros x Hx. unfold h3.
    destruct (decide (x = tl (obj s2))) as [->|]; lk; [by rewrite Hnt|].
    destruct (decide (x = time_lst nt)) as [->|]; lk; [by rewrite Hna|done]. }
  assert (mem s !! p = None) as Hps
    by apply (same_but_nxt_None _ (mem s2) p (Hsame2 p) Hp).
  split_and!; try done; try (by rewrite Hobj2).
  - split_and!.
    + by eapply order_list_obj; [| |exact Ho3].
    + split_and!; proj; [done|by rewrite length_insert|].
      intros i b' Hb'. rewrite chain_snoc. simpl.
      assert (∀ j x, x ∈ (chain (len (obj s2)) j l).*1 →
                     nxt <$> h3 !! x = nxt <$> mem s2 !! x) as Hfr.
      { intros j x Hx. apply chain_elem_fst in Hx. apply Hnxt. intros ->.
        assert (p ∈ cells (obj s2) l) as Hin
          by (unfold cells; right; apply elem_of_app; by left).
        destruct (order_list_alloc _ _ _ _ Ho2 Hin) as [_ [? ?]]. congruence. }
      destruct (decide (bucket_of (len (obj s2)) key.1 = i)) as [<-|Hi'].
      * rewrite list_lookup_insert_eq in Hb' by done. injection Hb' as <-.
        rewrite fmap_cons. simpl. split; [done|]. split; [done|].
        eexists. split; [unfold h3; by lk|]. proj.
        eapply lseg_frame; [apply Hfr|]. by apply Hch2.
      * rewrite list_lookup_insert_ne in Hb' by done.
        eapply lseg_frame; [apply Hfr|]. by apply Hch2.
    + by apply distinct_keys_snoc.
    + unfold counters. rewrite Hobj2. proj. rewrite length_app. simpl.
      split_and!; [lia|lia|]. rewrite Hobj2 in Hcap2. by proj.
  - intros q n Hq Hqc. proj. unfold cells in Hqc.
    assert (q ≠ tl (obj s)) as Hqt.
    { intros ->. apply Hqc. right. apply elem_of_app. right. left. }
    assert (q ∉ l.*1) as Hql.
    { intros Hin. apply Hqc. right. apply elem_of_app. by left. }
    assert (q ≠ time_lst nt) as Hqa.
    { intros ->. apply Hqc. rewrite app_comm_cons, <- Hhd2, EX.
      apply elem_of_app. left. apply elem_of_app. right. left. }
    assert (q ≠ p) as Hqp by (intros ->; congruence).
    unfold h3. rewrite Htl2. lk. by rewrite Hfr2.
Qed.

(** * Removing from the Order List *)

Lemma cells_middle m l1 p kv l2 X a b Y :
  hd m :: l1.*1 = X ++ [a] → l2.*1 ++ [tl m] = b :: Y →
  cells m (l1 ++ (p, kv) :: l2) = X ++ a :: p :: b :: Y ∧
  cells m (l1 ++ l2) = X ++ a :: b :: Y.
Proof.
  intros EX EY. unfold cells. rewrite !fmap_app, fmap_cons. simpl.
  rewrite <- !app_assoc. simpl. rewrite EY.
  rewrite !app_comm_cons, EX, <- !app_assoc. done.
Qed.

(** The two neighbours of a live node. *)
Lemma order_list_neighbours h m l1 p kv l2 :
  order_list h m (l1 ++ (p, kv) :: l2) →
  ∃ np na nb X Y,
    h !! p = Some np ∧ val np = Some kv ∧
    h !! time_lst np = Some na ∧ h !! time_nxt np = Some nb ∧
    hd m :: l1.*1 = X ++ [time_lst np] ∧
    l2.*1 ++ [tl m] = time_nxt np :: Y.
Proof.
  intros Ho.
  destruct (snoc_exists (hd m) l1.*1) as (X & a & EX).
  assert (∃ b Y, l2.*1 ++ [tl m] = b :: Y) as (b & Y & EY).
  { destruct (l2.*1) as [|b Y]; simpl; eauto. }
  destruct (cells_middle m l1 p kv l2 X a b Y EX EY) as [Ec _].
  destruct (holds_lookup h (l1 ++ (p, kv) :: l2) p kv) as (np & Hnp & Hv).
  { by destruct Ho as (_ & _ & _ & ?). }
  { apply elem_of_app. right. left. }
  pose proof Ho as (Hf & Hb & Hnd & _). rewrite Ec in Hf, Hb, Hnd.
  assert (time_nxt <$> h !! p = Some b) as Hpb.
  { apply (lseg_step time_nxt h (hd m) (X ++ [a]) p b Y nullptr).
    by rewrite <- app_assoc. }
  assert (reverse (X ++ a :: p :: b :: Y) = (reverse Y ++ [b]) ++ p :: a :: reverse X) as Er.
  { rewrite reverse_app, !reverse_cons, <- !app_assoc. done. }
  rewrite Er in Hb. apply lseg_step in Hb as Hpa.
  rewrite Hnp in Hpb, Hpa. simpl in Hpb, Hpa.
  injection Hpb as Hpb. injection Hpa as Hpa.
  assert (is_Some (h !! a)) as [na Hna].
  { eapply lseg_lookup; [exact Hf|]. apply elem_of_app. right. left. }
  assert (is_Some (h !! b)) as [nb Hnb].
  { eapply lseg_lookup; [exact Hf|]. apply elem_of_app. right. right. right. left. }
  exists np, na, nb, X, Y. rewrite Hpa, Hpb. done.
Qed.

Lemma order_list_del h m l1 p kv l2 np na nb :
  order_list h m (l1 ++ (p, kv) :: l2) →
  h !! p = Some np →
  h !! time_lst np = Some na → h !! time_nxt np = Some nb →
  order_list
    (delete p (<[time_nxt np := set_time_lst (time_lst np) nb]>
                 (<[time_lst np := set_time_nxt (time_nxt np) na]> h)))
    m (l1 ++ l2).
Proof.
  intros Ho Hnp Hna Hnb.
  destruct (order_list_neighbours _ _ _ _ _ _ Ho)
    as (np' & na' & nb' & X & Y & Hnp' & Hv & _ & _ & EX & EY).
  rewrite Hnp in Hnp'. injection Hnp' as <-. clear na' nb'.
  set (a := time_lst np) in *. set (b := time_nxt np) in *.
  destruct (cells_middle m l1 p kv l2 X a b Y EX EY) as [Ec Ec'].
  destruct Ho as (Hf & Hb & Hnd & Hh).
  unfold order_list. rewrite Ec'. rewrite Ec in Hf, Hb, Hnd.
  assert (a ≠ p ∧ b ≠ p ∧ a ≠ b) as (Hap & Hbp & Hab).
  { apply NoDup_app in Hnd as (_ & _ & Hnd).
    apply NoDup_cons in Hnd as [Ha Hnd]. apply NoDup_cons in Hnd as [Hp _].
    split_and!.
    - intros E. apply Ha. rewrite E. left.
    - intros E. apply Hp. rewrite E. left.
    - intros E. apply Ha. rewrite E. right. left. }
  split_and!.
  - eapply (lseg_unlink _ h _ _ X a p (b :: Y)); try done.
    + rewrite lookup_delete_ne by done. lk. by rewrite Hnp.
    + intros x Hxa Hxp. rewrite lookup_delete_ne by done.
      destruct (decide (x = b)) as [->|]; lk; [by rewrite Hnb|done].
  - assert (reverse (X ++ a :: p :: b :: Y) = reverse Y ++ b :: p :: a :: reverse X) as Er.
    { rewrite reverse_app, !reverse_cons, <- !app_assoc. done. }
    assert (reverse (X ++ a :: b :: Y) = reverse Y ++ b :: a :: reverse X) as Er'.
    { rewrite reverse_app, !reverse_cons, <- !app_assoc. done. }
    rewrite Er'. rewrite Er in Hb.
    eapply (lseg_unlink _ h _ _ (reverse Y) b p (a :: reverse X)); try done.
    + rewrite <- Er. by apply NoDup_reverse.
    + rewrite lookup_delete_ne by done. lk. by rewrite Hnp.
    + intros x Hxb Hxp. rewrite lookup_delete_ne by done. lk.
      destruct (decide (x = a)) as [->|]; lk; [by rewrite Hna|done].
  - apply NoDup_app in Hnd as (HX & HXd & Hnd).
    apply NoDup_cons in Hnd as [Ha Hnd]. apply NoDup_cons in Hnd as [Hp Hnd].
    apply NoDup_app. split_and!; [done| |].
    + intros x Hx Hin. apply (HXd x Hx).
      apply elem_of_cons in Hin as [->|Hin]; [left|]. right. by right.
    + apply NoDup_cons. split; [|done]. intros Hin. apply Ha. by right.
  - assert (holds h (l1 ++ l2)) as Hh'.
    { unfold holds in *. rewrite Forall_app in *. destruct Hh as [H1 H2].
      split; [done|]. by apply Forall_inv_tail in H2. }
    eapply holds_frame; [|exact Hh']. intros x Hx.
    assert (x ≠ p).
    { intros ->. rewrite fmap_app in Hx.
      assert (p ∈ cells m (l1 ++ l2)) as Hin.
      { unfold cells. right. apply elem_of_app. left. by rewrite fmap_app. }
      rewrite Ec' in Hin.
      apply NoDup_app in Hnd as (_ & HXd & Hnd).
      apply NoDup_cons in Hnd as [Ha Hnd]. apply NoDup_cons in Hnd as [Hp Hnd].
      apply elem_of_app in Hin as [Hin|Hin].
      - apply (HXd p Hin). right. left.
      - apply elem_of_cons in Hin as [E|Hin]; [by apply Hap|].
        apply Hp. done. }
    rewrite lookup_delete_ne by done.
    destruct (decide (x = b)) as [->|]; lk; [by rewrite Hnb|].
    destruct (decide (x = a)) as [->|]; lk; [by rewrite Hna|done].
Qed.

Lemma elem_of_middle {A} (X Y : list A) a p q :
  q ∈ X ++ a :: Y → q ∈ X ++ a :: p :: Y.
Proof.
  rewrite !elem_of_app, !elem_of_cons. tauto.
Qed.

Lemma NoDup_not_middle {A} (X Y : list A) a p :
  NoDup (X ++ a :: p :: Y) → p ∉ X ++ a :: Y.
Proof.
  intros Hnd Hin.
  apply NoDup_app in Hnd as (_ & HXd & Hnd).
  apply NoDup_cons in Hnd as [Ha Hnd]. apply NoDup_cons in Hnd as [Hp Hnd].
  apply elem_of_app in Hin as [Hin|Hin].
  - apply (HXd p Hin). right. left.
  - apply elem_of_cons in Hin as [->|Hin]; [apply Ha; left|by apply Hp].
Qed.

Lemma elem_of_cells m l q : q ∈ l.*1 → q ∈ cells m l.
Proof. intros H. right. apply elem_of_app. by left. Qed.

(** * [Del] *)

Lemma Del_spec s l1 p kv l2 :
  order_list (mem s) (obj s) (l1 ++ (p, kv) :: l2) →
  counters (obj s) (l1 ++ (p, kv) :: l2) →
  wp (Del p) s (λ _ s',
    order_list (mem s') (obj s') (l1 ++ l2) ∧
    counters (obj s') (l1 ++ l2) ∧
    this (obj s') = this (obj s) ∧ hd (obj s') = hd (obj s) ∧
    tl (obj s') = tl (obj s) ∧
    len (obj s') = shrunk (obj s) ∧
    (∀ q, q ∉ cells (obj s) (l1 ++ (p, kv) :: l2) → mem s' !! q = mem s !! q) ∧
    mem s' !! p = None ∧
    (shrinks (obj s) = true ∨ bucket_table (mem s) (obj s) (l1 ++ l2) →
     bucket_table (mem s') (obj s') (l1 ++ l2))).
Proof.
  intros Ho (Hld & Hmax & Hcap).
  destruct (order_list_neighbours _ _ _ _ _ _ Ho)
    as (np & na & nb & X & Y & Hnp & Hv & Hna & Hnb & EX & EY).
  pose proof (order_list_del _ _ _ _ _ _ np na nb Ho Hnp Hna Hnb) as Ho3.
  destruct (cells_middle (obj s) l1 p kv l2 X _ _ Y EX EY) as [Ec Ec'].
  assert (NoDup (cells (obj s) (l1 ++ (p, kv) :: l2))) as Hnd
    by (by destruct Ho as (_ & _ & ? & _)).
  rewrite Ec in Hnd.
  assert (time_lst np ≠ p ∧ time_nxt np ≠ p ∧ time_lst np ≠ time_nxt np)
    as (Hap & Hbp & Hab).
  { apply NoDup_app in Hnd as (_ & _ & Hnd).
    apply NoDup_cons in Hnd as [Ha Hnd]. apply NoDup_cons in Hnd as [Hp _].
    split_and!.
    - intros E. apply Ha. rewrite E. left.
    - intros E. apply Hp. rewrite E. left.
    - intros E. apply Ha. rewrite E. right. left. }
  rewrite length_app in Hld. simpl in Hld.
  unfold Del.
  apply wp_bind. eapply wp_deref; [done|].
  apply wp_bind. eapply wp_assign; [done|].
  apply wp_bind. eapply wp_deref; [proj; by lk|].
  apply wp_bind. eapply wp_assign; [proj; by lk|].
  apply wp_bind, wp_get_this. apply wp_bind, wp_set_this.
  apply wp_bind. eapply wp_delete_Node; [proj; by lk|].
  apply wp_bind, wp_get_this. proj.
  rewrite (size_t_small (load (obj s) - 1)) by (unfold max_load in *; lia).
  rewrite Z.shiftl_mul_pow2 by lia.
  rewrite size_t_small by (unfold max_load in *; lia).
  replace ((load (obj s) - 1) * 2 ^ 2)%Z with (4 * (load (obj s) - 1))%Z by lia.
  set (h3 := delete p _) in *.
  assert (∀ q, q ∉ X ++ time_lst np :: p :: time_nxt np :: Y →
               h3 !! q = mem s !! q) as Hfr3.
  { intros q Hq. unfold h3.
    assert (q ≠ p) by (intros ->; apply Hq, elem_of_app; right; right; left).
    assert (q ≠ time_lst np) by (intros ->; apply Hq, elem_of_app; right; left).
    assert (q ≠ time_nxt np)
      by (intros ->; apply Hq, elem_of_app; right; right; right; left).
    rewrite lookup_delete_ne by done. by lk. }
  assert (length (l1 ++ l2) = (length l1 + length l2)%nat) as Hlen'
    by apply length_app.
  fold (shrinks (obj s)). unfold shrunk.
  destruct (shrinks (obj s)) eqn:Hsh.
  - unfold shrinks in Hsh. apply andb_prop in Hsh as [Hgt Hsm].
    apply Z.gtb_lt in Hgt.
    pose proof (capacity_shrink _ Hcap Hgt) as Hcap'.
    pose proof (capacity_ge _ Hcap') as Hge'. unfold LEN in Hge'.
    eapply wp_mono.
    { apply (ChangeSpace_spec (-1) _ (l1 ++ l2)); proj.
      - by eapply order_list_obj; [| |exact Ho3].
      - rewrite resized_shrink. lia. }
    intros _ s' ([bs Hbs] & Ho' & Hbt' & Hfr' & Hsame'). proj.
    rewrite resized_shrink in Hbs.
    split_and!; try (by rewrite Hbs); try done.
    + unfold counters. rewrite Hbs. proj. split_and!; [lia|lia|done].
    + rewrite Hbs. proj. by rewrite shiftr_1.
    + intros q Hq. rewrite Ec in Hq. rewrite <- Hfr3 by done.
      apply Hfr'. intros Hin. apply Hq.
      apply elem_of_middle. rewrite <- Ec'. by apply elem_of_cells.
    + rewrite Hfr'; [apply lookup_delete_eq|].
      intros Hin. apply (NoDup_not_middle _ _ _ _ Hnd).
      rewrite <- Ec'. by apply elem_of_cells.
  - apply wp_ret. proj.
    split_and!; [| |done|done|done|done| | |].
    + by eapply order_list_obj; [| |exact Ho3].
    + unfold counters. proj. split_and!; [lia|lia|done].
    + intros q Hq. rewrite Ec in Hq. by apply Hfr3.
    + apply lookup_delete_eq.
    + intros [?|(Hlen & Hbl & Hch)]; [done|]. split_and!; try done. proj.
      intros i b Hb. eapply lseg_frame; [|by apply Hch].
      intros x Hx. apply chain_elem_fst in Hx.
      assert (x ≠ p).
      { intros ->. apply (NoDup_not_middle _ _ _ _ Hnd).
        rewrite <- Ec'. by apply elem_of_cells. }
      unfold h3. rewrite lookup_delete_ne by done.
      destruct (decide (x = time_nxt np)) as [->|]; lk; [by rewrite Hnb|].
      destruct (decide (x = time_lst np)) as [->|]; lk; [by rewrite Hna|done].
Qed.

(** * Unlinking from a bucket chain *)

Lemma chain_app c i l1 l2 :
  chain c i (l1 ++ l2) = chain c i l2 ++ chain c i l1.
Proof. unfold chain. by rewrite filter_app, reverse_app. Qed.

Lemma chain_cons c i e l :
  chain c i (e :: l) =
  chain c i l ++ (if decide (bucket_of c e.2.1 = i) then [e] else []).
Proof.
  unfold chain. rewrite filter_cons.
  case_decide; [by rewrite reverse_cons|by rewrite app_nil_r].
Qed.

Lemma chain_bucket c i l e : e ∈ chain c i l → bucket_of c e.2.1 = i.
Proof.
  unfold chain. rewrite elem_of_reverse, list_elem_of_filter. tauto.
Qed.

Lemma chain_NoDup c i l : NoDup l.*1 → NoDup (chain c i l).*1.
Proof.
  intros Hnd. unfold chain. rewrite fmap_reverse. apply NoDup_reverse.
  revert Hnd. induction l as [|e l IH]; [done|].
  rewrite fmap_cons, NoDup_cons. intros [He Hnd].
  rewrite filter_cons. case_decide; [|by apply IH].
  rewrite fmap_cons. apply NoDup_cons. split; [|by apply IH].
  intros Hin. apply He.
  apply list_elem_of_fmap in Hin as (e' & -> & Hin).
  apply list_elem_of_filter in Hin as [_ Hin]. by apply list_elem_of_fmap_2.
Qed.

Lemma entries_functional (l : list entry) p kv kv' :
  NoDup l.*1 → (p, kv) ∈ l → (p, kv') ∈ l → kv = kv'.
Proof.
  induction l as [|e l IH]; [by intros _ ?%elem_of_nil|].
  rewrite fmap_cons, NoDup_cons. intros [He Hnd] H1 H2.
  apply elem_of_cons in H1 as [<-|H1], H2 as [E|H2].
  - by injection E.
  - destruct He. simpl. by apply (list_elem_of_fmap_2 fst) in H2.
  - destruct He. subst e. simpl. by apply (list_elem_of_fmap_2 fst) in H1.
  - by apply IH.
Qed.

Lemma erase_loop_spec C : ∀ fuel s b a p Y,
  lseg nxt (mem s) b (C ++ a :: p :: Y) nullptr →
  NoDup (C ++ a :: p :: Y) →
  (length C ≤ fuel)%nat →
  erase_loop fuel p b s = Ok a s.
Proof.
  induction C as [|x C IH]; intros fuel s b a p Y Hs Hnd Hf.
  - simpl in Hs. destruct Hs as (-> & _ & na & Hna & <- & _).
    destruct fuel; simpl; unfold mbind, M_bind, bind, deref; rewrite Hna;
      by rewrite decide_False by (by intros ?).
  - destruct fuel as [|fuel]; [simpl in Hf; lia|].
    simpl in Hs. destruct Hs as (-> & _ & nx & Hnx & Hs).
    assert (nxt nx ≠ p) as Hne.
    { intros E. simpl in Hnd. apply NoDup_cons in Hnd as [_ Hnd].
      destruct C as [|y C]; simpl in Hs.
      - destruct Hs as (Hy & _). apply NoDup_cons in Hnd as [Hnd _].
        apply Hnd. rewrite <- Hy, E. left.
      - destruct Hs as (Hy & _). apply NoDup_cons in Hnd as [Hnd _].
        apply Hnd. rewrite <- Hy, E. apply elem_of_app. right. right. left. }
    simpl. unfold mbind, M_bind, bind, deref. rewrite Hnx.
    rewrite decide_True by done.
    apply (IH _ _ _ _ _ Y); [done| |simpl in Hf; lia].
    simpl in Hnd. by apply NoDup_cons in Hnd as [_ Hnd].
Qed.

Lemma wp_eq {A} (x : M A) s a s' (Q : A → state → Prop) :
  x s = Ok a s' → Q a s' → wp x s Q.
Proof. unfold wp. by intros ->. Qed.

Lemma distinct_keys_remove l1 e l2 :
  distinct_keys (l1 ++ e :: l2) → distinct_keys (l1 ++ l2).
Proof.
  intros Hd.
  set (up := λ i : nat, if decide (i < length l1)%nat then i else S i).
  assert (∀ i, (l1 ++ e :: l2) !! up i = (l1 ++ l2) !! i) as Hup.
  { intros i. unfold up. case_decide.
    - by rewrite !lookup_app_l by done.
    - rewrite !lookup_app_r by lia.
      replace (S i - length l1)%nat with (S (i - length l1)) by lia. done. }
  intros i j x y Hi Hj E. rewrite <- Hup in Hi, Hj.
  pose proof (Hd _ _ _ _ Hi Hj E) as Hij.
  unfold up in Hij. repeat case_decide; lia.
Qed.

(** * [erase] *)

Lemma erase_spec s l1 p kv l2 :
  Inv s (l1 ++ (p, kv) :: l2) →
  wp (erase (mkIter (this (obj s)) p)) s (λ _ s',
    Inv s' (l1 ++ l2) ∧
    this (obj s') = this (obj s) ∧ hd (obj s') = hd (obj s) ∧
    tl (obj s') = tl (obj s) ∧
    len (obj s') = shrunk (obj s) ∧
    (∀ q, q ∉ cells (obj s) (l1 ++ (p, kv) :: l2) → mem s' !! q = mem s !! q) ∧
    mem s' !! p = None).
Proof.
  intros (Ho & (Hlen & Hbl & Hch) & Hd & Hc).
  set (l := l1 ++ (p, kv) :: l2) in *.
  pose proof (order_list_distinct _ _ _ Ho) as [Hht Hne].
  pose proof (order_list_NoDup_entries _ _ _ Ho) as Hnd.
  assert ((p, kv) ∈ l) as Hin by (apply elem_of_app; right; left).
  assert (p ∈ l.*1) as Hinp by (by apply (list_elem_of_fmap_2 fst) in Hin).
  destruct (Hne p Hinp) as [Hphd Hptl].
  destruct (holds_lookup (mem s) l p kv) as (np & Hnp & Hv);
    [by destruct Ho as (_ & _ & _ & ?)|done|].
  unfold erase. apply wp_bind, wp_get_this. cbn [it_at source].
  rewrite decide_False by (intros [?|?]; done).
  apply wp_bind. eapply wp_deref_val; [done..|].
  apply wp_bind, wp_hash_index; [lia|].
  set (i0 := bucket_of (len (obj s)) kv.1).
  assert (i0 < length (buc (obj s)))%nat as Hi
    by (rewrite Hbl; by apply bucket_of_lt).
  destruct (lookup_lt_is_Some_2 _ _ Hi) as [b Hb].
  apply wp_bind. eapply wp_buc_read; [done|].
  set (C1 := chain (len (obj s)) i0 l1).
  set (C2 := chain (len (obj s)) i0 l2).
  assert (chain (len (obj s)) i0 l = C2 ++ (p, kv) :: C1) as EC.
  { unfold l. rewrite chain_app, chain_cons. simpl.
    fold i0. rewrite decide_True by done. by rewrite <- app_assoc. }
  assert (∀ i, i ≠ i0 → chain (len (obj s)) i l = chain (len (obj s)) i (l1 ++ l2)) as ENE.
  { intros i Hi'. unfold l. rewrite !chain_app, chain_cons. simpl.
    fold i0. rewrite decide_False by done. by rewrite app_nil_r. }
  pose proof (Hch _ _ Hb) as Hs0. rewrite EC in Hs0.
  rewrite fmap_app, fmap_cons in Hs0. simpl in Hs0.
  pose proof (chain_NoDup (len (obj s)) i0 l Hnd) as HndC. rewrite EC in HndC.
  rewrite fmap_app, fmap_cons in HndC. simpl in HndC.
  apply wp_bind. eapply wp_mono.
  { instantiate (1 := λ _ se,
      order_list (mem se) (obj se) l ∧
      bucket_table (mem se) (obj se) (l1 ++ l2) ∧
      (∃ bs, obj se = set_buc bs (obj s)) ∧
      (∀ q, q ∉ l.*1 → mem se !! q = mem s !! q)).
    destruct (decide (b = p)) as [->|Hbp].
    - assert (C2 = []) as EC2.
      { destruct C2 as [|[x kx] C2']; [done|exfalso].
        rewrite fmap_cons in Hs0, HndC. simpl in Hs0, HndC.
        destruct Hs0 as (<- & _). apply NoDup_cons in HndC as [HndC _].
        apply HndC. apply elem_of_app. right. left. }
      rewrite EC2 in *. simpl in Hs0.
      destruct Hs0 as (_ & _ & np' & Hnp' & Hs0).
      rewrite Hnp in Hnp'. injection Hnp' as <-.
      apply wp_bind. eapply wp_deref; [done|].
      apply wp_buc_write; [done|]. proj.
      split_and!.
      + by eapply order_list_obj; [| |exact Ho].
      + split_and!; proj; [done|by rewrite length_insert|].
        intros i b' Hb'. destruct (decide (i = i0)) as [->|Hi'].
        * rewrite list_lookup_insert_eq in Hb' by done. injection Hb' as <-.
          rewrite chain_app. fold C1 C2. by rewrite EC2.
        * rewrite list_lookup_insert_ne in Hb' by done.
          rewrite <- ENE by done. by apply Hch.
      + by eexists.
      + done.
    - assert (∃ C a kva, C2 = C ++ [(a, kva)]) as (C & a & kva & EC2).
      { destruct C2 as [|e C2'] eqn:E2.
        - simpl in Hs0. by destruct Hs0 as (? & _).
        - destruct (snoc_exists e C2') as (C & [a kva] & ->). eauto. }
      rewrite EC2 in *. rewrite fmap_app in Hs0, HndC. simpl in Hs0, HndC.
      rewrite <- app_assoc in Hs0, HndC. simpl in Hs0, HndC.
      assert (is_Some (mem s !! a)) as [na Hna].
      { eapply lseg_lookup; [exact Hs0|]. apply elem_of_app. right. left. }
      pose proof (lseg_step _ _ _ _ _ _ _ _ Hs0) as Hap.
      rewrite Hna in Hap. simpl in Hap. injection Hap as Hap.
      apply wp_bind, wp_rounds.
      apply wp_bind. eapply wp_eq.
      { apply (erase_loop_spec C.*1 _ s b a p C1.*1); [done|done|].
        rewrite length_fmap.
        pose proof (chain_length (len (obj s)) i0 l _ _ Ho) as Hcl.
        rewrite EC, length_app, length_app in Hcl. lia. }
      apply wp_bind. eapply wp_deref; [done|]. rewrite Hap.
      apply wp_bind. eapply wp_deref; [done|].
      eapply wp_assign; [done|]. proj.
      assert (a ∈ l.*1) as Hal.
      { apply (chain_elem_fst (len (obj s)) i0). rewrite EC, fmap_app, fmap_app.
        apply elem_of_app. left. apply elem_of_app. right. left. }
      split_and!.
      + eapply order_list_frame; [done|done| | | |exact Ho]; intros x Hx;
          (destruct (decide (x = a)) as [->|];
           [rewrite lookup_insert_eq, Hna; done|by rewrite lookup_insert_ne]).
      + split_and!; [done|done|].
        intros i b' Hb'. destruct (decide (i = i0)) as [->|Hi'].
        * rewrite Hb in Hb'. injection Hb' as <-.
          rewrite chain_app. fold C1 C2.
          rewrite EC2, !fmap_app, <- app_assoc. simpl.
          eapply (lseg_unlink _ (mem s)); [exact Hs0|done| |].
          -- lk. by rewrite Hnp.
          -- intros x Hxa Hxp. by lk.
        * rewrite <- ENE by done.
          eapply lseg_frame; [|by apply Hch].
          intros x Hx. rewrite lookup_insert_ne; [done|]. intros <-.
          apply list_elem_of_fmap in Hx as ([a' kva'] & Ea & Hx).
          simpl in Ea. subst a'.
          pose proof (chain_bucket _ _ _ _ Hx) as Hbk. simpl in Hbk.
          apply chain_subset in Hx.
          assert ((a, kva) ∈ chain (len (obj s)) i0 l) as Hx'.
          { rewrite EC. apply elem_of_app. left. apply elem_of_app. right. left. }
          pose proof (chain_bucket _ _ _ _ Hx') as Hbk'. simpl in Hbk'.
          apply chain_subset in Hx'.
          rewrite (entries_functional l a kva kva' Hnd Hx' Hx) in Hbk'.
          congruence.
      + exists (buc (obj s)). by destruct (obj s).
      + intros q Hq. apply lookup_insert_ne. by intros <-.
  }
  intros _ se (Hoe & Hbte & [bs Hbs] & Hfre).
  eapply wp_mono.
  { apply (Del_spec se l1 p kv l2); [done|]. by rewrite Hbs. }
  intros _ s' (Ho' & Hc' & Hthis & Hhd & Htl & Hlen' & Hfr' & Hp' & Hbt').
  rewrite Hbs in Hthis, Hhd, Htl, Hlen', Hfr'. proj.
  split_and!; try done.
  - split_and!; [done|by apply Hbt'; right| |done].
    by eapply distinct_keys_remove.
  - intros q Hq. rewrite Hfr' by done. apply Hfre.
    intros Hql. apply Hq. by apply elem_of_cells.
Qed.

(** * Iteration *)

Lemma traverse_loop_spec l2 : ∀ fuel l1 s it,
  order_list (mem s) (obj s) (l1 ++ l2) →
  it_at it = default (tl (obj s)) (head l2.*1) →
  (length l2 ≤ fuel)%nat →
  traverse_loop fuel it s = Ok l2.*2 s.
Proof.
  induction l2 as [|[p kv] l2 IH]; intros fuel l1 s it Ho Hit Hf.
  - simpl in Hit.
    destruct fuel; simpl; unfold mbind, M_bind, bind, end_, get_this; simpl;
      unfold iterator_eq; simpl; by rewrite bool_decide_eq_true_2.
  - destruct fuel as [|fuel]; [simpl in Hf; lia|].
    simpl in Hit.
    pose proof (order_list_distinct _ _ _ Ho) as [_ Hne].
    assert (p ≠ tl (obj s)) as Hptl.
    { apply Hne. rewrite fmap_app. apply elem_of_app. right. left. }
    destruct (holds_lookup (mem s) (l1 ++ (p, kv) :: l2) p kv) as (n & Hn & Hv).
    { by destruct Ho as (_ & _ & _ & ?). }
    { apply elem_of_app. right. left. }
    pose proof (order_list_next _ _ _ _ _ _ Ho) as Hnext.
    rewrite Hn in Hnext. simpl in Hnext. injection Hnext as Hnext.
    cbn [traverse_loop].
    unfold iterator_star, iterator_incr, deref_val, end_.
    unfold mbind, M_bind, bind, mret, M_ret, ret, get_this, deref, iterator_eq.
    cbn [it_at].
    rewrite Hit, bool_decide_eq_false_2 by done.
    rewrite Hn, Hv.
    rewrite decide_False by done. rewrite Hn.
    rewrite (IH fuel (l1 ++ [(p, kv)]) s).
    + done.
    + by rewrite <- app_assoc.
    + by cbn [it_at].
    + simpl in Hf. lia.
Qed.

(** Iterating from [begin()] to [end()] yields the pairs of the Order
    List, in its order, and changes nothing. *)
Lemma traverse_spec s l :
  order_list (mem s) (obj s) l → traverse s = Ok l.*2 s.
Proof.
  intros Ho. unfold traverse, begin_, rounds.
  pose proof (order_list_hd_next _ _ _ Ho) as Hn.
  destruct (mem s !! hd (obj s)) as [nh|] eqn:Hh; [|done].
  simpl in Hn. injection Hn as Hn.
  unfold mbind, M_bind, bind, get_this, deref. rewrite Hh.
  cbn [mret M_ret ret].
  apply (traverse_loop_spec l _ []); [done|by cbn [it_at]|].
  pose proof (order_list_length _ _ _ Ho). lia.
Qed.

(** * Construction *)

Lemma bucket_table_empty h m :
  (0 < len m)%Z → buc m = replicate (Z.to_nat (len m)) nullptr →
  bucket_table h m [].
Proof.
  intros Hl Hb. split_and!; [done|by rewrite Hb, length_replicate|].
  intros i b Hi. rewrite Hb in Hi. apply lookup_replicate in Hi as [-> _]. done.
Qed.

Lemma order_list_empty (h : gmap nat Node) m nh nt :
  hd m ≠ nullptr → tl m ≠ nullptr → hd m ≠ tl m →
  h !! hd m = Some nh → h !! tl m = Some nt →
  time_nxt nh = tl m → time_lst nh = nullptr →
  time_nxt nt = nullptr → time_lst nt = hd m →
  order_list h m [].
Proof.
  intros Hh0 Ht0 Hne Hnh Hnt E1 E2 E3 E4.
  unfold order_list, cells. split; [|split; [|split]].
  - simpl. split; [done|]. split; [done|]. exists nh. split; [done|].
    rewrite E1. split; [done|]. split; [done|]. by exists nt.
  - change (reverse (hd m :: [].*1 ++ [tl m])) with [tl m; hd m].
    simpl. split; [done|]. split; [done|]. exists nt. split; [done|].
    rewrite E4. split; [done|]. split; [done|]. by exists nh.
  - simpl. apply NoDup_cons. split; [by intros ?%list_elem_of_singleton|].
    apply NoDup_singleton.
  - by apply Forall_nil.
Qed.

Lemma construct_spec addr h :
  wp construct (raw addr h) (λ _ s',
    Inv s' [] ∧ this (obj s') = addr ∧ len (obj s') = LEN ∧
    (∀ q n, h !! q = Some n → mem s' !! q = Some n) ∧
    h !! hd (obj s') = None ∧ h !! tl (obj s') = None).
Proof.
  unfold construct, raw.
  apply wp_bind, wp_set_this. apply wp_bind, wp_set_this.
  apply wp_bind, wp_new_Node. intros p1 Hp10 Hp1. proj.
  apply wp_bind, wp_set_this.
  apply wp_bind, wp_new_Node. intros p2 Hp20 Hp2. proj.
  assert (p1 ≠ p2) as Hne by (intros ->; by rewrite lookup_insert_eq in Hp2).
  rewrite lookup_insert_ne in Hp2 by done.
  apply wp_bind, wp_set_this. apply wp_bind, wp_set_this.
  apply wp_bind. eapply wp_assign; [proj; by lk|].
  eapply wp_assign; [proj; by lk|]. proj.
  split_and!; try done.
  - split_and!.
    + eapply order_list_empty; proj; try done; by lk.
    + by apply bucket_table_empty.
    + by intros i j x y ?.
    + split_and!; proj; [done|done|apply capacity_LEN].
  - intros q n Hq.
    assert (q ≠ p1) by (intros ->; congruence).
    assert (q ≠ p2) by (intros ->; congruence). by lk.
Qed.

(** * [ClearNode] and [clear] *)

Lemma shrinks_floor m : len m = LEN → shrinks m = false.
Proof. intros E. unfold shrinks. rewrite E. done. Qed.

Lemma ClearNode_loop_spec l : ∀ fuel s it,
  order_list (mem s) (obj s) l → counters (obj s) l → len (obj s) = LEN →
  it = default (tl (obj s)) (head l.*1) → (length l ≤ fuel)%nat →
  wp (ClearNode_loop fuel it) s (λ _ s',
    order_list (mem s') (obj s') [] ∧ counters (obj s') [] ∧
    this (obj s') = this (obj s) ∧ hd (obj s') = hd (obj s) ∧
    tl (obj s') = tl (obj s) ∧ len (obj s') = LEN ∧
    (∀ q, q ∉ cells (obj s) l → mem s' !! q = mem s !! q)).
Proof.
  induction l as [|[p kv] l IH]; intros fuel s it Ho Hc Hlen -> Hf.
  - simpl.
    assert (wp (m ← get_this; if decide (tl (obj s) = tl m) then mret ()
                               else diverge) s (λ _ s',
      order_list (mem s') (obj s') [] ∧ counters (obj s') [] ∧
      this (obj s') = this (obj s) ∧ hd (obj s') = hd (obj s) ∧
      tl (obj s') = tl (obj s) ∧ len (obj s') = LEN ∧
      (∀ q, q ∉ cells (obj s) [] → mem s' !! q = mem s !! q))) as H.
    { apply wp_bind, wp_get_this. rewrite decide_True by done. by apply wp_ret. }
    destruct fuel; cbn [ClearNode_loop].
    + exact H.
    + unfold wp in *. unfold mbind, M_bind, bind, get_this in *.
      rewrite decide_True in * by done. exact H.
  - destruct fuel as [|fuel]; [simpl in Hf; lia|].
    pose proof (order_list_distinct _ _ _ Ho) as [_ Hne].
    assert (p ≠ tl (obj s)) as Hptl by (apply Hne; left).
    destruct (holds_lookup (mem s) ((p, kv) :: l) p kv) as (n & Hn & Hv);
      [by destruct Ho as (_ & _ & _ & ?)|left|].
    pose proof (order_list_next _ _ [] _ _ _ Ho) as Hnext.
    rewrite Hn in Hnext. simpl in Hnext. injection Hnext as Hnext.
    cbn [ClearNode_loop]. simpl head. simpl default.
    apply wp_bind, wp_get_this. rewrite decide_False by done.
    apply wp_bind. eapply wp_deref; [done|].
    apply wp_bind. eapply wp_mono; [by apply (Del_spec s [] p kv l)|].
    intros _ s1 (Ho1 & Hc1 & Hthis & Hhd & Htl & Hlen1 & Hfr1 & Hp1 & _).
    simpl in Ho1, Hc1.
    unfold shrunk in Hlen1. rewrite shrinks_floor in Hlen1 by done.
    rewrite Hnext, <- Htl.
    eapply wp_mono.
    { apply (IH fuel s1); [done|done|congruence|done|simpl in Hf; lia]. }
    intros _ s' (Ho' & Hc' & Hthis' & Hhd' & Htl' & Hlen' & Hfr').
    split_and!; try congruence.
    intros q Hq. rewrite Hfr', Hfr1; [done|done|].
    intros Hin. apply Hq. unfold cells in *. rewrite Hhd, Htl in Hin.
    rewrite fmap_cons. simpl.
    apply elem_of_cons in Hin as [->|Hin]; [left|]. right. by right.
Qed.

Lemma ClearNode_spec s l :
  order_list (mem s) (obj s) l →
  load (obj s) = Z.of_nat (length l) → (load (obj s) ≤ max_load)%Z →
  wp ClearNode s (λ _ s',
    order_list (mem s') (obj s') [] ∧ counters (obj s') [] ∧
    this (obj s') = this (obj s) ∧ hd (obj s') = hd (obj s) ∧
    tl (obj s') = tl (obj s) ∧ len (obj s') = LEN ∧
    (∀ q, q ∉ cells (obj s) l → mem s' !! q = mem s !! q)).
Proof.
  intros Ho Hld Hmax. unfold ClearNode.
  apply wp_bind, wp_set_this. apply wp_bind, wp_get_this. proj.
  pose proof (order_list_hd_next _ _ _ Ho) as Hn.
  destruct (mem s !! hd (obj s)) as [nh|] eqn:Hh; [|done].
  simpl in Hn. injection Hn as Hn.
  apply wp_bind. eapply wp_deref; [done|].
  apply wp_bind, wp_rounds. rewrite Hn.
  eapply wp_mono.
  { apply (ClearNode_loop_spec l); proj.
    - by eapply order_list_obj; [| |exact Ho].
    - split_and!; proj; [done|done|apply capacity_LEN].
    - done.
    - done.
    - pose proof (order_list_length _ _ _ Ho). lia. }
  intros [] s' H. by proj.
Qed.

Lemma clear_spec s l :
  Inv s l →
  wp clear s (λ _ s',
    Inv s' [] ∧
    this (obj s') = this (obj s) ∧ hd (obj s') = hd (obj s) ∧
    tl (obj s') = tl (obj s) ∧ len (obj s') = LEN ∧
    (∀ q, q ∉ cells (obj s) l → mem s' !! q = mem s !! q)).
Proof.
  intros (Ho & _ & _ & Hld & Hmax & _). unfold clear.
  apply wp_bind. eapply wp_mono; [by apply (ClearNode_spec s l)|].
  intros _ s1 (Ho1 & Hc1 & Hthis & Hhd & Htl & Hlen & Hfr).
  apply wp_bind, wp_get_this. apply wp_set_this. proj.
  split_and!; try done.
  split_and!.
  - by eapply order_list_obj; [| |exact Ho1].
  - apply bucket_table_empty; proj; [by rewrite Hlen|done].
  - by intros i j x y ?.
  - destruct Hc1 as (? & ? & ?). by split_and!.
Qed.

(** * The public member functions *)

Lemma find_node_live h m l x p :
  order_list h m l → find_node x l = Some p →
  p ≠ tl m ∧ ∃ n kv, h !! p = Some n ∧ val n = Some kv ∧
                     (p, kv) ∈ l ∧ equal x kv.1 = true.
Proof.
  intros Ho Hf. apply find_node_Some in Hf as (kv & Hin & He).
  destruct (order_list_distinct _ _ _ Ho) as [_ Hne].
  split; [apply Hne; by apply (list_elem_of_fmap_2 fst) in Hin|].
  destruct (holds_lookup h l p kv) as (n & Hn & Hv);
    [by destruct Ho as (_ & _ & _ & ?)|done|]. eauto 10.
Qed.

Lemma insert_dup s l value p :
  Inv s l → find_node value.1 l = Some p →
  insert_ value s = Ok (mkIter (this (obj s)) p, false) s.
Proof.
  intros HI Hf. destruct (find_node_live _ _ _ _ _ (proj1 HI) Hf) as [Hp _].
  unfold insert_, mbind, M_bind, bind. rewrite (Find_spec _ _ _ HI), Hf.
  simpl. by rewrite decide_True.
Qed.

Lemma insert_new s l value :
  Inv s l → find_node value.1 l = None → (load (obj s) < max_load)%Z →
  wp (insert_ value) s (λ r s', ∃ p,
    r = (mkIter (this (obj s)) p, true) ∧
    Inv s' (l ++ [(p, value)]) ∧
    mem s !! p = None ∧ p ≠ nullptr ∧
    preserves s s' l ∧
    this (obj s') = this (obj s) ∧ hd (obj s') = hd (obj s) ∧
    tl (obj s') = tl (obj s) ∧
    len (obj s') = grown (obj s)).
Proof.
  intros HI Hf Hlt. unfold insert_.
  apply wp_bind. eapply wp_eq; [by apply Find_spec|]. rewrite Hf. simpl.
  apply wp_bind, wp_get_this. rewrite decide_False by (by intros ?).
  apply wp_bind. eapply wp_mono; [by apply Add_spec|].
  intros p s' H. apply wp_ret. by exists p.
Qed.

Lemma at_found s l key p :
  Inv s l → find_node key l = Some p → at_ key s = Ok p s.
Proof.
  intros HI Hf.
  destruct (find_node_live _ _ _ _ _ (proj1 HI) Hf) as [Hp (n & kv & Hn & Hv & _)].
  unfold at_, deref_val, mbind, M_bind, bind. rewrite (Find_spec _ _ _ HI), Hf.
  simpl. rewrite decide_False by done.
  unfold deref. by rewrite Hn, Hv.
Qed.

Lemma at_absent s l key :
  Inv s l → find_node key l = None →
  at_ key s = Throw index_out_of_bound s.
Proof.
  intros HI Hf.
  unfold at_, mbind, M_bind, bind. rewrite (Find_spec _ _ _ HI), Hf.
  simpl. by rewrite decide_True.
Qed.

Lemma operator_index_found s l key p :
  Inv s l → find_node key l = Some p → operator_index key s = Ok p s.
Proof.
  intros HI Hf.
  destruct (find_node_live _ _ _ _ _ (proj1 HI) Hf) as [Hp (n & kv & Hn & Hv & _)].
  unfold operator_index, deref_val, mbind, M_bind, bind.
  rewrite (Find_spec _ _ _ HI), Hf.
  simpl. rewrite decide_False by done.
  unfold deref. by rewrite Hn, Hv.
Qed.

Lemma operator_index_absent s l key :
  Inv s l → find_node key l = None → (load (obj s) < max_load)%Z →
  wp (operator_index key) s (λ p s',
    Inv s' (l ++ [(p, (key, T_default))]) ∧
    mem s !! p = None ∧ p ≠ nullptr ∧
    preserves s s' l ∧
    this (obj s') = this (obj s) ∧ hd (obj s') = hd (obj s) ∧
    tl (obj s') = tl (obj s) ∧
    len (obj s') = grown (obj s)).
Proof.
  intros HI Hf Hlt. unfold operator_index.
  apply wp_bind. eapply wp_eq; [by apply Find_spec|]. rewrite Hf. simpl.
  apply wp_bind, wp_get_this. rewrite decide_True by done.
  apply wp_bind. eapply wp_mono; [by apply (Add_spec (key, T_default))|].
  intros p s' H.
  destruct H as (HI' & Hrest).
  destruct (holds_lookup (mem s') (l ++ [(p, (key, T_default))]) p (key, T_default))
    as (n & Hn & Hv).
  { by destruct HI' as ((_ & _ & _ & ?) & _). }
  { apply elem_of_app. right. left. }
  apply wp_bind. eapply wp_deref_val; [done..|]. by apply wp_ret.
Qed.

Lemma find_found s l key :
  Inv s l →
  find key s = Ok (mkIter (this (obj s)) (default (tl (obj s)) (find_node key l))) s.
Proof.
  intros HI. unfold find, mbind, M_bind, bind. by rewrite (Find_spec _ _ _ HI).
Qed.

Lemma count_spec s l key :
  Inv s l →
  count key s = Ok (match find_node key l with Some _ => 1 | None => 0 end)%Z s.
Proof.
  intros HI. unfold count, mbind, M_bind, bind. rewrite (Find_spec _ _ _ HI).
  simpl. unfold mret, M_ret, ret. f_equal.
  destruct (find_node key l) as [p|] eqn:Hf; simpl.
  - destruct (find_node_live _ _ _ _ _ (proj1 HI) Hf) as [Hp _].
    by rewrite decide_True.
  - by rewrite decide_False by (by intros ?).
Qed.

(** * Writing through a reference *)

Lemma distinct_keys_ext (l l' : list entry) :
  (λ e : entry, e.2.1) <$> l' = (λ e : entry, e.2.1) <$> l →
  distinct_keys l → distinct_keys l'.
Proof.
  intros E Hd i j x y Hi Hj He.
  assert (∀ i x, l' !! i = Some x → ∃ x0, l !! i = Some x0 ∧ x0.2.1 = x.2.1) as H.
  { intros i' x' Hi'.
    assert (((λ e : entry, e.2.1) <$> l') !! i' = Some x'.2.1) as H'
      by (by rewrite list_lookup_fmap, Hi').
    rewrite E, list_lookup_fmap in H'.
    destruct (l !! i') as [x0|]; [|done]. simpl in H'. injection H' as H'. eauto. }
  destruct (H _ _ Hi) as (x0 & Hi0 & Ex), (H _ _ Hj) as (y0 & Hj0 & Ey).
  apply (Hd i j x0 y0); [done|done|]. by rewrite Ex, Ey.
Qed.

Lemma ref_write_spec s l1 p k v0 l2 v :
  Inv s (l1 ++ (p, (k, v0)) :: l2) →
  wp (ref_write p v) s (λ _ s',
    Inv s' (l1 ++ (p, (k, v)) :: l2) ∧ obj s' = obj s ∧
    (∀ q, q ≠ p → mem s' !! q = mem s !! q)).
Proof.
  intros (Ho & (Hlen & Hbl & Hch) & Hd & Hld & Hmax & Hcap).
  destruct (holds_lookup (mem s) (l1 ++ (p, (k, v0)) :: l2) p (k, v0))
    as (n & Hn & Hv).
  { by destruct Ho as (_ & _ & _ & ?). }
  { apply elem_of_app. right. left. }
  unfold ref_write. apply wp_bind. eapply wp_deref_val; [done..|].
  eapply wp_assign; [done|]. proj.
  assert (∀ (f : Node → ptr) x,
            (∀ n', f (set_second v n') = f n') →
            f <$> <[p:=set_second v n]> (mem s) !! x = f <$> mem s !! x) as Hfld.
  { intros f x Hf. destruct (decide (x = p)) as [->|].
    - by rewrite lookup_insert_eq, Hn; simpl; rewrite Hf.
    - by rewrite lookup_insert_ne. }
  assert (cells (obj s) (l1 ++ (p, (k, v)) :: l2) =
          cells (obj s) (l1 ++ (p, (k, v0)) :: l2)) as Ec.
  { unfold cells. by rewrite !fmap_app, !fmap_cons. }
  split_and!; [|done|intros q Hq; by apply lookup_insert_ne].
  split_and!; proj.
  - destruct Ho as (Hf & Hb & Hnd & Hh).
    unfold order_list. rewrite Ec. split_and!; [| |done|].
    + eapply lseg_frame; [|exact Hf]. intros x _. by apply Hfld.
    + eapply lseg_frame; [|exact Hb]. intros x _. by apply Hfld.
    + unfold holds in *. rewrite Forall_app in *. destruct Hh as [H1 H2].
      apply NoDup_cons in Hnd as [_ Hnd]. apply NoDup_app in Hnd as [Hnd _].
      rewrite fmap_app, fmap_cons in Hnd. simpl in Hnd.
      apply NoDup_app in Hnd as (_ & Hd1 & Hnd).
      apply NoDup_cons in Hnd as [Hp2 _].
      split; [|apply Forall_cons; split].
      * rewrite Forall_forall in *. intros e He. cbv beta.
        rewrite lookup_insert_ne; [by apply H1|].
        intros E. eapply Hd1; [|left]. rewrite E. by apply list_elem_of_fmap_2.
      * simpl. rewrite lookup_insert_eq. simpl. by rewrite Hv.
      * apply Forall_inv_tail in H2. rewrite Forall_forall in *. intros e He.
        cbv beta. rewrite lookup_insert_ne; [by apply H2|].
        intros E. apply Hp2. rewrite E. by apply list_elem_of_fmap_2.
  - split_and!; [done|done|]. intros i b Hb.
    assert ((chain (len (obj s)) i (l1 ++ (p, (k, v)) :: l2)).*1 =
            (chain (len (obj s)) i (l1 ++ (p, (k, v0)) :: l2)).*1) as ->.
    { rewrite !chain_app, !chain_cons, !fmap_app. simpl.
      by destruct (decide _). }
    eapply lseg_frame; [|by apply Hch]. intros x _. by apply Hfld.
  - eapply distinct_keys_ext; [|exact Hd]. by rewrite !fmap_app, !fmap_cons.
  - unfold counters. rewrite length_app in *. simpl in *. done.
Qed.

(** * Copy construction *)

Lemma order_list_preserved h h' m l :
  (∀ q n, h !! q = Some n → q ∈ cells m l → h' !! q = Some n) →
  order_list h m l → order_list h' m l.
Proof.
  intros Hp Ho.
  assert (∀ x, x ∈ cells m l → h' !! x = h !! x) as E.
  { intros x Hx. destruct (order_list_alloc _ _ _ _ Ho Hx) as [_ [n Hn]].
    rewrite Hn. by apply Hp. }
  eapply order_list_frame; [done|done| | | |exact Ho]; intros x Hx;
    rewrite E; try done. by apply elem_of_cells.
Qed.

Lemma find_node_fresh (l1 l2 lB : list entry) p kv :
  distinct_keys (l1 ++ (p, kv) :: l2) → lB.*2 = l1.*2 →
  find_node kv.1 lB = None.
Proof.
  intros Hd E. apply find_node_None. intros e He.
  destruct (equal kv.1 e.2.1) eqn:Heq; [exfalso|done].
  apply (list_elem_of_fmap_2 snd) in He. rewrite E in He.
  apply list_elem_of_fmap in He as (e' & Ee & He').
  apply list_elem_of_lookup in He' as [i Hi].
  pose proof (lookup_lt_Some _ _ _ Hi) as Hlt.
  assert ((l1 ++ (p, kv) :: l2) !! i = Some e') as Hi'
    by (by rewrite lookup_app_l).
  assert ((l1 ++ (p, kv) :: l2) !! length l1 = Some (p, kv)) as Hp
    by (by rewrite list_lookup_middle).
  assert (length l1 = i); [|lia].
  apply (Hd _ _ _ _ Hp Hi'). simpl. by rewrite <- Ee.
Qed.

Lemma copy_loop_spec l2 : ∀ fuel l1 lB s it (A : linked_hashmap),
  order_list (mem s) A (l1 ++ l2) →
  distinct_keys (l1 ++ l2) →
  (Z.of_nat (length (l1 ++ l2)) ≤ max_load)%Z →
  Inv s lB → lB.*2 = l1.*2 →
  (∀ q, q ∈ cells A (l1 ++ l2) → q ∉ cells (obj s) lB) →
  it = default (tl A) (head l2.*1) → (length l2 ≤ fuel)%nat →
  wp (copy_loop fuel A it) s (λ _ s', ∃ lB',
    Inv s' lB' ∧ lB'.*2 = (l1 ++ l2).*2 ∧
    this (obj s') = this (obj s) ∧
    (∀ q n, mem s !! q = Some n → q ∉ cells (obj s) lB → mem s' !! q = Some n) ∧
    (∀ q, q ∈ cells (obj s') lB' → q ∈ cells (obj s) lB ∨ mem s !! q = None)).
Proof.
  induction l2 as [|[p kv] l2 IH];
    intros fuel l1 lB s it A HoA HdA HlA HI EB Hdisj -> Hf.
  - simpl. rewrite app_nil_r in *.
    assert (wp (mret ()) s (λ _ s', ∃ lB',
      Inv s' lB' ∧ lB'.*2 = l1.*2 ∧ this (obj s') = this (obj s) ∧
      (∀ q n, mem s !! q = Some n → q ∉ cells (obj s) lB → mem s' !! q = Some n) ∧
      (∀ q, q ∈ cells (obj s') lB' → q ∈ cells (obj s) lB ∨ mem s !! q = None))) as H.
    { apply wp_ret. exists lB. split_and!; try done. by left. }
    destruct fuel; cbn [copy_loop]; by rewrite decide_True.
  - destruct fuel as [|fuel]; [simpl in Hf; lia|].
    pose proof (order_list_distinct _ _ _ HoA) as [_ Hne].
    assert (p ∈ (l1 ++ (p, kv) :: l2).*1) as Hpin
      by (rewrite fmap_app; apply elem_of_app; right; left).
    assert (p ≠ tl A) as Hptl by (by apply Hne).
    destruct (holds_lookup (mem s) (l1 ++ (p, kv) :: l2) p kv) as (n & Hn & Hv).
    { by destruct HoA as (_ & _ & _ & ?). }
    { apply elem_of_app. right. left. }
    pose proof (order_list_next _ _ _ _ _ _ HoA) as Hnext.
    rewrite Hn in Hnext. simpl in Hnext. injection Hnext as Hnext.
    pose proof HI as (_ & _ & _ & HldB & _).
    assert (length lB = length l1) as HlenB.
    { by rewrite <- (length_fmap snd lB), EB, length_fmap. }
    rewrite length_app in HlA. simpl in HlA.
    cbn [copy_loop]. simpl head. simpl default.
    rewrite decide_False by done.
    apply wp_bind. eapply wp_deref_val; [done..|].
    apply wp_bind. eapply wp_mono.
    { apply (Add_spec kv s lB); [done| |lia].
      by eapply find_node_fresh. }
    intros p' s1 (HI1 & Hp' & Hp'0 & Hpres & Hthis & Hhd & Htl & _).
    assert (∀ q n0, mem s !! q = Some n0 →
                    q ∈ cells A (l1 ++ (p, kv) :: l2) → mem s1 !! q = Some n0) as HA1.
    { intros q n0 Hq Hin. apply Hpres; [done|]. by apply Hdisj. }
    assert (cells (obj s1) (lB ++ [(p', kv)]) =
            hd (obj s) :: (lB.*1 ++ [p']) ++ [tl (obj s)]) as Ec1.
    { unfold cells. by rewrite Hhd, Htl, fmap_app. }
    assert (∀ q, q ∈ cells (obj s1) (lB ++ [(p', kv)]) →
                 q ∈ cells (obj s) lB ∨ q = p') as Hc1.
    { intros q. rewrite Ec1. unfold cells.
      repeat (rewrite elem_of_cons || rewrite elem_of_app || rewrite elem_of_nil).
      tauto. }
    apply wp_bind. eapply wp_deref; [apply HA1; [done|by apply elem_of_cells]|].
    rewrite Hnext.
    eapply wp_mono.
    { apply (IH fuel (l1 ++ [(p, kv)]) (lB ++ [(p', kv)]) s1).
      - rewrite <- app_assoc. simpl. by eapply order_list_preserved.
      - by rewrite <- app_assoc.
      - rewrite <- app_assoc. simpl. rewrite length_app. simpl. lia.
      - done.
      - by rewrite !fmap_app, EB.
      - rewrite <- app_assoc. simpl. intros q Hq Hin.
        destruct (Hc1 _ Hin) as [Hin'| ->].
        + by apply (Hdisj q).
        + destruct (order_list_alloc _ _ _ _ HoA Hq) as [_ [? ?]]. congruence.
      - done.
      - simpl in Hf. lia. }
    intros [] s' (lB' & HI' & EB' & Hthis' & Hfr' & Hc').
    exists lB'. rewrite <- app_assoc in EB'. simpl in EB'.
    split_and!; [done|done|congruence| |].
    + intros q n0 Hq Hqc. apply Hfr'; [by apply Hpres|].
      intros Hin. destruct (Hc1 _ Hin) as [Hin'| ->]; [done|congruence].
    + intros q Hq. destruct (Hc' _ Hq) as [Hin|Hnone].
      * destruct (Hc1 _ Hin) as [?| ->]; [by left|by right].
      * destruct (decide (q ∈ cells (obj s) lB)) as [?|Hnin]; [by left|right].
        destruct (mem s !! q) as [n0|] eqn:Hq0; [|done].
        rewrite (Hpres _ _ Hq0 Hnin) in Hnone. done.
Qed.

Lemma copy_construct_spec addr h (A : linked_hashmap) lA :
  Inv (mkState h A) lA →
  wp (copy_construct A) (raw addr h) (λ _ s', ∃ lB,
    Inv s' lB ∧ lB.*2 = lA.*2 ∧ this (obj s') = addr ∧
    (∀ q n, h !! q = Some n → mem s' !! q = Some n) ∧
    (∀ q, q ∈ cells (obj s') lB → h !! q = None)).
Proof.
  intros (HoA & (HlenA & _) & HdA & HldA & HmaxA & HcapA). proj.
  unfold copy_construct, raw.
  apply wp_bind, wp_set_this. apply wp_bind, wp_set_this.
  apply wp_bind, wp_new_Node. intros p1 Hp10 Hp1. proj.
  apply wp_bind, wp_set_this.
  apply wp_bind, wp_new_Node. intros p2 Hp20 Hp2. proj.
  assert (p1 ≠ p2) as Hne by (intros ->; by rewrite lookup_insert_eq in Hp2).
  rewrite lookup_insert_ne in Hp2 by done.
  apply wp_bind, wp_set_this. apply wp_bind, wp_set_this.
  apply wp_bind. eapply wp_assign; [proj; by lk|].
  apply wp_bind. eapply wp_assign; [proj; by lk|]. proj.
  set (h4 := <[p2 := _]> _).
  assert (∀ q n, h !! q = Some n → h4 !! q = Some n) as Hh4.
  { intros q n Hq. unfold h4.
    assert (q ≠ p1) by (intros ->; congruence).
    assert (q ≠ p2) by (intros ->; congruence). by lk. }
  pose proof (order_list_hd_next _ _ _ HoA) as Hn.
  destruct (h !! hd A) as [nh|] eqn:Hh; [|done].
  simpl in Hn. injection Hn as Hn.
  apply wp_bind. eapply wp_deref; [proj; by apply Hh4|].
  apply wp_bind, wp_rounds. proj. rewrite Hn.
  eapply wp_mono.
  { apply (copy_loop_spec lA _ [] []); proj.
    - eapply order_list_preserved; [|exact HoA]. intros q n Hq _. by apply Hh4.
    - done.
    - change ([] ++ lA) with lA. by rewrite <- HldA.
    - split_and!; proj.
      + eapply order_list_empty; proj; try done; unfold h4; by lk.
      + by apply bucket_table_empty.
      + by intros i j x y ?.
      + by split_and!.
    - done.
    - intros q Hq. simpl.
      destruct (order_list_alloc _ _ _ _ HoA Hq) as [_ [n Hq']].
      unfold cells. simpl. rewrite !elem_of_cons, elem_of_nil.
      intros [->|[->|[]]]; congruence.
    - done.
    - pose proof (order_list_length _ _ _ HoA) as Hl.
      assert (size h ≤ size h4)%nat; [|lia].
      rewrite <- !size_dom. apply subseteq_size. intros q Hq.
      apply elem_of_dom in Hq as [n Hq]. apply elem_of_dom.
      exists n. by apply Hh4. }
  intros [] s' (lB & HI' & EB & Hthis & Hfr & Hc). proj.
  exists lB. split_and!; [done|done|done| |].
  - intros q n Hq. apply Hfr; [by apply Hh4|].
    unfold cells. simpl. rewrite !elem_of_cons, elem_of_nil.
    intros [->|[->|[]]]; congruence.
  - intros q Hq. destruct (Hc _ Hq) as [Hin|Hnone].
    + unfold cells in Hin. simpl in Hin.
      rewrite !elem_of_cons, elem_of_nil in Hin.
      destruct Hin as [->|[->|[]]]; done.
    + destruct (h !! q) as [n|] eqn:Hq0; [|done].
      by rewrite (Hh4 _ _ Hq0) in Hnone.
Qed.


(** * Client programs and their reference model *)

Lemma find_node_has_key k l :
  find_node k l = None ↔ has_key k l.*2 = false.
Proof.
  rewrite find_node_None. unfold has_key. induction l as [|e l IH]; simpl.
  - split; [done|]. by intros _ e ?%elem_of_nil.
  - rewrite orb_false_iff, <- IH. split.
    + intros H. split; [apply H; left|]. intros e' He'. apply H. by right.
    + intros [H1 H2] e' [->|He']%elem_of_cons; [done|by apply H2].
Qed.

Lemma find_node_split k l p :
  find_node k l = Some p →
  ∃ l1 kv l2, l = l1 ++ (p, kv) :: l2 ∧ equal k kv.1 = true ∧
              has_key k l1.*2 = false.
Proof.
  unfold find_node, has_key. induction l as [|[q kv] l IH]; [done|].
  rewrite filter_cons. simpl. destruct (decide _) as [He|He].
  - simpl. intros [= ->]. by exists [], kv, l.
  - intros Hf. destruct (IH Hf) as (l1 & kv' & l2 & -> & Hk & Hn).
    exists ((q, kv) :: l1), kv', l2. split_and!; [done|done|].
    simpl in *. destruct (equal k kv.1) eqn:E; [by destruct He|]. done.
Qed.

Lemma remove_key_middle k (L1 L2 : list value_type) kv :
  has_key k L1 = false → equal k kv.1 = true →
  remove_key k (L1 ++ kv :: L2) = L1 ++ L2.
Proof.
  unfold has_key. induction L1 as [|e L1 IH]; simpl; intros Hn Hk.
  - by rewrite Hk.
  - apply orb_false_iff in Hn as [-> Hn]. by rewrite IH.
Qed.

Lemma remove_key_absent k (L : list value_type) :
  has_key k L = false → remove_key k L = L.
Proof.
  unfold has_key. induction L as [|e L IH]; simpl; [done|].
  intros [E1 E2]%orb_false_iff. rewrite E1. f_equal. by apply IH.
Qed.

Lemma update_key_middle k v (L1 L2 : list value_type) kv :
  has_key k L1 = false → equal k kv.1 = true →
  update_key k v (L1 ++ kv :: L2) = L1 ++ (kv.1, v) :: L2.
Proof.
  unfold has_key. induction L1 as [|e L1 IH]; simpl; intros Hn Hk.
  - by rewrite Hk.
  - apply orb_false_iff in Hn as [-> Hn]. by rewrite IH.
Qed.

Lemma has_key_middle k (L1 L2 : list value_type) kv :
  equal k kv.1 = true → has_key k (L1 ++ kv :: L2) = true.
Proof.
  intros Hk. unfold has_key. rewrite existsb_app. simpl. rewrite Hk.
  by rewrite orb_true_r.
Qed.

Lemma footprint_refl s l : footprint s s l l.
Proof. split_and!; [by intros q n ? _|by left|done]. Qed.

Lemma footprint_trans s s1 s2 l l1 l2 :
  footprint s s1 l l1 → footprint s1 s2 l1 l2 → footprint s s2 l l2.
Proof.
  intros (Hp1 & Hc1 & Ht1) (Hp2 & Hc2 & Ht2). split_and!; [| |congruence].
  - intros q n Hq Hqc. apply Hp2; [by apply Hp1|].
    intros Hin. destruct (Hc1 _ Hin); [done|congruence].
  - intros q Hq. destruct (Hc2 _ Hq) as [Hin|Hnone]; [by apply Hc1|].
    destruct (decide (q ∈ cells (obj s) l)) as [?|Hnin]; [by left|right].
    destruct (mem s !! q) as [n|] eqn:Hq0; [|done].
    by rewrite (Hp1 _ _ Hq0 Hnin) in Hnone.
Qed.

Lemma footprint_same_cells s s' l l' :
  hd (obj s') = hd (obj s) → tl (obj s') = tl (obj s) →
  this (obj s') = this (obj s) →
  (∀ q, q ∈ l'.*1 → q ∈ l.*1) →
  (∀ q, q ∉ cells (obj s) l → mem s' !! q = mem s !! q) →
  footprint s s' l l'.
Proof.
  intros Hhd Htl Hthis Hsub Hfr. split_and!; [| |done].
  - intros q n Hq Hqc. by rewrite Hfr.
  - intros q Hq. left. unfold cells in *. rewrite Hhd, Htl in Hq.
    revert Hq.
    repeat (rewrite elem_of_cons || rewrite elem_of_app || rewrite elem_of_nil).
    intros [?|[?|?]]; auto.
Qed.

Lemma exec_spec o s l :
  Inv s l → (load (obj s) < max_load)%Z →
  wp (exec o) s (λ _ s', ∃ l',
    Inv s' l' ∧ l'.*2 = model_step l.*2 o ∧
    (length l' ≤ S (length l))%nat ∧
    footprint s s' l l').
Proof.
  intros HI Hlt. destruct o as [value|key|key v|]; simpl.
  - (* insert *)
    destruct (find_node value.1 l) as [p|] eqn:Hf.
    + apply wp_bind. eapply wp_eq; [by eapply insert_dup|]. apply wp_ret.
      exists l. split_and!; [done| |lia|apply footprint_refl].
      assert (has_key value.1 l.*2 = true) as ->; [|done].
      destruct (has_key value.1 l.*2) eqn:E; [done|].
      apply find_node_has_key in E. congruence.
    + apply wp_bind. eapply wp_mono; [by apply insert_new|].
      intros r s' (p & -> & HI' & Hp & Hp0 & Hpres & Hthis & Hhd & Htl & _).
      apply wp_ret. exists (l ++ [(p, value)]).
      apply find_node_has_key in Hf. rewrite Hf.
      split_and!; [done|by rewrite fmap_app|rewrite length_app; simpl; lia|].
      split_and!; [done| |done].
      intros q. unfold cells. rewrite Hhd, Htl, fmap_app. simpl.
      repeat (rewrite elem_of_cons || rewrite elem_of_app || rewrite elem_of_nil).
      intros [?|[[?|[->|[]]]|[?|[]]]]; auto.
  - (* erase *)
    apply wp_bind. eapply wp_eq; [by eapply find_found|].
    apply wp_bind. unfold end_. apply wp_bind, wp_get_this, wp_ret.
    unfold iterator_eq. cbn [it_at].
    destruct (find_node key l) as [p|] eqn:Hf; simpl.
    + destruct (find_node_live _ _ _ _ _ (proj1 HI) Hf) as [Hp _].
      rewrite bool_decide_eq_false_2 by done.
      destruct (find_node_split _ _ _ Hf) as (l1 & kv & l2 & -> & Hk & Hn).
      eapply wp_mono; [by apply erase_spec|].
      intros [] s' (HI' & Hthis & Hhd & Htl & _ & Hfr & _).
      exists (l1 ++ l2). split_and!.
      * done.
      * rewrite !fmap_app, fmap_cons. simpl. by rewrite remove_key_middle.
      * rewrite !length_app. simpl. lia.
      * apply footprint_same_cells; try done.
        intros q. rewrite !fmap_app, fmap_cons.
        repeat (rewrite elem_of_cons || rewrite elem_of_app). tauto.
    + rewrite bool_decide_eq_true_2 by done. apply wp_ret.
      exists l. split_and!; [done| |lia|apply footprint_refl].
      apply find_node_has_key in Hf. simpl. by rewrite remove_key_absent.
  - (* assign *)
    destruct (find_node key l) as [p|] eqn:Hf.
    + apply wp_bind. eapply wp_eq; [by eapply operator_index_found|].
      destruct (find_node_split _ _ _ Hf) as (l1 & [k0 v0] & l2 & -> & Hk & Hn).
      eapply wp_mono; [by apply (ref_write_spec s l1 p k0 v0 l2 v)|].
      intros [] s' (HI' & Hobj & Hfr).
      exists (l1 ++ (p, (k0, v)) :: l2). split_and!.
      * done.
      * rewrite !fmap_app, !fmap_cons. simpl.
        rewrite has_key_middle by done. by rewrite update_key_middle.
      * rewrite !length_app. simpl. lia.
      * apply footprint_same_cells; try (by rewrite Hobj).
        -- intros q. by rewrite !fmap_app, !fmap_cons.
        -- intros q Hq. apply Hfr. intros ->. apply Hq.
           apply elem_of_cells. rewrite fmap_app, fmap_cons.
           apply elem_of_app. right. left.
    + apply wp_bind. eapply wp_mono; [by apply operator_index_absent|].
      intros p s1 (HI1 & Hp & Hp0 & Hpres & Hthis & Hhd & Htl & _).
      eapply wp_mono; [by apply (ref_write_spec s1 l p key T_default [] v)|].
      intros [] s' (HI' & Hobj & Hfr).
      exists (l ++ [(p, (key, v))]).
      apply find_node_has_key in Hf. rewrite Hf.
      split_and!; [done|by rewrite fmap_app|rewrite length_app; simpl; lia|].
      split_and!; [|rewrite Hobj|by rewrite Hobj].
      * intros q n Hq Hqc. rewrite Hfr; [by apply Hpres|].
        intros ->. congruence.
      * intros q. unfold cells. rewrite Hhd, Htl, fmap_app. simpl.
        repeat (rewrite elem_of_cons || rewrite elem_of_app || rewrite elem_of_nil).
        intros [?|[[?|[->|[]]]|[?|[]]]]; auto.
  - (* clear *)
    eapply wp_mono; [by apply clear_spec|].
    intros [] s' (HI' & Hthis & Hhd & Htl & _ & Hfr).
    exists []. split_and!; [done|done|simpl; lia|].
    apply footprint_same_cells; try done. by intros q ?%elem_of_nil.
Qed.

Lemma wp_inv {A} (x : M A) s (Q : A → state → Prop) a s' :
  wp x s Q → x s = Ok a s' → Q a s'.
Proof. unfold wp. intros H E. by rewrite E in H. Qed.

Lemma run_spec ops : ∀ s l,
  Inv s l → (load (obj s) + Z.of_nat (length ops) ≤ max_load)%Z →
  wp (run ops) s (λ _ s', ∃ l',
    Inv s' l' ∧ l'.*2 = fold_left model_step ops l.*2 ∧
    footprint s s' l l').
Proof.
  induction ops as [|o ops IH]; intros s l HI Hb; simpl.
  - apply wp_ret. exists l. split_and!; [done|done|apply footprint_refl].
  - simpl in Hb. apply wp_bind.
    eapply wp_mono; [apply (exec_spec o s l); [done|lia]|].
    intros [] s1 (l1 & HI1 & E1 & Hl1 & Hf1).
    eapply wp_mono.
    { apply (IH s1 l1); [done|].
      destruct HI as (_ & _ & _ & Hld & _), HI1 as (_ & _ & _ & Hld1 & _).
      lia. }
    intros [] s2 (l2 & HI2 & E2 & Hf2).
    exists l2. split_and!; [done|by rewrite E2, E1|by eapply footprint_trans].
Qed.

(** * Reachable states *)

Lemma reachable_Inv s : reachable s → ∃ l, Inv s l.
Proof.
  induction 1 as [addr h s Hc|addr h A s HA [lA IH] Hc|o s s' Hs [l IH] Hlt He].
  - pose proof (wp_inv _ _ _ _ _ (construct_spec addr h) Hc) as (HI & _).
    by exists [].
  - pose proof (wp_inv _ _ _ _ _ (copy_construct_spec addr h A lA IH) Hc)
      as (lB & HI & _). by exists lB.
  - pose proof (wp_inv _ _ _ _ _ (exec_spec o s l IH Hlt) He)
      as (l' & HI & _). by exists l'.
Qed.

Lemma Inv_traverse s l L :
  Inv s l → traverse s = Ok L s → L = l.*2.
Proof.
  intros (Ho & _) Ht. rewrite (traverse_spec _ _ Ho) in Ht. by injection Ht.
Qed.

(** * The dual-structure invariant, in the words of the specification *)

Lemma lseg_hops f h l : ∀ p x,
  lseg f h p l nullptr → (hops f h p x ↔ x ∈ l ∨ x = nullptr).
Proof.
  induction l as [|y l IH]; intros p x Hs; simpl in Hs.
  - subst p. split.
    + intros H. right. by inversion H.
    + intros [?%elem_of_nil| ->]; [done|constructor].
  - destruct Hs as (-> & Hy & n & Hn & Hs). split.
    + intros H. inversion H as [|? n' ? _ Hn' H']; subst.
      * left. left.
      * rewrite Hn in Hn'. injection Hn' as <-.
        apply (IH _ x Hs) in H' as [?| ->]; [left; by right|by right].
    + intros [[->|Hin]%elem_of_cons| ->].
      * constructor.
      * eapply hops_next; [done|done|]. apply (IH _ x Hs). by left.
      * eapply hops_next; [done|done|]. apply (IH _ nullptr Hs). by right.
Qed.

Lemma live_iff h m l p :
  order_list h m l → (live (mkState h m) p ↔ p ∈ l.*1).
Proof.
  intros Ho. pose proof Ho as (Hf & _).
  pose proof (order_list_distinct _ _ _ Ho) as [_ Hne].
  unfold live. proj. rewrite (lseg_hops _ _ _ _ p Hf). unfold cells.
  rewrite elem_of_cons, elem_of_app, list_elem_of_singleton. split.
  - intros ([[?|[?|?]]|?] & ? & ? & ?); done.
  - intros Hin. destruct (Hne _ Hin).
    destruct (order_list_alloc _ _ _ p Ho (elem_of_cells _ _ _ Hin)). tauto.
Qed.

Lemma dual_structure_intro s l :
  order_list (mem s) (obj s) l → bucket_table (mem s) (obj s) l →
  dual_structure s.
Proof.
  intros Ho (Hlen & Hbl & Hch). destruct s as [h m]. proj. split.
  - intros p Hp. apply (live_iff _ _ _ _ Ho) in Hp.
    apply list_elem_of_fmap in Hp as ([p' kv] & -> & Hin). simpl.
    destruct (holds_lookup h l p' kv) as (n & Hn & Hv);
      [by destruct Ho as (_ & _ & _ & ?)|done|].
    assert (bucket_of (len m) kv.1 < length (buc m))%nat as Hi
      by (rewrite Hbl; by apply bucket_of_lt).
    destruct (lookup_lt_is_Some_2 _ _ Hi) as [b Hb].
    exists n, kv, b. split_and!; [done|done|done|].
    apply (lseg_hops _ _ _ _ p' (Hch _ _ Hb)). left.
    apply (list_elem_of_fmap_2 fst (chain _ _ _) (p', kv)).
    unfold chain. apply elem_of_reverse, list_elem_of_filter. done.
  - intros i b p Hb Hh Hp0. apply (live_iff _ _ _ _ Ho).
    apply (lseg_hops _ _ _ _ p (Hch _ _ Hb)) in Hh as [Hin|?]; [|done].
    by eapply chain_elem_fst.
Qed.

Lemma Inv_dual_structure s l : Inv s l → dual_structure s.
Proof. intros (Ho & Hbt & _). by eapply dual_structure_intro. Qed.

(** * Computations that throw nothing *)

Lemma nothrow_ret {A} (a : A) : nothrow (mret a).
Proof. by intros s e s'. Qed.

Lemma nothrow_bind {A B} (x : M A) (f : A → M B) :
  nothrow x → (∀ a, nothrow (f a)) → nothrow (x ≫= f).
Proof.
  intros Hx Hf s e s'. unfold mbind, M_bind, bind.
  destruct (x s) as [a s1|e1 s1| |] eqn:E; [apply Hf| |done|done].
  by destruct (Hx s e1 s1).
Qed.

Lemma nothrow_undefined {A} : nothrow (@undefined A).
Proof. by intros s e s'. Qed.

Lemma nothrow_diverge {A} : nothrow (@diverge A).
Proof. by intros s e s'. Qed.

Lemma nothrow_deref p : nothrow (deref p).
Proof. intros s e s'. unfold deref. by destruct (mem s !! p). Qed.

Lemma nothrow_assign p f : nothrow (assign p f).
Proof. intros s e s'. unfold assign. by destruct (mem s !! p). Qed.

Lemma nothrow_delete_Node p : nothrow (delete_Node p).
Proof. intros s e s'. unfold delete_Node. by destruct (mem s !! p). Qed.

Lemma nothrow_get_this : nothrow get_this.
Proof. by intros s e s'. Qed.

Lemma nothrow_set_this f : nothrow (set_this f).
Proof. by intros s e s'. Qed.

Lemma nothrow_rounds : nothrow rounds.
Proof. by intros s e s'. Qed.

Ltac nothrow_step :=
  first
    [ apply nothrow_ret | apply nothrow_undefined | apply nothrow_diverge
    | apply nothrow_deref | apply nothrow_assign | apply nothrow_delete_Node
    | apply nothrow_get_this | apply nothrow_set_this | apply nothrow_rounds
    | apply nothrow_bind; [|intros ?]
    | match goal with
      | |- nothrow (match ?x with _ => _ end) => destruct x
      end ].

Lemma nothrow_deref_val p : nothrow (deref_val p).
Proof. unfold deref_val. repeat nothrow_step. Qed.

Lemma nothrow_hash_index x : nothrow (hash_index x).
Proof. unfold hash_index. repeat nothrow_step. Qed.

Lemma nothrow_buc_read i : nothrow (buc_read i).
Proof. unfold buc_read. repeat nothrow_step. Qed.

Lemma nothrow_buc_write i p : nothrow (buc_write i p).
Proof. unfold buc_write. repeat nothrow_step. Qed.

Lemma nothrow_ChangeSpace_loop fuel : ∀ it, nothrow (ChangeSpace_loop fuel it).
Proof.
  induction fuel as [|fuel IH]; intros it; cbn [ChangeSpace_loop];
    repeat first [ apply nothrow_deref_val | apply nothrow_hash_index
                 | apply nothrow_buc_read | apply nothrow_buc_write
                 | apply IH | nothrow_step ].
Qed.

Lemma nothrow_ChangeSpace d : nothrow (ChangeSpace d).
Proof.
  unfold ChangeSpace.
  repeat first [ apply nothrow_ChangeSpace_loop | nothrow_step ].
Qed.

Lemma nothrow_Del p : nothrow (Del p).
Proof.
  unfold Del. repeat first [ apply nothrow_ChangeSpace | nothrow_step ].
Qed.

Lemma nothrow_erase_loop fuel : ∀ target it, nothrow (erase_loop fuel target it).
Proof.
  induction fuel as [|fuel IH]; intros target it; cbn [erase_loop];
    repeat first [ apply IH | nothrow_step ].
Qed.

(** * The claims *)

Lemma reachable_contents s L :
  reachable s → traverse s = Ok L s → ∃ l, Inv s l ∧ L = l.*2.
Proof.
  intros Hr Ht. destruct (reachable_Inv _ Hr) as [l HI].
  exists l. split; [done|]. by eapply Inv_traverse.
Qed.

Lemma iterator_star_live s l p kv :
  Inv s l → (p, kv) ∈ l → ∀ src, iterator_star (mkIter src p) s = Ok kv s.
Proof.
  intros ((_ & _ & _ & Hh) & _) Hin src.
  destruct (holds_lookup _ _ _ _ Hh Hin) as (n & Hn & Hv).
  unfold iterator_star, deref_val, mbind, M_bind, bind, deref. cbn [it_at].
  by rewrite Hn, Hv.
Qed.

(** C3: in a reachable map that holds an entry [kv] whose key equals the
    key of [value], [insert(value)] returns an iterator at that entry
    (dereferencing it gives [kv], and it is the iterator [find] returns)
    together with [false], and the final state is the initial state:
    the store and every field of the object, so the stored value, the
    iteration order, the size and the capacity, are unchanged. *)
Theorem insert_duplicate_no_op s L kv value :
  reachable s → traverse s = Ok L s → kv ∈ L →
  equal value.1 kv.1 = true →
  ∃ it, insert_ value s = Ok (it, false) s ∧
        iterator_star it s = Ok kv s ∧
        find value.1 s = Ok it s.
Proof.
  intros Hr Ht Hin He.
  destruct (reachable_contents _ _ Hr Ht) as (l & HI & ->).
  apply list_elem_of_fmap in Hin as ([p kv'] & -> & Hin). simpl in He.
  assert (find_node value.1 l = Some p) as Hf.
  { eapply find_node_elem; [by destruct HI as (_ & _ & ? & _)|done|done]. }
  exists (mkIter (this (obj s)) p). split_and!.
  - by eapply insert_dup.
  - by eapply iterator_star_live.
  - by rewrite (find_found _ _ _ HI), Hf.
Qed.

Lemma odd_not_power_of_two z :
  Z.odd z = true → (1 < z)%Z → ∀ n : nat, z ≠ (2 ^ Z.of_nat n)%Z.
Proof.
  intros Ho Hz [|n] E.
  - simpl in E. lia.
  - rewrite Nat2Z.inj_succ, Z.pow_succ_r in E by lia.
    rewrite E, Z.odd_mul in Ho. done.
Qed.

Lemma grown_odd m l :
  counters m l → (load m < max_load)%Z → (load m >? len m)%Z = true →
  Z.odd (grown m) = true ∧ ∀ n : nat, grown m ≠ (2 ^ Z.of_nat n)%Z.
Proof.
  intros (Hld & _ & Hcap) Hlt Hgt. unfold grown. rewrite Hgt.
  pose proof (capacity_ge _ Hcap) as Hge. unfold LEN in Hge.
  rewrite shiftl_lor_1 by lia.
  assert (Z.odd (2 * len m + 1) = true) as Ho.
  { rewrite Z.add_comm, Z.odd_add_mul_2. done. }
  split; [done|]. apply odd_not_power_of_two; [done|lia].
Qed.

(** C4: when a new key is inserted into a reachable map, through
    [insert] or through [operator[]], the capacity afterwards is
    [(len << 1) | 1] if the count read before the increment, [load],
    strictly exceeds the capacity [len], and [len] itself otherwise; the
    count goes up by one; and a capacity that results from growth is
    odd and no power of two. *)
Theorem growth_policy s L value :
  reachable s → (load (obj s) < max_load)%Z →
  traverse s = Ok L s → has_key value.1 L = false →
  (∃ it s', insert_ value s = Ok (it, true) s' ∧
            load (obj s') = (load (obj s) + 1)%Z ∧
            len (obj s') =
              (if (load (obj s) >? len (obj s))%Z
               then Z.lor (Z.shiftl (len (obj s)) 1) 1 else len (obj s))) ∧
  (∃ r s', operator_index value.1 s = Ok r s' ∧
           load (obj s') = (load (obj s) + 1)%Z ∧
           len (obj s') =
             (if (load (obj s) >? len (obj s))%Z
              then Z.lor (Z.shiftl (len (obj s)) 1) 1 else len (obj s))) ∧
  ((load (obj s) >? len (obj s))%Z = true →
   Z.odd (Z.lor (Z.shiftl (len (obj s)) 1) 1) = true ∧
   ∀ n : nat, Z.lor (Z.shiftl (len (obj s)) 1) 1 ≠ (2 ^ Z.of_nat n)%Z).
Proof.
  intros Hr Hlt Ht Hk.
  destruct (reachable_contents _ _ Hr Ht) as (l & HI & ->).
  apply find_node_has_key in Hk.
  pose proof HI as (_ & _ & _ & Hc). pose proof Hc as (Hld & _).
  split_and!.
  - pose proof (insert_new s l value HI Hk Hlt) as Hw.
    apply wp_ok in Hw as (r & s' & E & p & -> & HI' & _ & _ & _ & _ & _ & _ & Hlen).
    exists (mkIter (this (obj s)) p), s'. split_and!; [done| |done].
    destruct HI' as (_ & _ & _ & Hld' & _).
    rewrite Hld', Hld, length_app. simpl. lia.
  - pose proof (operator_index_absent s l value.1 HI Hk Hlt) as Hw.
    apply wp_ok in Hw as (r & s' & E & HI' & _ & _ & _ & _ & _ & _ & Hlen).
    exists r, s'. split_and!; [done| |done].
    destruct HI' as (_ & _ & _ & Hld' & _).
    rewrite Hld', Hld, length_app. simpl. lia.
  - intros Hgt. pose proof (grown_odd _ _ Hc Hlt Hgt) as H.
    unfold grown in H. by rewrite Hgt in H.
Qed.

(** C5: in every reachable state the capacity is at least the floor 13;
    and erasing a live entry of a reachable map lowers the count by one
    and leaves the capacity [len >> 1] if [len] exceeds 13 and four times
    the count after the removal is below [len], and [len] itself
    otherwise. *)
Theorem shrink_policy :
  (∀ s, reachable s → (LEN ≤ len (obj s))%Z) ∧
  (∀ s key it, reachable s → find key s = Ok it s →
     it_at it ≠ tl (obj s) →
     ∃ s', erase it s = Ok () s' ∧
           load (obj s') = (load (obj s) - 1)%Z ∧
           len (obj s') =
             (if ((len (obj s) >? LEN) && (4 * load (obj s') <? len (obj s)))%Z
              then Z.shiftr (len (obj s)) 1 else len (obj s))).
Proof.
  split.
  - intros s Hr. destruct (reachable_Inv _ Hr) as (l & _ & _ & _ & _ & _ & Hcap).
    by apply capacity_ge.
  - intros s key it Hr Hf Hit.
    destruct (reachable_Inv _ Hr) as [l HI].
    rewrite (find_found _ _ _ HI) in Hf. injection Hf as <-. cbn [it_at] in Hit.
    destruct (find_node key l) as [p|] eqn:Hfn; [|done]. simpl.
    destruct (find_node_split _ _ _ Hfn) as (l1 & kv & l2 & -> & _).
    pose proof (erase_spec s l1 p kv l2 HI) as Hw.
    apply wp_ok in Hw as ([] & s' & E & HI' & _ & _ & _ & Hlen & _).
    exists s'. split; [done|].
    destruct HI as (_ & _ & _ & Hld & _), HI' as (_ & _ & _ & Hld' & _).
    rewrite length_app in Hld. simpl in Hld. rewrite length_app in Hld'.
    assert (load (obj s') = load (obj s) - 1)%Z as El by lia.
    split; [done|]. rewrite Hlen, El. done.
Qed.

Lemma ref_read_live s l p kv :
  Inv s l → (p, kv) ∈ l → ref_read p s = Ok kv.2 s.
Proof.
  intros ((_ & _ & _ & Hh) & _) Hin.
  destruct (holds_lookup _ _ _ _ Hh Hin) as (n & Hn & Hv).
  unfold ref_read, deref_val, mbind, M_bind, bind, deref.
  by rewrite Hn, Hv.
Qed.

(** C6: on a reachable map that has no entry for [key], [operator[]]
    returns normally: the entry [(key, T{})] is appended at the tail of
    the iteration order, and the reference returned reads [T{}]; a write
    of any [v] through that reference succeeds, after which [at(key)]
    returns the same reference, which now reads [v], and the iteration
    yields [(key, v)] in last place. *)
Theorem operator_index_inserts_default s L key :
  reachable s → (load (obj s) < max_load)%Z →
  traverse s = Ok L s → has_key key L = false →
  ∃ r s', operator_index key s = Ok r s' ∧
          traverse s' = Ok (L ++ [(key, T_default)]) s' ∧
          ref_read r s' = Ok T_default s' ∧
          ∀ v, ∃ s'', ref_write r v s' = Ok () s'' ∧
                      at_ key s'' = Ok r s'' ∧
                      ref_read r s'' = Ok v s'' ∧
                      traverse s'' = Ok (L ++ [(key, v)]) s''.
Proof.
  intros Hr Hlt Ht Hk.
  destruct (reachable_contents _ _ Hr Ht) as (l & HI & ->).
  apply find_node_has_key in Hk.
  pose proof (operator_index_absent s l key HI Hk Hlt) as Hw.
  apply wp_ok in Hw as (r & s' & E & HI' & _).
  exists r, s'. split_and!; [done| | |].
  - rewrite (traverse_spec _ _ (proj1 HI')). by rewrite fmap_app.
  - apply (ref_read_live s' _ r (key, T_default) HI').
    apply elem_of_app. right. left.
  - intros v.
    pose proof (ref_write_spec s' l r key T_default [] v HI') as Hw.
    apply wp_ok in Hw as ([] & s'' & E' & HI'' & _).
    exists s''. split_and!; [done| | |].
    + apply (at_found s'' _ key r HI'').
      eapply find_node_elem; [by destruct HI'' as (_ & _ & ? & _)| |].
      * apply elem_of_app. right. left.
      * simpl. apply equal_refl.
    + apply (ref_read_live s'' _ r (key, v) HI'').
      apply elem_of_app. right. left.
    + rewrite (traverse_spec _ _ (proj1 HI'')). by rewrite fmap_app.
Qed.

Lemma bind_get_this {A} (f : linked_hashmap → M A) s :
  (get_this ≫= f) s = f (obj s) s.
Proof. done. Qed.

(** C7: [erase(pos)] throws [invalid_iterator] exactly when [pos] is the
    end iterator of this map or its [source] is not this map; it throws
    nothing else; and when it throws, the final state is the initial
    state. *)
Theorem erase_invalid_iterator s pos :
  ((∃ s', erase pos s = Throw invalid_iterator s') ↔
   (pos = mkIter (this (obj s)) (tl (obj s)) ∨ source pos ≠ this (obj s))) ∧
  (∀ e s', erase pos s = Throw e s' → e = invalid_iterator ∧ s' = s).
Proof.
  assert ((pos = mkIter (this (obj s)) (tl (obj s)) ∨ source pos ≠ this (obj s)) ↔
          (it_at pos = tl (obj s) ∨ source pos ≠ this (obj s))) as Hcond.
  { split.
    - intros [->|?]; [by left|by right].
    - intros [Hat|?]; [|by right].
      destruct (decide (source pos = this (obj s))) as [Hsrc|?]; [left|by right].
      destruct pos as [src a]. simpl in *. by subst. }
  rewrite Hcond. unfold erase. rewrite bind_get_this.
  destruct (decide (it_at pos = tl (obj s) ∨ source pos ≠ this (obj s)))
    as [Hc|Hc].
  - unfold throw. split.
    + split; [done|]. intros _. by exists s.
    + intros e s' [= <- <-]. done.
  - match goal with
    | |- context [?x s = Throw _ _] =>
      assert (nothrow x) as Hnt
    end.
    { repeat first
        [ apply nothrow_deref_val | apply nothrow_hash_index
        | apply nothrow_buc_read | apply nothrow_buc_write
        | apply nothrow_erase_loop | apply nothrow_Del
        | nothrow_step | case_decide ]. }
    split.
    + split; [|done]. intros [s' E]. by destruct (Hnt _ _ _ E).
    + intros e s' E. by destruct (Hnt _ _ _ E).
Qed.

(** C10: on a reachable map that has no entry for [key], the const
    [operator[]] is [at(key)]: it throws [index_out_of_bound], and the
    state at the throw is the initial state, so nothing is inserted. *)
Theorem const_index_absent s L key :
  reachable s → traverse s = Ok L s → has_key key L = false →
  operator_index_const key s = Throw index_out_of_bound s ∧
  operator_index_const key s = at_const key s.
Proof.
  intros Hr Ht Hk.
  destruct (reachable_contents _ _ Hr Ht) as (l & HI & ->).
  apply find_node_has_key in Hk. split; [|done].
  unfold operator_index_const.
  change (at_const key s) with (at_ key s). by eapply at_absent.
Qed.

Lemma resized_pos d c :
  (d = 1 ∨ d = -1)%Z → capacity c → (0 < resized d c)%Z.
Proof.
  intros [-> | ->] Hc.
  - unfold resized. simpl (0 <? 1)%Z. cbv iota. unfold size_t.
    assert (0 < 2 ^ 64)%Z as H64 by done.
    pose proof (Z.mod_pos_bound (Z.lor (Z.shiftl c 1) 1) (2 ^ 64) H64) as Hb.
    assert (Z.lor (Z.shiftl c 1) 1 mod 2 ^ 64 ≠ 0)%Z as Hne.
    2:{ destruct Hb as [Hb _]. apply Z.le_neq. split; [done|]. by intros E. }
    intros E.
    assert (Z.testbit (Z.lor (Z.shiftl c 1) 1 mod 2 ^ 64) 0 = true) as Hbit.
    { rewrite Z.mod_pow2_bits_low by lia. rewrite Z.lor_spec.
      by rewrite orb_true_r. }
    by rewrite E in Hbit.
  - rewrite resized_shrink. pose proof (capacity_ge _ Hc) as Hge.
    unfold LEN in Hge. apply Z.div_str_pos. lia.
Qed.

Lemma insert_total s l value :
  Inv s l → (load (obj s) < max_load)%Z →
  ∃ r s' l', insert_ value s = Ok r s' ∧ Inv s' l'.
Proof.
  intros HI Hlt. destruct (find_node value.1 l) as [p|] eqn:Hf.
  - eexists _, s, l. split; [by eapply insert_dup|done].
  - pose proof (insert_new s l value HI Hf Hlt) as Hw.
    apply wp_ok in Hw as (r & s' & E & p & _ & HI' & _). eauto.
Qed.

Lemma operator_index_total s l key :
  Inv s l → (load (obj s) < max_load)%Z →
  ∃ r s' l', operator_index key s = Ok r s' ∧ Inv s' l'.
Proof.
  intros HI Hlt. destruct (find_node key l) as [p|] eqn:Hf.
  - eexists p, s, l. split; [by eapply operator_index_found|done].
  - pose proof (operator_index_absent s l key HI Hf Hlt) as Hw.
    apply wp_ok in Hw as (r & s' & E & HI' & _). eauto.
Qed.

(** * The states [ChangeSpace] is called in *)

Lemma bind_assoc_at {A B C} (x : M A) (f : A → M B) (g : B → M C) s :
  ((x ≫= f) ≫= g) s = (x ≫= λ a, f a ≫= g) s.
Proof. unfold mbind, M_bind, bind. by destruct (x s). Qed.

Lemma bind_ext_at {A B} (x : M A) (f g : A → M B) s :
  (∀ a s', f a s' = g a s') → (x ≫= f) s = (x ≫= g) s.
Proof.
  intros H. unfold mbind, M_bind, bind. destruct (x s); [apply H|done..].
Qed.

(** [Add] is [load++], the test and the call of [ChangeSpace(1)], and
    then [Add_link]. *)
Lemma Add_split key s :
  Add key s =
  ((if (load (obj s) >? len (obj s))%Z then ChangeSpace 1 else ret ()) ≫=
   λ _, Add_link key)
    (mkState (mem s) (set_load (size_t (load (obj s) + 1)) (obj s))).
Proof. reflexivity. Qed.

(** [Del] is [Del_unlink] and then [Del_resize]. *)
Lemma Del_split p s : Del p s = (Del_unlink p ≫= λ _, Del_resize) s.
Proof.
  symmetry. unfold Del, Del_unlink.
  do 6 (rewrite bind_assoc_at; apply bind_ext_at; intros ? ?).
  reflexivity.
Qed.

(** [erase] is [erase_unlink] and then [Del_resize]. *)
Lemma erase_split pos s :
  erase pos s = (erase_unlink pos ≫= λ _, Del_resize) s.
Proof.
  symmetry. unfold erase, erase_unlink.
  rewrite bind_assoc_at. apply bind_ext_at. intros m s1.
  case_decide; [reflexivity|].
  do 4 (rewrite bind_assoc_at; apply bind_ext_at; intros ? ?).
  symmetry. apply Del_split.
Qed.

Lemma Del_unlink_spec s l1 p kv l2 :
  order_list (mem s) (obj s) (l1 ++ (p, kv) :: l2) →
  counters (obj s) (l1 ++ (p, kv) :: l2) →
  wp (Del_unlink p) s (λ _ s1,
    order_list (mem s1) (obj s1) (l1 ++ l2) ∧
    obj s1 = set_load (load (obj s) - 1) (obj s) ∧
    (bucket_table (mem s) (obj s) (l1 ++ l2) →
     bucket_table (mem s1) (obj s1) (l1 ++ l2))).
Proof.
  intros Ho (Hld & Hmax & Hcap).
  destruct (order_list_neighbours _ _ _ _ _ _ Ho)
    as (np & na & nb & X & Y & Hnp & Hv & Hna & Hnb & EX & EY).
  pose proof (order_list_del _ _ _ _ _ _ np na nb Ho Hnp Hna Hnb) as Ho3.
  destruct (cells_middle (obj s) l1 p kv l2 X _ _ Y EX EY) as [Ec Ec'].
  assert (NoDup (cells (obj s) (l1 ++ (p, kv) :: l2))) as Hnd
    by (by destruct Ho as (_ & _ & ? & _)).
  rewrite Ec in Hnd.
  assert (time_lst np ≠ p ∧ time_nxt np ≠ p ∧ time_lst np ≠ time_nxt np)
    as (Hap & Hbp & Hab).
  { apply NoDup_app in Hnd as (_ & _ & Hnd).
    apply NoDup_cons in Hnd as [Ha Hnd]. apply NoDup_cons in Hnd as [Hp _].
    split_and!.
    - intros E. apply Ha. rewrite E. left.
    - intros E. apply Hp. rewrite E. left.
    - intros E. apply Ha. rewrite E. right. left. }
  rewrite length_app in Hld. simpl in Hld.
  unfold Del_unlink.
  apply wp_bind. eapply wp_deref; [done|].
  apply wp_bind. eapply wp_assign; [done|].
  apply wp_bind. eapply wp_deref; [proj; by lk|].
  apply wp_bind. eapply wp_assign; [proj; by lk|].
  apply wp_bind, wp_get_this. apply wp_bind, wp_set_this.
  eapply wp_delete_Node; [proj; by lk|]. proj.
  rewrite (size_t_small (load (obj s) - 1)) by (unfold max_load in *; lia).
  set (h3 := delete p _) in *.
  split_and!.
  - by eapply order_list_obj; [| |exact Ho3].
  - done.
  - intros (Hlen & Hbl & Hch). split_and!; try done. proj.
    intros i b Hb. eapply lseg_frame; [|by apply Hch].
    intros x Hx. apply chain_elem_fst in Hx.
    assert (x ≠ p).
    { intros ->. apply (NoDup_not_middle _ _ _ _ Hnd).
      rewrite <- Ec'. by apply elem_of_cells. }
    unfold h3. rewrite lookup_delete_ne by done.
    destruct (decide (x = time_nxt np)) as [->|]; lk; [by rewrite Hnb|].
    destruct (decide (x = time_lst np)) as [->|]; lk; [by rewrite Hna|done].
Qed.

Lemma erase_unlink_spec s l1 p kv l2 :
  Inv s (l1 ++ (p, kv) :: l2) →
  wp (erase_unlink (mkIter (this (obj s)) p)) s (λ _ s1,
    order_list (mem s1) (obj s1) (l1 ++ l2) ∧
    bucket_table (mem s1) (obj s1) (l1 ++ l2) ∧
    distinct_keys (l1 ++ l2) ∧
    ∃ bs, obj s1 = set_buc bs (set_load (load (obj s) - 1) (obj s))).
Proof.
  intros (Ho & (Hlen & Hbl & Hch) & Hd & Hc).
  set (l := l1 ++ (p, kv) :: l2) in *.
  pose proof (order_list_distinct _ _ _ Ho) as [Hht Hne].
  pose proof (order_list_NoDup_entries _ _ _ Ho) as Hnd.
  assert ((p, kv) ∈ l) as Hin by (apply elem_of_app; right; left).
  assert (p ∈ l.*1) as Hinp by (by apply (list_elem_of_fmap_2 fst) in Hin).
  destruct (Hne p Hinp) as [Hphd Hptl].
  destruct (holds_lookup (mem s) l p kv) as (np & Hnp & Hv);
    [by destruct Ho as (_ & _ & _ & ?)|done|].
  unfold erase_unlink. apply wp_bind, wp_get_this. cbn [it_at source].
  rewrite decide_False by (intros [?|?]; done).
  apply wp_bind. eapply wp_deref_val; [done..|].
  apply wp_bind, wp_hash_index; [lia|].
  set (i0 := bucket_of (len (obj s)) kv.1).
  assert (i0 < length (buc (obj s)))%nat as Hi
    by (rewrite Hbl; by apply bucket_of_lt).
  destruct (lookup_lt_is_Some_2 _ _ Hi) as [b Hb].
  apply wp_bind. eapply wp_buc_read; [done|].
  set (C1 := chain (len (obj s)) i0 l1).
  set (C2 := chain (len (obj s)) i0 l2).
  assert (chain (len (obj s)) i0 l = C2 ++ (p, kv) :: C1) as EC.
  { unfold l. rewrite chain_app, chain_cons. simpl.
    fold i0. rewrite decide_True by done. by rewrite <- app_assoc. }
  assert (∀ i, i ≠ i0 → chain (len (obj s)) i l = chain (len (obj s)) i (l1 ++ l2)) as ENE.
  { intros i Hi'. unfold l. rewrite !chain_app, chain_cons. simpl.
    fold i0. rewrite decide_False by done. by rewrite app_nil_r. }
  pose proof (Hch _ _ Hb) as Hs0. rewrite EC in Hs0.
  rewrite fmap_app, fmap_cons in Hs0. simpl in Hs0.
  pose proof (chain_NoDup (len (obj s)) i0 l Hnd) as HndC. rewrite EC in HndC.
  rewrite fmap_app, fmap_cons in HndC. simpl in HndC.
  apply wp_bind. eapply wp_mono.
  { instantiate (1 := λ _ se,
      order_list (mem se) (obj se) l ∧
      bucket_table (mem se) (obj se) (l1 ++ l2) ∧
      (∃ bs, obj se = set_buc bs (obj s)) ∧
      (∀ q, q ∉ l.*1 → mem se !! q = mem s !! q)).
    destruct (decide (b = p)) as [->|Hbp].
    - assert (C2 = []) as EC2.
      { destruct C2 as [|[x kx] C2']; [done|exfalso].
        rewrite fmap_cons in Hs0, HndC. simpl in Hs0, HndC.
        destruct Hs0 as (<- & _). apply NoDup_cons in HndC as [HndC _].
        apply HndC. apply elem_of_app. right. left. }
      rewrite EC2 in *. simpl in Hs0.
      destruct Hs0 as (_ & _ & np' & Hnp' & Hs0).
      rewrite Hnp in Hnp'. injection Hnp' as <-.
      apply wp_bind. eapply wp_deref; [done|].
      apply wp_buc_write; [done|]. proj.
      split_and!.
      + by eapply order_list_obj; [| |exact Ho].
      + split_and!; proj; [done|by rewrite length_insert|].
        intros i b' Hb'. destruct (decide (i = i0)) as [->|Hi'].
        * rewrite list_lookup_insert_eq in Hb' by done. injection Hb' as <-.
          rewrite chain_app. fold C1 C2. by rewrite EC2.
        * rewrite list_lookup_insert_ne in Hb' by done.
          rewrite <- ENE by done. by apply Hch.
      + by eexists.
      + done.
    - assert (∃ C a kva, C2 = C ++ [(a, kva)]) as (C & a & kva & EC2).
      { destruct C2 as [|e C2'] eqn:E2.
        - simpl in Hs0. by destruct Hs0 as (? & _).
        - destruct (snoc_exists e C2') as (C & [a kva] & ->). eauto. }
      rewrite EC2 in *. rewrite fmap_app in Hs0, HndC. simpl in Hs0, HndC.
      rewrite <- app_assoc in Hs0, HndC. simpl in Hs0, HndC.
      assert (is_Some (mem s !! a)) as [na Hna].
      { eapply lseg_lookup; [exact Hs0|]. apply elem_of_app. right. left. }
      pose proof (lseg_step _ _ _ _ _ _ _ _ Hs0) as Hap.
      rewrite Hna in Hap. simpl in Hap. injection Hap as Hap.
      apply wp_bind, wp_rounds.
      apply wp_bind. eapply wp_eq.
      { apply (erase_loop_spec C.*1 _ s b a p C1.*1); [done|done|].
        rewrite length_fmap.
        pose proof (chain_length (len (obj s)) i0 l _ _ Ho) as Hcl.
        rewrite EC, length_app, length_app in Hcl. lia. }
      apply wp_bind. eapply wp_deref; [done|]. rewrite Hap.
      apply wp_bind. eapply wp_deref; [done|].
      eapply wp_assign; [done|]. proj.
      assert (a ∈ l.*1) as Hal.
      { apply (chain_elem_fst (len (obj s)) i0). rewrite EC, fmap_app, fmap_app.
        apply elem_of_app. left. apply elem_of_app. right. left. }
      split_and!.
      + eapply order_list_frame; [done|done| | | |exact Ho]; intros x Hx;
          (destruct (decide (x = a)) as [->|];
           [rewrite lookup_insert_eq, Hna; done|by rewrite lookup_insert_ne]).
      + split_and!; [done|done|].
        intros i b' Hb'. destruct (decide (i = i0)) as [->|Hi'].
        * rewrite Hb in Hb'. injection Hb' as <-.
          rewrite chain_app. fold C1 C2.
          rewrite EC2, !fmap_app, <- app_assoc. simpl.
          eapply (lseg_unlink _ (mem s)); [exact Hs0|done| |].
          -- lk. by rewrite Hnp.
          -- intros x Hxa Hxp. by lk.
        * rewrite <- ENE by done.
          eapply lseg_frame; [|by apply Hch].
          intros x Hx. rewrite lookup_insert_ne; [done|]. intros <-.
          apply list_elem_of_fmap in Hx as ([a' kva'] & Ea & Hx).
          simpl in Ea. subst a'.
          pose proof (chain_bucket _ _ _ _ Hx) as Hbk. simpl in Hbk.
          apply chain_subset in Hx.
          assert ((a, kva) ∈ chain (len (obj s)) i0 l) as Hx'.
          { rewrite EC. apply elem_of_app. left. apply elem_of_app. right. left. }
          pose proof (chain_bucket _ _ _ _ Hx') as Hbk'. simpl in Hbk'.
          apply chain_subset in Hx'.
          rewrite (entries_functional l a kva kva' Hnd Hx' Hx) in Hbk'.
          congruence.
      + exists (buc (obj s)). by destruct (obj s).
      + intros q Hq. apply lookup_insert_ne. by intros <-.
  }
  intros _ se (Hoe & Hbte & [bs Hbs] & Hfre).
  eapply wp_mono.
  { apply (Del_unlink_spec se l1 p kv l2); [done|]. by rewrite Hbs. }
  intros _ s1 (Ho1 & Hobj1 & Hbt1).
  split_and!; [done|by apply Hbt1|by eapply distinct_keys_remove|].
  exists bs. by rewrite Hobj1, Hbs.
Qed.

Lemma find_dual s l key :
  order_list (mem s) (obj s) l → bucket_table (mem s) (obj s) l →
  distinct_keys l →
  find key s =
  Ok (mkIter (this (obj s)) (default (tl (obj s)) (find_node key l))) s.
Proof.
  intros Ho Hbt Hd. unfold find, mbind, M_bind, bind.
  by rewrite (Find_dual key s l Ho Hbt Hd).
Qed.

Lemma star_holds s l p kv src :
  order_list (mem s) (obj s) l → (p, kv) ∈ l →
  iterator_star (mkIter src p) s = Ok kv s.
Proof.
  intros (_ & _ & _ & Hh) Hin.
  destruct (holds_lookup _ _ _ _ Hh Hin) as (n & Hn & Hv).
  unfold iterator_star, deref_val, mbind, M_bind, bind, deref. cbn [it_at].
  by rewrite Hn, Hv.
Qed.

Lemma same_entry_intro s s' l l' key :
  order_list (mem s) (obj s) l → bucket_table (mem s) (obj s) l →
  distinct_keys l →
  order_list (mem s') (obj s') l' → bucket_table (mem s') (obj s') l' →
  distinct_keys l' →
  this (obj s') = this (obj s) →
  has_key key l.*2 = true →
  (∀ p kv, (p, kv) ∈ l → equal key kv.1 = true → (p, kv) ∈ l') →
  same_entry s s' key.
Proof.
  intros Ho Hbt Hd Ho' Hbt' Hd' Hthis Hk Hsub.
  destruct (find_node key l) as [p|] eqn:Hf.
  2:{ apply find_node_has_key in Hf. congruence. }
  destruct (find_node_Some _ _ _ Hf) as (kv & Hin & He).
  pose proof (Hsub _ _ Hin He) as Hin'.
  exists (mkIter (this (obj s)) p), kv. split_and!.
  - by rewrite (find_dual s l key Ho Hbt Hd), Hf.
  - rewrite (find_dual s' l' key Ho' Hbt' Hd'), Hthis.
    by rewrite (find_node_elem key l' p kv Hd' Hin' He).
  - by eapply star_holds.
  - by eapply star_holds.
Qed.

(** [ChangeSpace] rebuilds the Bucket Table from the Order List alone:
    whatever [load] is, it keeps the iteration sequence and every
    entry. *)
Lemma ChangeSpace_stable d s l :
  order_list (mem s) (obj s) l → bucket_table (mem s) (obj s) l →
  distinct_keys l → (0 < resized d (len (obj s)))%Z →
  wp (ChangeSpace d) s (λ _ s',
    len (obj s') = resized d (len (obj s)) ∧
    dual_structure s' ∧
    traverse s = Ok l.*2 s ∧ traverse s' = Ok l.*2 s' ∧
    ∀ key, has_key key l.*2 = true → same_entry s s' key).
Proof.
  intros Ho Hbt Hd Hpos.
  eapply wp_mono; [by apply (ChangeSpace_spec d s l)|].
  intros [] s' ([bs Hbs] & Ho' & Hbt' & _). split_and!.
  - by rewrite Hbs.
  - by eapply dual_structure_intro.
  - by apply traverse_spec.
  - by apply traverse_spec.
  - intros key Hk.
    eapply (same_entry_intro s s' l l); try done. by rewrite Hbs.
Qed.

(** C2: every reachable state has the dual structure: each live node
    is reached from the slot of its key by [nxt] hops, and every
    non-null node reached from a slot is live.  From a reachable state
    [insert], [operator[]], [erase] at the iterator of a live entry and
    [clear] all return normally, in a state that has the dual structure
    again.

    The operations that resize keep every entry.  On a reachable map
    whose iteration yields [L], inserting a new key through [insert] or
    [operator[]] leaves the capacity [(len << 1) | 1] when [load]
    exceeds [len] and [len] otherwise, appends the pair to [L], and for
    every key of [L], [find] returns the iterator it returned before, at
    the same pair; erasing the iterator [find(key)] leaves the capacity
    [len >> 1] when [len] exceeds 13 and four times the count after the
    removal is below [len], takes the pair of [key] out of [L], and for
    every other key of [L], [find] returns the iterator it returned
    before, at the same pair.

    So does [ChangeSpace] in the very states the code calls it in.  In
    [Add], when the test [load++ > len] succeeds on a reachable state,
    [Add] is [ChangeSpace(1)] followed by [Add_link], run in the state
    [load++] leaves; in [erase] of a live iterator of a reachable state,
    [erase] is [Del_resize] run in the state [erase_unlink] leaves, and
    when the test of [Del_resize] succeeds there, the state
    [ChangeSpace(-1)] returns is the one [erase] returns.  In both
    states the call of [ChangeSpace] returns normally with the new
    capacity, in a state that has the dual structure, with the iteration
    sequence as it was, and for every key of that sequence [find]
    returns the iterator it returned before the call, at the same
    pair. *)
Theorem dual_structure_invariant :
  (∀ s, reachable s → dual_structure s) ∧
  (∀ s, reachable s → (load (obj s) < max_load)%Z →
     (∀ value, ∃ r s', insert_ value s = Ok r s' ∧ dual_structure s') ∧
     (∀ key, ∃ r s', operator_index key s = Ok r s' ∧ dual_structure s') ∧
     (∀ key it, find key s = Ok it s → it_at it ≠ tl (obj s) →
                ∃ s', erase it s = Ok () s' ∧ dual_structure s') ∧
     (∃ s', clear s = Ok () s' ∧ dual_structure s')) ∧
  (∀ s L, reachable s → (load (obj s) < max_load)%Z → traverse s = Ok L s →
     (∀ value, has_key value.1 L = false →
        ∃ it s', insert_ value s = Ok (it, true) s' ∧
                 len (obj s') =
                   (if (load (obj s) >? len (obj s))%Z
                    then Z.lor (Z.shiftl (len (obj s)) 1) 1 else len (obj s)) ∧
                 traverse s' = Ok (L ++ [value]) s' ∧
                 ∀ k, has_key k L = true → same_entry s s' k) ∧
     (∀ key, has_key key L = false →
        ∃ r s', operator_index key s = Ok r s' ∧
                len (obj s') =
                  (if (load (obj s) >? len (obj s))%Z
                   then Z.lor (Z.shiftl (len (obj s)) 1) 1 else len (obj s)) ∧
                traverse s' = Ok (L ++ [(key, T_default)]) s' ∧
                ∀ k, has_key k L = true → same_entry s s' k) ∧
     (∀ key it, find key s = Ok it s → it_at it ≠ tl (obj s) →
        ∃ s', erase it s = Ok () s' ∧
              len (obj s') =
                (if ((len (obj s) >? LEN) &&
                     (4 * (load (obj s) - 1) <? len (obj s)))%Z
                 then Z.shiftr (len (obj s)) 1 else len (obj s)) ∧
              traverse s' = Ok (remove_key key L) s' ∧
              ∀ k, has_key k L = true → equal k key = false →
                   same_entry s s' k)) ∧
  (∀ s value, reachable s → (load (obj s) < max_load)%Z →
     (load (obj s) >? len (obj s))%Z = true →
     ∀ s1, s1 = mkState (mem s) (set_load (size_t (load (obj s) + 1)) (obj s)) →
     Add value s = (ChangeSpace 1 ≫= λ _, Add_link value) s1 ∧
     ∃ s' L, ChangeSpace 1 s1 = Ok () s' ∧
             len (obj s') = Z.lor (Z.shiftl (len (obj s1)) 1) 1 ∧
             dual_structure s' ∧
             traverse s1 = Ok L s1 ∧ traverse s' = Ok L s' ∧
             ∀ k, has_key k L = true → same_entry s1 s' k) ∧
  (∀ s key it, reachable s → find key s = Ok it s → it_at it ≠ tl (obj s) →
     ∃ s1, erase_unlink it s = Ok () s1 ∧ erase it s = Del_resize s1 ∧
           load (obj s1) = (load (obj s) - 1)%Z ∧ len (obj s1) = len (obj s) ∧
           (((len (obj s1) >? LEN) && (4 * load (obj s1) <? len (obj s1)))%Z
              = true →
            ∃ s' L, ChangeSpace (-1) s1 = Ok () s' ∧ erase it s = Ok () s' ∧
                    len (obj s') = Z.shiftr (len (obj s1)) 1 ∧
                    dual_structure s' ∧
                    traverse s1 = Ok L s1 ∧ traverse s' = Ok L s' ∧
                    ∀ k, has_key k L = true → same_entry s1 s' k)).
Proof.
  split_and!.
  - intros s Hr. destruct (reachable_Inv _ Hr) as [l HI].
    by eapply Inv_dual_structure.
  - intros s Hr Hlt. destruct (reachable_Inv _ Hr) as [l HI]. split_and!.
    + intros value.
      destruct (insert_total s l value HI Hlt) as (r & s' & l' & E & HI').
      exists r, s'. split; [done|by eapply Inv_dual_structure].
    + intros key.
      destruct (operator_index_total s l key HI Hlt) as (r & s' & l' & E & HI').
      exists r, s'. split; [done|by eapply Inv_dual_structure].
    + intros key it Hf Hit.
      rewrite (find_found _ _ _ HI) in Hf. injection Hf as <-. cbn [it_at] in Hit.
      destruct (find_node key l) as [p|] eqn:Hfn; [|done]. simpl.
      destruct (find_node_split _ _ _ Hfn) as (l1 & kv & l2 & -> & _).
      pose proof (erase_spec s l1 p kv l2 HI) as Hw.
      apply wp_ok in Hw as ([] & s' & E & HI' & _).
      exists s'. split; [done|by eapply Inv_dual_structure].
    + pose proof (clear_spec s l HI) as Hw.
      apply wp_ok in Hw as ([] & s' & E & HI' & _).
      exists s'. split; [done|by eapply Inv_dual_structure].
  - intros s L Hr Hlt Ht.
    destruct (reachable_contents _ _ Hr Ht) as (l & HI & ->).
    pose proof HI as (Ho & Hbt & Hd & _). split_and!.
    + intros value Hk. apply find_node_has_key in Hk.
      pose proof (insert_new s l value HI Hk Hlt) as Hw.
      apply wp_ok in Hw
        as (r & s' & E & p & -> & HI' & _ & _ & _ & Hthis & _ & _ & Hlen).
      pose proof HI' as (Ho' & Hbt' & Hd' & _).
      exists (mkIter (this (obj s)) p), s'. split_and!; [done|done| |].
      * rewrite (traverse_spec _ _ Ho'). by rewrite fmap_app.
      * intros k Hk'. eapply (same_entry_intro s s' l); try done.
        intros q kv Hin _. apply elem_of_app. by left.
    + intros key Hk. apply find_node_has_key in Hk.
      pose proof (operator_index_absent s l key HI Hk Hlt) as Hw.
      apply wp_ok in Hw as (r & s' & E & HI' & _ & _ & _ & Hthis & _ & _ & Hlen).
      pose proof HI' as (Ho' & Hbt' & Hd' & _).
      exists r, s'. split_and!; [done|done| |].
      * rewrite (traverse_spec _ _ Ho'). by rewrite fmap_app.
      * intros k Hk'. eapply (same_entry_intro s s' l); try done.
        intros q kv Hin _. apply elem_of_app. by left.
    + intros key it Hf Hit.
      rewrite (find_found _ _ _ HI) in Hf. injection Hf as <-. cbn [it_at] in Hit.
      destruct (find_node key l) as [p|] eqn:Hfn; [|done]. simpl.
      destruct (find_node_split _ _ _ Hfn) as (l1 & kv & l2 & -> & Hkv & Hn).
      pose proof (erase_spec s l1 p kv l2 HI) as Hw.
      apply wp_ok in Hw as ([] & s' & E & HI' & Hthis & _ & _ & Hlen & _).
      pose proof HI' as (Ho' & Hbt' & Hd' & _).
      exists s'. split_and!; [done|done| |].
      * rewrite (traverse_spec _ _ Ho').
        rewrite !fmap_app, fmap_cons. simpl. by rewrite remove_key_middle.
      * intros k Hk' Hne.
        eapply (same_entry_intro s s' (l1 ++ (p, kv) :: l2)); try done.
        intros q kv' Hin He.
        apply elem_of_app in Hin as [?|Hin]; [apply elem_of_app; by left|].
        apply elem_of_cons in Hin as [[= -> ->]|?];
          [|apply elem_of_app; by right].
        assert (equal k key = true) as Hc; [|congruence].
        eapply equal_trans; [exact He|by apply equal_sym].
  - intros s value Hr Hlt Hgt s1 ->.
    destruct (reachable_Inv _ Hr) as [l HI].
    pose proof HI as (Ho & Hbt & Hd & _ & _ & Hcap).
    split; [by rewrite Add_split, Hgt|].
    apply Z.gtb_lt in Hgt.
    destruct (resized_grow _ Hcap ltac:(lia)) as [_ Hr2].
    pose proof (ChangeSpace_stable 1
      (mkState (mem s) (set_load (size_t (load (obj s) + 1)) (obj s))) l) as Hw.
    proj.
    assert (order_list (mem s) (set_load (size_t (load (obj s) + 1)) (obj s)) l)
      as Ho1 by (by eapply order_list_obj; [| |exact Ho]).
    specialize (Hw Ho1 Hbt Hd (resized_pos 1 _ ltac:(by left) Hcap)).
    apply wp_ok in Hw as ([] & s' & E & Hlen & Hds & Ht1 & Ht' & Hse).
    exists s', l.*2. split_and!; [done|by rewrite Hlen, <- Hr2|done|done|done|done].
  - intros s key it Hr Hf Hit. destruct (reachable_Inv _ Hr) as [l HI].
    rewrite (find_found _ _ _ HI) in Hf. injection Hf as <-. cbn [it_at] in Hit.
    destruct (find_node key l) as [p|] eqn:Hfn; [|done]. simpl.
    destruct (find_node_split _ _ _ Hfn) as (l1 & kv & l2 & -> & _).
    pose proof HI as (_ & _ & _ & Hld & Hmax & Hcap).
    rewrite length_app in Hld. simpl in Hld.
    pose proof (erase_unlink_spec s l1 p kv l2 HI) as Hw.
    apply wp_ok in Hw as ([] & s1 & E & Ho1 & Hbt1 & Hd1 & bs & Hobj).
    assert (erase (mkIter (this (obj s)) p) s = Del_resize s1) as Es.
    { rewrite erase_split. unfold mbind, M_bind, bind. by rewrite E. }
    exists s1. split_and!; [done|done|by rewrite Hobj|by rewrite Hobj|].
    intros Hc.
    assert (capacity (len (obj s1))) as Hcap1 by (by rewrite Hobj).
    pose proof (ChangeSpace_stable (-1) s1 (l1 ++ l2) Ho1 Hbt1 Hd1
                  (resized_pos (-1) _ ltac:(by right) Hcap1)) as Hw.
    apply wp_ok in Hw as ([] & s' & E' & Hlen & Hds & Ht1 & Ht' & Hse).
    exists s', (l1 ++ l2).*2.
    split_and!; [done| | |done|done|done|done].
    + rewrite Es. unfold Del_resize. rewrite bind_get_this.
      assert (size_t (Z.shiftl (load (obj s1)) 2) = 4 * load (obj s1))%Z as ->.
      { rewrite Hobj. proj. rewrite Z.shiftl_mul_pow2 by lia.
        rewrite size_t_small by (unfold max_load in *; lia). lia. }
      by rewrite Hc.
    + rewrite Hlen. unfold resized. done.
Qed.

(** C8: copy-constructing [B] from a reachable map [A] returns
    normally; iterating [B] yields the pairs of [A] in the order of [A];
    and after any run of [insert], [erase], [operator[]] assignments and
    [clear] on [B], iterating [A] in the resulting store still yields
    the pairs it yielded before, while [B] holds what the run makes of
    its copy. *)
Theorem copy_round_trip h A L addr :
  reachable (mkState h A) →
  traverse (mkState h A) = Ok L (mkState h A) →
  ∃ sB, copy_construct A (raw addr h) = Ok () sB ∧
        traverse sB = Ok L sB ∧
        ∀ ops, (load (obj sB) + Z.of_nat (length ops) ≤ max_load)%Z →
          ∃ sB', run ops sB = Ok () sB' ∧
                 traverse sB' = Ok (fold_left model_step ops L) sB' ∧
                 traverse (mkState (mem sB') A) = Ok L (mkState (mem sB') A).
Proof.
  intros Hr Ht.
  destruct (reachable_contents _ _ Hr Ht) as (lA & HIA & ->).
  pose proof (copy_construct_spec addr h A lA HIA) as Hw.
  apply wp_ok in Hw as ([] & sB & E & lB & HIB & EB & _ & Hfr & Hfresh).
  exists sB. split_and!; [done| |].
  - rewrite (traverse_spec _ _ (proj1 HIB)). by rewrite EB.
  - intros ops Hb.
    pose proof (run_spec ops sB lB HIB Hb) as Hw.
    apply wp_ok in Hw as ([] & sB' & E' & l' & HI' & El' & Hpres & _).
    exists sB'. split_and!; [done| |].
    + rewrite (traverse_spec _ _ (proj1 HI')). by rewrite El', EB.
    + apply traverse_spec. proj.
      eapply order_list_preserved; [|exact (proj1 HIA)]. proj.
      intros q n Hq Hin. apply Hpres; [by apply Hfr|].
      intros Hin'. specialize (Hfresh _ Hin'). congruence.
Qed.

(** * Insertion order *)

Lemma pairwise_distinct_app a b :
  pairwise_distinct (a ++ b) →
  pairwise_distinct a ∧
  ∀ x y, x ∈ a → y ∈ b → equal x y = false ∧ equal y x = false.
Proof.
  induction a as [|k a IH]; simpl.
  - intros _. split; [done|]. by intros x y ?%elem_of_nil.
  - intros [Hk Hpd]. destruct (IH Hpd) as [Ha Hab]. split_and!.
    + intros k' Hk'. apply Hk. apply elem_of_app. by left.
    + done.
    + intros x y [->|Hx]%elem_of_cons Hy.
      * apply Hk. apply elem_of_app. by right.
      * by apply Hab.
Qed.

Lemma sublist_elem_of {A} (l1 l2 : list A) x :
  l1 `sublist_of` l2 → x ∈ l1 → x ∈ l2.
Proof.
  induction 1 as [|y l1 l2 _ IH|y l1 l2 _ IH]; [done| |].
  - intros [->|?]%elem_of_cons; [left|right; auto].
  - intros ?. right. auto.
Qed.

Lemma pairwise_distinct_sublist a b :
  a `sublist_of` b → pairwise_distinct b → pairwise_distinct a.
Proof.
  induction 1 as [|x l1 l2 Hs IH|x l1 l2 Hs IH]; simpl; [done| |].
  - intros [Hk Hpd]. split; [|auto].
    intros k' Hk'. apply Hk. by eapply sublist_elem_of.
  - intros [_ Hpd]. auto.
Qed.

Lemma filter_all {A} (P : A → Prop) `{!∀ x, Decision (P x)} (l : list A) :
  (∀ x, x ∈ l → P x) → filter P l = l.
Proof.
  induction l as [|x l IH]; intros Hall; [done|].
  rewrite filter_cons_True by (apply Hall; left).
  f_equal. apply IH. intros y Hy. apply Hall. by right.
Qed.

Lemma remove_key_filter k (L : list value_type) :
  pairwise_distinct L.*1 →
  remove_key k L = filter (λ e : value_type, equal k e.1 = false) L.
Proof.
  induction L as [|e L IH]; [done|].
  rewrite fmap_cons. simpl. intros [Hk Hpd].
  destruct (equal k e.1) eqn:E.
  - rewrite filter_cons_False by (by rewrite E).
    symmetry. apply filter_all. intros e' He'.
    destruct (equal k e'.1) eqn:E'; [exfalso|done].
    destruct (Hk e'.1) as [Hf _]; [by apply list_elem_of_fmap_2|].
    rewrite (equal_trans e.1 k e'.1) in Hf; [done|by apply equal_sym|done].
  - rewrite filter_cons_True by done. f_equal. by apply IH.
Qed.

Lemma has_key_false k (L : list value_type) :
  (∀ e, e ∈ L → equal k e.1 = false) → has_key k L = false.
Proof.
  unfold has_key. induction L as [|e L IH]; intros H; [done|].
  simpl. rewrite (H e) by left. simpl. apply IH.
  intros e' He'. apply H. by right.
Qed.

Lemma inserted_snoc ops o : inserted (ops ++ [o]) = inserted ops ++ inserted_by o.
Proof.
  unfold inserted. rewrite bind_app. simpl. by rewrite app_nil_r.
Qed.

(** With pairwise-distinct insertions, the reference model of a run is
    what the run is expected to leave. *)
Lemma model_expected ops :
  pairwise_distinct (inserted ops) →
  model ops = expected ops ∧ (expected ops).*1 `sublist_of` inserted ops.
Proof.
  unfold model, expected.
  induction ops as [|o ops IH] using rev_ind; [done|].
  rewrite inserted_snoc, !fold_left_app. simpl.
  intros Hpd. destruct (pairwise_distinct_app _ _ Hpd) as [Hpd' Hcross].
  destruct (IH Hpd') as [-> Hsub].
  set (L := fold_left expected_step ops []) in *.
  assert (∀ k, k ∈ inserted_by o → has_key k L = false) as Hnew.
  { intros k Hk. apply has_key_false. intros e He.
    apply (Hcross e.1 k); [|done].
    eapply sublist_elem_of; [exact Hsub|]. by apply list_elem_of_fmap_2. }
  destruct o as [value|key|key v|]; simpl.
  - rewrite Hnew by left. split; [done|].
    rewrite fmap_app. by apply sublist_app.
  - rewrite app_nil_r. split.
    + apply remove_key_filter. by eapply pairwise_distinct_sublist.
    + etransitivity; [|exact Hsub]. apply fmap_sublist, sublist_filter.
  - rewrite Hnew by left. split; [done|].
    rewrite fmap_app. by apply sublist_app.
  - split; [done|]. apply sublist_nil_l.
Qed.

Lemma expected_inserts kvs L :
  fold_left expected_step (op_insert <$> kvs) L = L ++ kvs.
Proof.
  revert L. induction kvs as [|kv kvs IH]; intros L; simpl.
  - by rewrite app_nil_r.
  - by rewrite IH, <- app_assoc.
Qed.

(** C1: let a default-constructed map be used by a run of insertions
    ([insert] or [operator[]] assignment) whose keys are pairwise
    distinct, interleaved with any erases and clears, whatever growth or
    shrinking of the table they trigger.  The run returns normally and
    iterating from [begin()] to [end()] then yields the inserted pairs
    that were not erased since, in the order of their insertion: their
    keys are a subsequence of the keys in the order the run inserted
    them.  For a run of insertions alone, the pairs yielded are exactly
    the pairs of the run, in its order. *)
Theorem order_preservation addr h ops :
  pairwise_distinct (inserted ops) →
  (Z.of_nat (length ops) ≤ max_load)%Z →
  ∃ s, (construct ≫= λ _, run ops) (raw addr h) = Ok () s ∧
       traverse s = Ok (expected ops) s ∧
       (expected ops).*1 `sublist_of` inserted ops ∧
       (∀ kvs, ops = op_insert <$> kvs → expected ops = kvs).
Proof.
  intros Hpd Hlen.
  pose proof (construct_spec addr h) as Hw.
  apply wp_ok in Hw as ([] & s0 & E0 & HI0 & _).
  assert (load (obj s0) = 0%Z) as Hl0 by (by destruct HI0 as (_ & _ & _ & ? & _)).
  pose proof (run_spec ops s0 [] HI0) as Hw.
  rewrite Hl0 in Hw. specialize (Hw Hlen).
  apply wp_ok in Hw as ([] & s & E & l & HI & El & _).
  exists s. split_and!.
  - unfold mbind, M_bind, bind. by rewrite E0.
  - rewrite (traverse_spec _ _ (proj1 HI)), El.
    destruct (model_expected ops Hpd) as [<- _]. done.
  - by destruct (model_expected ops Hpd) as [_ Hsub].
  - intros kvs ->. unfold expected. by rewrite expected_inserts.
Qed.

(** C9, as the code has it: after [a], [b], [c] are inserted in that
    order into a default-constructed map, the iteration yields them in
    that order.  Inserting [a] again with a new value through [insert]
    returns [false] and leaves the state as it was, old value included;
    assigning the new value through [operator[]] keeps the order [a],
    [b], [c] and makes the new value the one stored at [a]. *)
Theorem reinsertion_stability addr h a b c va vb vc v' :
  equal b a = false → equal c a = false → equal c b = false →
  ∃ s, (construct ≫= λ _,
        run [op_insert (a, va); op_insert (b, vb); op_insert (c, vc)])
         (raw addr h) = Ok () s ∧
       traverse s = Ok [(a, va); (b, vb); (c, vc)] s ∧
       (∃ it, insert_ (a, v') s = Ok (it, false) s) ∧
       (∃ r s' s'', operator_index a s = Ok r s' ∧
                    ref_write r v' s' = Ok () s'' ∧
                    traverse s'' = Ok [(a, v'); (b, vb); (c, vc)] s'').
Proof.
  intros Hba Hca Hcb.
  pose proof (construct_spec addr h) as Hw.
  apply wp_ok in Hw as ([] & s0 & E0 & HI0 & _).
  assert (load (obj s0) = 0%Z) as Hl0 by (by destruct HI0 as (_ & _ & _ & ? & _)).
  pose proof (run_spec [op_insert (a, va); op_insert (b, vb); op_insert (c, vc)]
                s0 [] HI0) as Hw.
  rewrite Hl0 in Hw. specialize (Hw ltac:(by unfold max_load)).
  apply wp_ok in Hw as ([] & s & E & l & HI & El & _).
  simpl in El. rewrite Hba in El. simpl in El. rewrite Hca, Hcb in El.
  simpl in El.
  pose proof HI as (_ & _ & _ & Hld & _).
  assert (length l = 3%nat) as Hl3 by (by rewrite <- (length_fmap snd), El).
  assert (has_key a l.*2 = true) as Hka.
  { rewrite El. simpl. by rewrite equal_refl. }
  exists s. split_and!.
  - unfold mbind, M_bind, bind. by rewrite E0.
  - by rewrite (traverse_spec _ _ (proj1 HI)), El.
  - destruct (find_node a l) as [p|] eqn:Hf.
    + eexists. by eapply insert_dup.
    + apply find_node_has_key in Hf. congruence.
  - pose proof (exec_spec (op_assign a v') s l HI) as Hw.
    rewrite Hld, Hl3 in Hw. specialize (Hw ltac:(by unfold max_load)).
    apply wp_ok in Hw as ([] & s'' & E'' & l'' & HI'' & El'' & _).
    simpl in El''. rewrite Hka in El''. rewrite El in El''. simpl in El''.
    rewrite equal_refl in El''.
    simpl in E''. unfold mbind, M_bind, bind in E''.
    destruct (operator_index a s) as [r s'| | |] eqn:Eop; try done.
    exists r, s', s''. split_and!; [done|done|].
    by rewrite (traverse_spec _ _ (proj1 HI'')), El''.
Qed.

(** * Reaching a state by a run *)

Lemma bind_Ok {A B} (x : M A) (f : A → M B) s b s' :
  (x ≫= f) s = Ok b s' → ∃ a s1, x s = Ok a s1 ∧ f a s1 = Ok b s'.
Proof.
  unfold mbind, M_bind, bind. destruct (x s) as [a s1| | |]; [|done..].
  eauto.
Qed.

Lemma reachable_run ops : ∀ s l s',
  reachable s → Inv s l →
  (load (obj s) + Z.of_nat (length ops) ≤ max_load)%Z →
  run ops s = Ok () s' → reachable s'.
Proof.
  induction ops as [|o ops IH]; intros s l s' Hr HI Hb E; simpl in E.
  - by injection E as <-.
  - simpl in Hb. apply bind_Ok in E as ([] & s1 & E1 & E).
    pose proof (wp_inv _ _ _ _ _ (exec_spec o s l HI ltac:(lia)) E1)
      as (l1 & HI1 & _ & Hl1 & _).
    apply (IH s1 l1 s'); [|done| |done].
    + eapply reachable_exec; [done|lia|done].
    + destruct HI as (_ & _ & _ & Hld & _), HI1 as (_ & _ & _ & Hld1 & _).
      lia.
Qed.

Lemma reachable_after addr h ops s :
  (Z.of_nat (length ops) ≤ max_load)%Z →
  (construct ≫= λ _, run ops) (raw addr h) = Ok () s → reachable s.
Proof.
  intros Hb E. apply bind_Ok in E as ([] & s0 & E0 & E).
  pose proof (wp_inv _ _ _ _ _ (construct_spec addr h) E0) as (HI0 & _).
  apply (reachable_run ops s0 [] s); [by eapply reachable_new|done| |done].
  destruct HI0 as (_ & _ & _ & -> & _). simpl. lia.
Qed.

Lemma pairwise_distinctb_sound ks :
  pairwise_distinctb ks = true → pairwise_distinct ks.
Proof.
  induction ks as [|k ks IH]; simpl; [done|].
  intros [Hall Hrest]%andb_prop. split; [|by apply IH].
  intros k' Hk'. rewrite forallb_forall in Hall.
  apply list_elem_of_In in Hk'. specialize (Hall _ Hk').
  apply andb_prop in Hall as [H1 H2].
  by destruct (equal k k'), (equal k' k).
Qed.

(** * Further properties of the member functions *)

(** ** Lookup *)

Lemma present_find_node l kv key :
  distinct_keys l → kv ∈ l.*2 → equal key kv.1 = true →
  ∃ p, (p, kv) ∈ l ∧ find_node key l = Some p.
Proof.
  intros Hd Hin He. apply list_elem_of_fmap in Hin as ([p kv'] & -> & Hin).
  exists p. split; [done|]. by eapply find_node_elem.
Qed.

Lemma size_spec s l : Inv s l → size_ s = Ok (Z.of_nat (length l)) s.
Proof.
  intros (_ & _ & _ & Hld & _).
  unfold size_, mbind, M_bind, bind, get_this, mret, M_ret, ret.
  by rewrite Hld.
Qed.

Lemma empty_spec s l : Inv s l → empty_ s = Ok (bool_decide (l = [])) s.
Proof.
  intros (_ & _ & _ & Hld & _).
  unfold empty_, mbind, M_bind, bind, get_this, mret, M_ret, ret.
  rewrite Hld. by destruct l.
Qed.

(** X1: on a reachable map [at(key)], const or not, returns a reference
    to the value of the entry whose key equals [key] when there is one,
    and throws [index_out_of_bound] when there is none; either way the
    state is left as it was. *)
Theorem at_lookup s L key :
  reachable s → traverse s = Ok L s →
  (∀ kv, kv ∈ L → equal key kv.1 = true →
     ∃ r, at_ key s = Ok r s ∧ at_const key s = Ok r s ∧
          ref_read r s = Ok kv.2 s) ∧
  (has_key key L = false →
     at_ key s = Throw index_out_of_bound s ∧
     at_const key s = Throw index_out_of_bound s).
Proof.
  intros Hr Ht. destruct (reachable_contents _ _ Hr Ht) as (l & HI & ->).
  split.
  - intros kv Hin He.
    destruct (present_find_node l kv key) as (p & Hp & Hf);
      [by destruct HI as (_ & _ & ? & _)|done|done|].
    exists p. split_and!.
    + by eapply at_found.
    + change (at_const key s) with (at_ key s). by eapply at_found.
    + by apply (ref_read_live s l p kv).
  - intros Hk. apply find_node_has_key in Hk.
    change (at_const key s) with (at_ key s). split; by eapply at_absent.
Qed.

(** X2: on a reachable map that has an entry with a key equal to [key],
    [operator[]] inserts nothing: it returns the reference [at(key)]
    returns, which reads the value of that entry, and leaves the state as
    it was. *)
Theorem operator_index_present s L key kv :
  reachable s → traverse s = Ok L s → kv ∈ L → equal key kv.1 = true →
  ∃ r, operator_index key s = Ok r s ∧ at_ key s = Ok r s ∧
       ref_read r s = Ok kv.2 s.
Proof.
  intros Hr Ht Hin He. destruct (reachable_contents _ _ Hr Ht) as (l & HI & ->).
  destruct (present_find_node l kv key) as (p & Hp & Hf);
    [by destruct HI as (_ & _ & ? & _)|done|done|].
  exists p. split_and!.
  - by eapply operator_index_found.
  - by eapply at_found.
  - by apply (ref_read_live s l p kv).
Qed.

(** X3: on a reachable map [count(key)] is 1 when an entry with a key
    equal to [key] is present and 0 when none is, and the state is left as
    it was. *)
Theorem count_presence s L key :
  reachable s → traverse s = Ok L s →
  count key s = Ok (if has_key key L then 1 else 0)%Z s.
Proof.
  intros Hr Ht. destruct (reachable_contents _ _ Hr Ht) as (l & HI & ->).
  rewrite (count_spec s l key HI).
  destruct (find_node key l) as [p|] eqn:Hf.
  - destruct (has_key key l.*2) eqn:Hk; [done|].
    apply find_node_has_key in Hk. congruence.
  - apply find_node_has_key in Hf. by rewrite Hf.
Qed.

(** X4: on a reachable map [size()] is the number of pairs the iteration
    from [begin()] to [end()] yields, and [empty()] holds exactly when
    that number is zero. *)
Theorem size_counts_entries s L :
  reachable s → traverse s = Ok L s →
  size_ s = Ok (Z.of_nat (length L)) s ∧
  empty_ s = Ok (bool_decide (L = [])) s.
Proof.
  intros Hr Ht. destruct (reachable_contents _ _ Hr Ht) as (l & HI & ->).
  rewrite (size_spec s l HI), (empty_spec s l HI), length_fmap.
  split; [done|]. by destruct l.
Qed.

(** X5: on a reachable map [find(key)] returns an iterator of this map and
    leaves the state as it was: the iterator is [end()] when no entry has
    a key equal to [key], and otherwise it is not [end()] and points at
    the entry with that key. *)
Theorem find_presence s L key :
  reachable s → traverse s = Ok L s →
  ∃ it, find key s = Ok it s ∧ source it = this (obj s) ∧
        (has_key key L = false → end_ s = Ok it s) ∧
        (∀ kv, kv ∈ L → equal key kv.1 = true →
           it_at it ≠ tl (obj s) ∧ iterator_star it s = Ok kv s).
Proof.
  intros Hr Ht. destruct (reachable_contents _ _ Hr Ht) as (l & HI & ->).
  eexists. split; [by apply find_found|]. split; [done|]. split.
  - intros Hk. apply find_node_has_key in Hk. by rewrite Hk.
  - intros kv Hin He.
    destruct (present_find_node l kv key) as (p & Hp & Hf);
      [by destruct HI as (_ & _ & ? & _)|done|done|].
    rewrite Hf. cbn [it_at default]. split.
    + by destruct (find_node_live _ _ _ _ _ (proj1 HI) Hf).
    + by eapply iterator_star_live.
Qed.


(** ** Insertion, removal, [clear] *)

Lemma find_node_app_l x l1 l2 p :
  find_node x l1 = Some p → find_node x (l1 ++ l2) = Some p.
Proof.
  unfold find_node. rewrite filter_app.
  by destruct (filter _ l1) as [|e r].
Qed.

Lemma find_node_removed k l1 p kv l2 :
  distinct_keys (l1 ++ (p, kv) :: l2) → equal k kv.1 = true →
  find_node k (l1 ++ l2) = None.
Proof.
  intros Hd Hk. apply find_node_None. intros e He.
  destruct (equal k e.2.1) eqn:E; [exfalso|done].
  assert (equal kv.1 e.2.1 = true) as Hkv
    by (eapply equal_trans; [by apply equal_sym|done]).
  apply elem_of_app in He as [He|He].
  - apply list_elem_of_lookup in He as [i Hi].
    pose proof (lookup_lt_Some _ _ _ Hi) as Hlt.
    assert (length l1 = i); [|lia].
    eapply (Hd (length l1) i (p, kv) e); [|by rewrite lookup_app_l|done].
    by rewrite list_lookup_middle.
  - apply list_elem_of_lookup in He as [i Hi].
    assert (length l1 = length l1 + S i)%nat; [|lia].
    eapply (Hd (length l1) (length l1 + S i)%nat (p, kv) e); [| |done].
    + by rewrite list_lookup_middle.
    + rewrite lookup_app_r by lia.
      replace (length l1 + S i - length l1)%nat with (S i) by lia. done.
Qed.

(** X6: inserting a pair whose key is absent into a reachable map returns
    normally with the flag [true] and an iterator at the new entry; the
    pair is appended at the tail of the iteration order, the size goes up
    by one, and [find] and [at] on its key then reach it. *)
Theorem insert_new_key s L value :
  reachable s → (load (obj s) < max_load)%Z →
  traverse s = Ok L s → has_key value.1 L = false →
  ∃ it s', insert_ value s = Ok (it, true) s' ∧
           traverse s' = Ok (L ++ [value]) s' ∧
           iterator_star it s' = Ok value s' ∧
           find value.1 s' = Ok it s' ∧
           size_ s' = Ok (Z.of_nat (length L) + 1)%Z s' ∧
           ∃ r, at_ value.1 s' = Ok r s' ∧ ref_read r s' = Ok value.2 s'.
Proof.
  intros Hr Hlt Ht Hk. destruct (reachable_contents _ _ Hr Ht) as (l & HI & ->).
  apply find_node_has_key in Hk.
  pose proof (insert_new s l value HI Hk Hlt) as Hw.
  apply wp_ok in Hw as (r & s' & E & p & -> & HI' & _ & _ & _ & Hthis & _).
  assert ((p, value) ∈ l ++ [(p, value)]) as Hin
    by (apply elem_of_app; right; left).
  assert (find_node value.1 (l ++ [(p, value)]) = Some p) as Hf.
  { eapply find_node_elem; [by destruct HI' as (_ & _ & ? & _)|done|].
    apply equal_refl. }
  exists (mkIter (this (obj s)) p), s'. split_and!.
  - done.
  - rewrite (traverse_spec _ _ (proj1 HI')). by rewrite fmap_app.
  - by eapply iterator_star_live.
  - by rewrite (find_found _ _ _ HI'), Hf, Hthis.
  - rewrite (size_spec _ _ HI'), length_app, length_fmap. simpl.
    f_equal. lia.
  - exists p. split; [by eapply at_found|].
    by apply (ref_read_live s' _ p value HI').
Qed.

(** X7: on a reachable map that has an entry with a key equal to [key],
    erasing the iterator [find(key)] returns normally; the entry is taken
    out of the iteration sequence and the other pairs keep their order,
    the size goes down by one, and afterwards [count(key)] is 0 and
    [find(key)] is [end()]. *)
Theorem erase_removes s L key :
  reachable s → traverse s = Ok L s → has_key key L = true →
  ∃ it s', find key s = Ok it s ∧ erase it s = Ok () s' ∧
           traverse s' = Ok (remove_key key L) s' ∧
           size_ s' = Ok (Z.of_nat (length L) - 1)%Z s' ∧
           count key s' = Ok 0%Z s' ∧
           ∃ e, find key s' = Ok e s' ∧ end_ s' = Ok e s'.
Proof.
  intros Hr Ht Hk. destruct (reachable_contents _ _ Hr Ht) as (l & HI & ->).
  destruct (find_node key l) as [p|] eqn:Hf.
  2:{ apply find_node_has_key in Hf. congruence. }
  destruct (find_node_split _ _ _ Hf) as (l1 & kv & l2 & -> & Hkv & Hn).
  pose proof (erase_spec s l1 p kv l2 HI) as Hw.
  apply wp_ok in Hw as ([] & s' & E & HI' & _).
  assert (find_node key (l1 ++ l2) = None) as Hf'.
  { eapply find_node_removed; [by destruct HI as (_ & _ & ? & _)|done]. }
  exists (mkIter (this (obj s)) p), s'. split_and!.
  - by rewrite (find_found _ _ _ HI), Hf.
  - done.
  - rewrite (traverse_spec _ _ (proj1 HI')).
    rewrite !fmap_app, fmap_cons. simpl. by rewrite remove_key_middle.
  - rewrite (size_spec _ _ HI'), length_fmap, !length_app. simpl.
    f_equal. lia.
  - by rewrite (count_spec _ _ _ HI'), Hf'.
  - eexists. split; [by apply find_found|]. by rewrite Hf'.
Qed.

(** X8: on a reachable map that has no entry with a key equal to [key],
    [erase(find(key))] throws [invalid_iterator], since [find] returns
    [end()], and the state is left as it was. *)
Theorem erase_absent_throws s L key :
  reachable s → traverse s = Ok L s → has_key key L = false →
  (find key ≫= erase) s = Throw invalid_iterator s.
Proof.
  intros Hr Ht Hk. destruct (reachable_contents _ _ Hr Ht) as (l & HI & ->).
  apply find_node_has_key in Hk.
  change ((find key ≫= erase) s) with (bind (find key) erase s).
  unfold bind. rewrite (find_found _ _ _ HI), Hk. simpl.
  unfold erase. rewrite bind_get_this. cbn [it_at source].
  rewrite decide_True by (by left). done.
Qed.

(** X9: [clear()] on a reachable map returns normally and leaves an empty
    map: the iteration yields nothing, [begin()] is [end()], the size is
    0, [count] is 0 for every key, and the capacity is back at 13. *)
Theorem clear_empties s :
  reachable s →
  ∃ s', clear s = Ok () s' ∧ traverse s' = Ok [] s' ∧
        size_ s' = Ok 0%Z s' ∧ empty_ s' = Ok true s' ∧
        len (obj s') = LEN ∧
        (∃ it, begin_ s' = Ok it s' ∧ end_ s' = Ok it s') ∧
        ∀ key, count key s' = Ok 0%Z s'.
Proof.
  intros Hr. destruct (reachable_Inv _ Hr) as [l HI].
  pose proof (clear_spec s l HI) as Hw.
  apply wp_ok in Hw as ([] & s' & E & HI' & _ & _ & _ & Hlen & _).
  exists s'. split_and!; [done| | | |done| |].
  - by rewrite (traverse_spec _ _ (proj1 HI')).
  - by rewrite (size_spec _ _ HI').
  - by rewrite (empty_spec _ _ HI').
  - pose proof (order_list_hd_next _ _ _ (proj1 HI')) as Hn.
    destruct (mem s' !! hd (obj s')) as [nh|] eqn:Hh; [|done].
    simpl in Hn. injection Hn as Hn.
    exists (mkIter (this (obj s')) (tl (obj s'))). split; [|done].
    unfold begin_, mbind, M_bind, bind, get_this, deref, mret, M_ret, ret.
    by rewrite Hh, Hn.
  - intros key. by rewrite (count_spec _ _ _ HI').
Qed.


(** X11: in a reachable map no two entries of the iteration sequence
    have equal keys. *)
Theorem keys_distinct s L i j kv kv' :
  reachable s → traverse s = Ok L s →
  L !! i = Some kv → L !! j = Some kv' → equal kv.1 kv'.1 = true → i = j.
Proof.
  intros Hr Ht Hi Hj He.
  destruct (reachable_contents _ _ Hr Ht) as (l & (_ & _ & Hd & _) & ->).
  rewrite list_lookup_fmap in Hi, Hj.
  destruct (l !! i) as [x|] eqn:Hx; [|done].
  destruct (l !! j) as [y|] eqn:Hy; [|done].
  simpl in Hi, Hj. injection Hi as <-. injection Hj as <-.
  by eapply Hd.
Qed.

(** X12: the default constructor returns normally, whatever the store
    and the address of the object, and leaves an empty map of capacity
    13: the iteration yields nothing, the size is 0, [at] throws
    [index_out_of_bound] and [count] is 0 for every key; the cells the
    store held before are as they were. *)
Theorem construct_empty addr h :
  ∃ s, construct (raw addr h) = Ok () s ∧
       traverse s = Ok [] s ∧ size_ s = Ok 0%Z s ∧ empty_ s = Ok true s ∧
       len (obj s) = LEN ∧ this (obj s) = addr ∧
       (∀ key, at_ key s = Throw index_out_of_bound s ∧
               count key s = Ok 0%Z s) ∧
       ∀ q n, h !! q = Some n → mem s !! q = Some n.
Proof.
  pose proof (construct_spec addr h) as Hw.
  apply wp_ok in Hw as ([] & s & E & HI & Hthis & Hlen & Hpres & _).
  exists s. split_and!; [done| | | |done|done| |done].
  - by rewrite (traverse_spec _ _ (proj1 HI)).
  - by rewrite (size_spec _ _ HI).
  - by rewrite (empty_spec _ _ HI).
  - intros key. split; [by eapply at_absent|by rewrite (count_spec _ _ _ HI)].
Qed.

(** X13: in every reachable state the capacity is one of 13, 27, 55, ...:
    one less than [14 * 2^k], hence odd. *)
Theorem capacity_form s :
  reachable s →
  (∃ k : nat, len (obj s) = 14 * 2 ^ Z.of_nat k - 1)%Z ∧
  Z.odd (len (obj s)) = true.
Proof.
  intros Hr. destruct (reachable_Inv _ Hr) as (l & _ & _ & _ & _ & _ & [k Hk]).
  split; [exists k; lia|].
  replace (len (obj s)) with (1 + 2 * (7 * 2 ^ Z.of_nat k - 1))%Z by lia.
  by rewrite Z.odd_add_mul_2.
Qed.

(** X14: nodes do not move.  On a reachable map let [find(key)] return
    an iterator other than [end()].  After any [insert], whether it
    grows the table or not, and after the erase of any other live
    iterator, whether it shrinks the table or not, that iterator still
    points at the pair it pointed at and is still what [find(key)]
    returns. *)
Theorem iterators_stay_valid s key it :
  reachable s → (load (obj s) < max_load)%Z →
  find key s = Ok it s → it_at it ≠ tl (obj s) →
  ∃ kv, iterator_star it s = Ok kv s ∧
    (∀ value, ∃ r s', insert_ value s = Ok r s' ∧
                      iterator_star it s' = Ok kv s' ∧
                      find key s' = Ok it s') ∧
    (∀ key' it', find key' s = Ok it' s → it_at it' ≠ tl (obj s) →
                 it_at it' ≠ it_at it →
                 ∃ s', erase it' s = Ok () s' ∧
                       iterator_star it s' = Ok kv s' ∧
                       find key s' = Ok it s').
Proof.
  intros Hr Hlt Hf Hit. destruct (reachable_Inv _ Hr) as [l HI].
  rewrite (find_found _ _ _ HI) in Hf. injection Hf as <-. cbn [it_at] in *.
  destruct (find_node key l) as [p|] eqn:Hfn; [|done]. simpl in *.
  destruct (find_node_Some _ _ _ Hfn) as (kv & Hin & Hk).
  exists kv. split_and!.
  - by eapply iterator_star_live.
  - intros value. destruct (find_node value.1 l) as [p'|] eqn:Hv.
    + exists (mkIter (this (obj s)) p', false), s. split_and!.
      * by eapply insert_dup.
      * by eapply iterator_star_live.
      * by rewrite (find_found _ _ _ HI), Hfn.
    + pose proof (insert_new s l value HI Hv Hlt) as Hw.
      apply wp_ok in Hw as (r & s' & E & p' & _ & HI' & _ & _ & _ & Hthis & _ & Htl & _).
      exists r, s'. split_and!; [done| |].
      * eapply iterator_star_live; [done|]. apply elem_of_app. by left.
      * rewrite (find_found _ _ _ HI'), (find_node_app_l _ _ _ _ Hfn), Hthis.
        done.
  - intros key' it' Hf' Hit' Hne.
    rewrite (find_found _ _ _ HI) in Hf'. injection Hf' as <-. cbn [it_at] in *.
    destruct (find_node key' l) as [p'|] eqn:Hfn'; [|done]. simpl in *.
    destruct (find_node_split _ _ _ Hfn') as (l1 & kv' & l2 & -> & _).
    pose proof (erase_spec s l1 p' kv' l2 HI) as Hw.
    apply wp_ok in Hw as ([] & s' & E & HI' & Hthis & _).
    assert ((p, kv) ∈ l1 ++ l2) as Hin'.
    { apply elem_of_app in Hin as [?|Hin]; [apply elem_of_app; by left|].
      apply elem_of_cons in Hin as [[= -> ->]|?]; [done|].
      apply elem_of_app. by right. }
    exists s'. split_and!; [done| |].
    + by eapply iterator_star_live.
    + rewrite (find_found _ _ _ HI'), Hthis.
      rewrite (find_node_elem key (l1 ++ l2) p kv); [done| |done|done].
      by destruct HI' as (_ & _ & ? & _).
Qed.


(** ** Iterators *)

Lemma position_lookup m (l : list entry) k p kv :
  l !! k = Some (p, kv) → position m l k = p.
Proof. intros Hk. unfold position. by rewrite list_lookup_fmap, Hk. Qed.

Lemma position_end m (l : list entry) : position m l (length l) = tl m.
Proof.
  unfold position. rewrite lookup_ge_None_2; [done|]. by rewrite length_fmap.
Qed.

Lemma position_head m (l : list entry) :
  default (tl m) (head l.*1) = position m l 0.
Proof. unfold position. by rewrite head_lookup. Qed.

Lemma position_drop m (l : list entry) k :
  default (tl m) (head (drop k l).*1) = position m l k.
Proof.
  unfold position. rewrite head_lookup, fmap_drop, lookup_drop.
  by rewrite Nat.add_0_r.
Qed.

Lemma snoc_lookup {A} (x a : A) (l X : list A) k :
  x :: l = X ++ [a] → length l = k → (x :: l) !! k = Some a.
Proof.
  intros E Hk. rewrite E.
  assert (length X = k) as <-.
  { apply (f_equal length) in E. rewrite length_app in E. simpl in E. lia. }
  by rewrite list_lookup_middle.
Qed.

Lemma begin_spec s l :
  order_list (mem s) (obj s) l →
  begin_ s = Ok (mkIter (this (obj s)) (position (obj s) l 0)) s.
Proof.
  intros Ho. pose proof (order_list_hd_next _ _ _ Ho) as Hn.
  destruct (mem s !! hd (obj s)) as [nh|] eqn:Hh; [|done].
  simpl in Hn. injection Hn as Hn.
  unfold begin_, mbind, M_bind, bind, get_this, deref, mret, M_ret, ret.
  by rewrite Hh, Hn, position_head.
Qed.

Lemma end_spec s l :
  end_ s = Ok (mkIter (this (obj s)) (position (obj s) l (length l))) s.
Proof. by rewrite position_end. Qed.

Lemma star_position s l k kv src :
  Inv s l → l.*2 !! k = Some kv →
  iterator_star (mkIter src (position (obj s) l k)) s = Ok kv s.
Proof.
  intros HI Hk. rewrite list_lookup_fmap in Hk.
  destruct (l !! k) as [[p kv']|] eqn:Hl; [|done].
  simpl in Hk. injection Hk as ->.
  rewrite (position_lookup _ _ _ _ _ Hl).
  eapply iterator_star_live; [done|]. by eapply list_elem_of_lookup_2.
Qed.

Lemma incr_position s l k src :
  order_list (mem s) (obj s) l → (k < length l)%nat →
  iterator_incr (mkIter src (position (obj s) l k)) s =
  Ok (mkIter src (position (obj s) l (S k))) s.
Proof.
  intros Ho Hk. destruct (lookup_lt_is_Some_2 l k Hk) as [[p kv] Hl].
  rewrite (position_lookup _ _ _ _ _ Hl).
  pose proof (take_drop_middle _ _ _ Hl) as El.
  rewrite <- El in Ho.
  pose proof (order_list_next _ _ _ _ _ _ Ho) as Hn.
  destruct (order_list_distinct _ _ _ Ho) as [_ Hne].
  assert (p ≠ tl (obj s)) as Hp.
  { apply Hne. rewrite fmap_app, fmap_cons. apply elem_of_app. right. left. }
  destruct (mem s !! p) as [n|] eqn:Hm; [|done].
  simpl in Hn. injection Hn as Hn. rewrite position_drop in Hn.
  unfold iterator_incr, mbind, M_bind, bind, get_this, deref, mret, M_ret, ret.
  cbn [it_at source]. rewrite decide_False by done. by rewrite Hm, Hn.
Qed.

Lemma incr_end s l src :
  iterator_incr (mkIter src (position (obj s) l (length l))) s =
  Throw invalid_iterator s.
Proof.
  rewrite position_end.
  unfold iterator_incr, mbind, M_bind, bind, get_this. cbn [it_at].
  by rewrite decide_True.
Qed.

(** The node before the one at position [k]: [hd] for the first position,
    the node one position back otherwise. *)
Lemma position_prev s l k :
  order_list (mem s) (obj s) l → (k ≤ length l)%nat →
  ∃ n, mem s !! position (obj s) l k = Some n ∧
       (hd (obj s) :: l.*1) !! k = Some (time_lst n).
Proof.
  intros Ho Hk. destruct (decide (k = length l)) as [->|Hne].
  - rewrite position_end.
    destruct (order_list_tl_prev _ _ _ Ho) as (nt & na & X & Hnt & _ & EX & _).
    exists nt. split; [done|].
    eapply snoc_lookup; [done|]. by rewrite length_fmap.
  - assert (k < length l)%nat as Hlt by lia.
    destruct (lookup_lt_is_Some_2 l k Hlt) as [[p kv] Hl].
    rewrite (position_lookup _ _ _ _ _ Hl).
    pose proof (take_drop_middle _ _ _ Hl) as El.
    pose proof Ho as Ho'. rewrite <- El in Ho'.
    destruct (order_list_neighbours _ _ _ _ _ _ Ho')
      as (np & na & nb & X & Y & Hnp & _ & _ & _ & EX & _).
    exists np. split; [done|].
    assert ((hd (obj s) :: (take k l).*1) !! k = Some (time_lst np)) as Hlk.
    { eapply snoc_lookup; [done|]. rewrite length_fmap, length_take. lia. }
    destruct k as [|k]; [done|]. simpl in *.
    rewrite fmap_take, lookup_take_lt in Hlk by lia. done.
Qed.

Lemma decr_position s l k src :
  order_list (mem s) (obj s) l → (k < length l)%nat →
  iterator_decr (mkIter src (position (obj s) l (S k))) s =
  Ok (mkIter src (position (obj s) l k)) s.
Proof.
  intros Ho Hk.
  destruct (position_prev s l (S k) Ho) as (n & Hn & Hp); [lia|].
  simpl in Hp.
  assert (time_lst n = position (obj s) l k) as E.
  { unfold position. by rewrite Hp. }
  assert (time_lst n ≠ hd (obj s)) as Hne.
  { destruct (order_list_distinct _ _ _ Ho) as [_ Hd].
    apply Hd. by eapply list_elem_of_lookup_2. }
  unfold iterator_decr, mbind, M_bind, bind, get_this, deref, mret, M_ret, ret.
  cbn [it_at source]. rewrite Hn. rewrite decide_False by done. by rewrite E.
Qed.

Lemma decr_begin s l src :
  order_list (mem s) (obj s) l →
  iterator_decr (mkIter src (position (obj s) l 0)) s =
  Throw invalid_iterator s.
Proof.
  intros Ho.
  destruct (position_prev s l 0 Ho) as (n & Hn & Hp); [lia|].
  simpl in Hp. injection Hp as Hp.
  unfold iterator_decr, mbind, M_bind, bind, get_this, deref.
  cbn [it_at]. rewrite Hn. by rewrite decide_True.
Qed.

Lemma incr_n_spec s l src n : ∀ k,
  order_list (mem s) (obj s) l → (k + n ≤ length l)%nat →
  incr_n n (mkIter src (position (obj s) l k)) s =
  Ok (mkIter src (position (obj s) l (k + n))) s.
Proof.
  induction n as [|n IH]; intros k Ho Hk; simpl.
  - by rewrite Nat.add_0_r.
  - unfold mbind, M_bind, bind. rewrite incr_position by (done || lia).
    rewrite (IH (S k)) by (done || lia). do 3 f_equal. lia.
Qed.

Lemma decr_n_spec s l src n : ∀ k,
  order_list (mem s) (obj s) l → (n ≤ k ≤ length l)%nat →
  decr_n n (mkIter src (position (obj s) l k)) s =
  Ok (mkIter src (position (obj s) l (k - n))) s.
Proof.
  induction n as [|n IH]; intros k Ho Hk; simpl.
  - by rewrite Nat.sub_0_r.
  - destruct k as [|k]; [lia|].
    unfold mbind, M_bind, bind. rewrite decr_position by (done || lia).
    rewrite (IH k) by (done || lia). done.
Qed.

(** X15: on a reachable map whose iteration yields [L], [n] increments
    from [begin()], for [n] up to the length of [L], return normally
    with an iterator that points at pair [n] of [L], or is [end()] when
    [n] is the length of [L]; incrementing [end()] throws
    [invalid_iterator].  Nothing changes the state. *)
Theorem iterator_forward s L n :
  reachable s → traverse s = Ok L s → (n ≤ length L)%nat →
  ∃ it, (begin_ ≫= incr_n n) s = Ok it s ∧
        (∀ kv, L !! n = Some kv → iterator_star it s = Ok kv s) ∧
        (n = length L →
         end_ s = Ok it s ∧ iterator_incr it s = Throw invalid_iterator s).
Proof.
  intros Hr Ht Hn. destruct (reachable_contents _ _ Hr Ht) as (l & HI & ->).
  rewrite length_fmap in *.
  exists (mkIter (this (obj s)) (position (obj s) l n)). split_and!.
  - change ((begin_ ≫= incr_n n) s) with (bind begin_ (incr_n n) s).
    unfold bind. rewrite (begin_spec s l (proj1 HI)).
    by rewrite (incr_n_spec s l _ n 0 (proj1 HI)).
  - intros kv Hkv. by eapply star_position.
  - intros ->. split; [by rewrite position_end|apply incr_end].
Qed.

(** X16: on a reachable map whose iteration yields [L], [n] decrements
    from [end()], for [n] up to the length of [L], return normally with
    an iterator that points at the pair [n] places from the end of [L];
    after as many decrements as [L] has pairs the iterator is [begin()],
    and decrementing [begin()] throws [invalid_iterator]: so does
    decrementing [end()] of an empty map. *)
Theorem iterator_backward s L n :
  reachable s → traverse s = Ok L s → (n ≤ length L)%nat →
  ∃ it, (end_ ≫= decr_n n) s = Ok it s ∧
        (∀ kv, (0 < n)%nat → L !! (length L - n)%nat = Some kv →
               iterator_star it s = Ok kv s) ∧
        (n = length L →
         begin_ s = Ok it s ∧ iterator_decr it s = Throw invalid_iterator s).
Proof.
  intros Hr Ht Hn. destruct (reachable_contents _ _ Hr Ht) as (l & HI & ->).
  rewrite length_fmap in *.
  exists (mkIter (this (obj s)) (position (obj s) l (length l - n))). split_and!.
  - change ((end_ ≫= decr_n n) s) with (bind end_ (decr_n n) s).
    unfold bind. rewrite (end_spec s l).
    by rewrite (decr_n_spec s l _ n (length l) (proj1 HI)).
  - intros kv _ Hkv. by eapply star_position.
  - intros ->. rewrite Nat.sub_diag.
    split; [by apply begin_spec; destruct HI|apply decr_begin; by destruct HI].
Qed.

(** X17: on a reachable map let [find(key)] return an iterator other
    than [end()].  Incrementing and then decrementing it gives it back;
    if it is not [begin()], so does decrementing and then incrementing
    it; and if it is [begin()], decrementing it throws
    [invalid_iterator]. *)
Theorem incr_decr_round_trip s key it :
  reachable s → find key s = Ok it s → it_at it ≠ tl (obj s) →
  (iterator_incr it ≫= iterator_decr) s = Ok it s ∧
  (begin_ s ≠ Ok it s → (iterator_decr it ≫= iterator_incr) s = Ok it s) ∧
  (begin_ s = Ok it s → iterator_decr it s = Throw invalid_iterator s).
Proof.
  intros Hr Hf Hit. destruct (reachable_Inv _ Hr) as [l HI].
  pose proof (proj1 HI) as Ho.
  rewrite (find_found _ _ _ HI) in Hf. injection Hf as <-. cbn [it_at] in *.
  destruct (find_node key l) as [p|] eqn:Hfn; [|done]. simpl in *.
  destruct (find_node_split _ _ _ Hfn) as (l1 & kv & l2 & El & _).
  assert (l !! length l1 = Some (p, kv)) as Hl
    by (by rewrite El, list_lookup_middle).
  pose proof (lookup_lt_Some _ _ _ Hl) as Hlt.
  rewrite <- (position_lookup (obj s) _ _ _ _ Hl).
  rewrite (begin_spec s l Ho).
  split_and!.
  - change ((iterator_incr ?i ≫= iterator_decr) s)
      with (bind (iterator_incr i) iterator_decr s).
    unfold bind. rewrite incr_position by done.
    by rewrite decr_position.
  - intros Hb. destruct (length l1) as [|k] eqn:Ek; [done|].
    change ((iterator_decr ?i ≫= iterator_incr) s)
      with (bind (iterator_decr i) iterator_incr s).
    unfold bind. rewrite decr_position by (done || lia).
    by rewrite incr_position by (done || lia).
  - intros [= Hb]. rewrite <- Hb. by apply decr_begin.
Qed.


(** ** Assignment *)

Lemma operator_assign_spec s lB (A : linked_hashmap) lA :
  Inv s lB → order_list (mem s) A lA → distinct_keys lA →
  (Z.of_nat (length lA) ≤ max_load)%Z → capacity (len A) →
  (∀ q, q ∈ cells A lA → q ∉ cells (obj s) lB) →
  this (obj s) ≠ this A →
  wp (operator_assign A) s (λ _ s', ∃ lB',
    Inv s' lB' ∧ lB'.*2 = lA.*2 ∧ this (obj s') = this (obj s) ∧
    order_list (mem s') A lA).
Proof.
  intros HI HoA HdA HmaxA HcapA Hsep Hne.
  pose proof HI as (Ho & _ & _ & Hld & Hmax & _).
  unfold operator_assign. apply wp_bind, wp_get_this.
  rewrite decide_True by done.
  apply wp_bind. eapply wp_mono; [by apply (ClearNode_spec s lB)|].
  intros _ s1 (Ho1 & Hc1 & Hthis & Hhd & Htl & Hlen & Hfr).
  apply wp_bind, wp_set_this. apply wp_bind, wp_set_this. proj.
  assert (order_list (mem s1) A lA) as HoA1.
  { eapply order_list_preserved; [|exact HoA].
    intros q n Hq Hin. by rewrite Hfr by (by apply Hsep). }
  pose proof (order_list_hd_next _ _ _ HoA1) as Hn.
  destruct (mem s1 !! hd A) as [nh|] eqn:Hh; [|done].
  simpl in Hn. injection Hn as Hn.
  apply wp_bind. eapply wp_deref; [done|].
  apply wp_bind, wp_rounds. proj. rewrite Hn.
  pose proof (capacity_ge _ HcapA) as Hge. unfold LEN in Hge.
  assert (∀ q, q ∈ cells A lA → q ∉ cells (obj s1) []) as Hsep1.
  { intros q Hq Hin. apply (Hsep q Hq). unfold cells in *. simpl in Hin.
    rewrite Hhd, Htl in Hin.
    apply elem_of_cons in Hin as [->|[->|[]%elem_of_nil]%elem_of_cons].
    - left.
    - right. apply elem_of_app. right. left. }
  eapply wp_mono.
  { apply (copy_loop_spec lA _ [] []); proj.
    - done.
    - done.
    - done.
    - split_and!; proj.
      + by eapply order_list_obj; [| |exact Ho1].
      + apply bucket_table_empty; proj; [lia|done].
      + by intros i j x y ?.
      + destruct Hc1 as (Hl1 & Hm1 & _). by split_and!.
    - done.
    - done.
    - done.
    - pose proof (order_list_length _ _ _ HoA1). lia. }
  intros [] s' (lB' & HI' & EB & Hthis' & Hpres & _). proj.
  exists lB'. split_and!; [done|done|congruence|].
  eapply order_list_preserved; [|exact HoA1].
  intros q n Hq Hin. apply Hpres; [done|]. by apply Hsep1.
Qed.

(** X18: let [A] be a reachable map and let [B] be a map at another
    address of the same store, default-constructed and then used by any
    run.  The assignment [B = A] returns normally; afterwards iterating
    [B] yields the pairs of [A] in the order of [A], [size()] of [B] is
    their number, and iterating [A] still yields what it yielded.
    Assigning a map to itself changes nothing. *)
Theorem assignment_copies addr h A L ops :
  reachable (mkState h A) →
  traverse (mkState h A) = Ok L (mkState h A) →
  addr ≠ this A → (Z.of_nat (length ops) ≤ max_load)%Z →
  ∃ sB sB', (construct ≫= λ _, run ops) (raw addr h) = Ok () sB ∧
            operator_assign A sB = Ok () sB' ∧
            traverse sB' = Ok L sB' ∧
            size_ sB' = Ok (Z.of_nat (length L)) sB' ∧
            traverse (mkState (mem sB') A) = Ok L (mkState (mem sB') A) ∧
            operator_assign (obj sB') sB' = Ok () sB'.
Proof.
  intros Hr Ht Haddr Hlen.
  destruct (reachable_contents _ _ Hr Ht) as (lA & HIA & ->).
  pose proof HIA as (HoA & _ & HdA & HldA & HmaxA & HcapA). proj.
  pose proof (construct_spec addr h) as Hw.
  apply wp_ok in Hw as ([] & s0 & E0 & HI0 & Hthis0 & _ & Hpres0 & Hhd0 & Htl0).
  assert (load (obj s0) = 0%Z) as Hl0 by (by destruct HI0 as (_ & _ & _ & ? & _)).
  pose proof (run_spec ops s0 [] HI0) as Hw.
  rewrite Hl0 in Hw. specialize (Hw Hlen).
  apply wp_ok in Hw as ([] & sB & E & lB & HIB & _ & Hpres & Hcells & Hthis).
  assert (∀ q, q ∈ cells A lA → ∃ n, h !! q = Some n ∧ q ∉ cells (obj s0) [])
    as HA0.
  { intros q Hq. destruct (order_list_alloc _ _ _ _ HoA Hq) as [_ [n Hn]].
    exists n. split; [done|]. unfold cells. simpl.
    rewrite !elem_of_cons, elem_of_nil. intros [->|[->|[]]]; congruence. }
  assert (order_list (mem sB) A lA) as HoAB.
  { eapply order_list_preserved; [|exact HoA]. intros q n Hq Hin. proj.
    destruct (HA0 _ Hin) as (n' & Hn' & Hq0).
    apply Hpres; [by apply Hpres0|done]. }
  assert (∀ q, q ∈ cells A lA → q ∉ cells (obj sB) lB) as Hsep.
  { intros q Hq Hin. destruct (HA0 _ Hq) as (n & Hn & Hq0).
    destruct (Hcells _ Hin) as [?|Hnone]; [done|].
    by rewrite (Hpres0 _ _ Hn) in Hnone. }
  pose proof (operator_assign_spec sB lB A lA HIB HoAB HdA) as Hw.
  rewrite <- HldA in Hw. specialize (Hw HmaxA HcapA Hsep).
  rewrite Hthis, Hthis0 in Hw. specialize (Hw Haddr).
  apply wp_ok in Hw as ([] & sB' & E' & lB' & HIB' & EB & _ & HoA').
  exists sB, sB'. split_and!.
  - unfold mbind, M_bind, bind. by rewrite E0.
  - done.
  - by rewrite (traverse_spec _ _ (proj1 HIB')), EB.
  - by rewrite (size_spec _ _ HIB'), <- EB, !length_fmap.
  - by apply traverse_spec.
  - unfold operator_assign. rewrite bind_get_this.
    by rewrite decide_False by (by intros ?).
Qed.


(** ** Allocation and release *)

Lemma keeps_dom_elim {A} (x : M A) s a s' :
  keeps_dom x → x s = Ok a s' → dom (mem s') = dom (mem s).
Proof. intros H. apply H. Qed.

Lemma keeps_dom_ret {A} (a : A) : keeps_dom (mret a).
Proof. by intros s a' s' [= _ <-]. Qed.

Lemma keeps_dom_bind {A B} (x : M A) (f : A → M B) :
  keeps_dom x → (∀ a, keeps_dom (f a)) → keeps_dom (x ≫= f).
Proof.
  intros Hx Hf s b s' E. apply bind_Ok in E as (a & s1 & E1 & E2).
  rewrite (Hf _ _ _ _ E2). by eapply Hx.
Qed.

Lemma keeps_dom_undefined {A} : keeps_dom (@undefined A).
Proof. by intros s a s'. Qed.

Lemma keeps_dom_diverge {A} : keeps_dom (@diverge A).
Proof. by intros s a s'. Qed.

Lemma keeps_dom_deref p : keeps_dom (deref p).
Proof.
  intros s a s'. unfold deref. destruct (mem s !! p); [|done].
  by intros [= _ <-].
Qed.

Lemma keeps_dom_assign p f : keeps_dom (assign p f).
Proof.
  intros s a s'. unfold assign. destruct (mem s !! p) as [n|] eqn:Hp; [|done].
  intros [= _ <-]. simpl. apply dom_insert_lookup_L. by exists n.
Qed.

Lemma keeps_dom_get_this : keeps_dom get_this.
Proof. by intros s a s' [= _ <-]. Qed.

Lemma keeps_dom_set_this f : keeps_dom (set_this f).
Proof. by intros s a s' [= _ <-]. Qed.

Lemma keeps_dom_rounds : keeps_dom rounds.
Proof. by intros s a s' [= _ <-]. Qed.

Ltac keeps_dom_step :=
  first
    [ apply keeps_dom_ret | apply keeps_dom_undefined | apply keeps_dom_diverge
    | apply keeps_dom_deref | apply keeps_dom_assign
    | apply keeps_dom_get_this | apply keeps_dom_set_this
    | apply keeps_dom_rounds
    | apply keeps_dom_bind; [|intros ?]
    | match goal with
      | |- keeps_dom (match ?x with _ => _ end) => destruct x
      end ].

Lemma keeps_dom_deref_val p : keeps_dom (deref_val p).
Proof. unfold deref_val. repeat keeps_dom_step. Qed.

Lemma keeps_dom_hash_index x : keeps_dom (hash_index x).
Proof. unfold hash_index. repeat keeps_dom_step. Qed.

Lemma keeps_dom_buc_read i : keeps_dom (buc_read i).
Proof. unfold buc_read. repeat keeps_dom_step. Qed.

Lemma keeps_dom_buc_write i p : keeps_dom (buc_write i p).
Proof. unfold buc_write. repeat keeps_dom_step. Qed.

Lemma keeps_dom_ChangeSpace_loop fuel : ∀ it, keeps_dom (ChangeSpace_loop fuel it).
Proof.
  induction fuel as [|fuel IH]; intros it; cbn [ChangeSpace_loop];
    repeat first [ apply keeps_dom_deref_val | apply keeps_dom_hash_index
                 | apply keeps_dom_buc_read | apply keeps_dom_buc_write
                 | apply IH | keeps_dom_step ].
Qed.

Lemma keeps_dom_ChangeSpace d : keeps_dom (ChangeSpace d).
Proof.
  unfold ChangeSpace.
  repeat first [ apply keeps_dom_ChangeSpace_loop | keeps_dom_step ].
Qed.

(** [Add] allocates the node it returns and nothing else. *)
Lemma Add_dom key s p s' :
  Add key s = Ok p s' → dom (mem s') = {[p]} ∪ dom (mem s).
Proof.
  unfold Add. intros E.
  apply bind_Ok in E as (m & s1 & E1 & E). injection E1 as <- <-.
  apply bind_Ok in E as ([] & s2 & E2 & E). injection E2 as <-.
  apply bind_Ok in E as ([] & s3 & E3 & E).
  eapply keeps_dom_elim in E3;
    [|repeat first [apply keeps_dom_ChangeSpace | keeps_dom_step]].
  apply bind_Ok in E as (index & s4 & E4 & E).
  apply (keeps_dom_elim _ _ _ _ (keeps_dom_hash_index _)) in E4.
  apply bind_Ok in E as (m' & s5 & E5 & E). injection E5 as <- <-.
  apply bind_Ok in E as (t & s6 & E6 & E).
  apply (keeps_dom_elim _ _ _ _ (keeps_dom_deref _)) in E6.
  apply bind_Ok in E as (b & s7 & E7 & E).
  apply (keeps_dom_elim _ _ _ _ (keeps_dom_buc_read _)) in E7.
  apply bind_Ok in E as (p0 & s8 & E8 & E). injection E8 as <- <-.
  apply bind_Ok in E as (t' & s9 & E9 & E).
  apply (keeps_dom_elim _ _ _ _ (keeps_dom_deref _)) in E9.
  apply bind_Ok in E as ([] & s10 & E10 & E).
  apply (keeps_dom_elim _ _ _ _ (keeps_dom_assign _ _)) in E10.
  apply bind_Ok in E as ([] & s11 & E11 & E).
  apply (keeps_dom_elim _ _ _ _ (keeps_dom_assign _ _)) in E11.
  apply bind_Ok in E as ([] & s12 & E12 & E).
  apply (keeps_dom_elim _ _ _ _ (keeps_dom_buc_write _ _)) in E12.
  injection E as <- <-.
  rewrite E12, E11, E10, E9. simpl. rewrite dom_insert_L.
  simpl in E7, E6, E4, E3. by rewrite E7, E6, E4, E3.
Qed.

Lemma cells_elem m (l : list entry) q :
  q ∈ cells m l ↔ q = hd m ∨ q ∈ l.*1 ∨ q = tl m.
Proof.
  unfold cells. rewrite elem_of_cons, elem_of_app, elem_of_cons, elem_of_nil.
  tauto.
Qed.

Lemma Add_outside h0 key s l :
  Inv s l → find_node key.1 l = None → (load (obj s) < max_load)%Z →
  outside h0 s l →
  wp (Add key) s (λ p s',
    Inv s' (l ++ [(p, key)]) ∧ outside h0 s' (l ++ [(p, key)])).
Proof.
  intros HI Hf Hlt [Ha Hb].
  pose proof (Add_spec key s l HI Hf Hlt) as Hw.
  apply wp_ok in Hw as (p & s' & E & HI' & Hp & Hp0 & Hpres & _ & Hhd & Htl & _).
  eapply wp_eq; [exact E|]. split; [done|].
  pose proof (Add_dom _ _ _ _ E) as Hdom.
  assert (p ∉ cells (obj s) l) as Hpc.
  { intros Hin. destruct (order_list_alloc _ _ _ _ (proj1 HI) Hin) as [_ [n Hn]].
    congruence. }
  assert (∀ q, q ∈ cells (obj s') (l ++ [(p, key)]) ↔
               q ∈ cells (obj s) l ∨ q = p) as Hcells.
  { intros q. rewrite !cells_elem, Hhd, Htl, fmap_app, elem_of_app. simpl.
    rewrite elem_of_cons, elem_of_nil. tauto. }
  split.
  - intros q [Hq| ->]%Hcells; [by apply Ha|]. by rewrite <- Hb.
  - intros q Hq. rewrite Hcells in Hq.
    assert (q ∉ cells (obj s) l) as Hqc by tauto.
    assert (q ≠ p) as Hqp by tauto.
    rewrite <- Hb by done.
    destruct (mem s !! q) as [n|] eqn:Hq'; [by apply Hpres|].
    apply not_elem_of_dom. rewrite Hdom. apply not_elem_of_dom in Hq'.
    intros [Hin|Hin]%elem_of_union; [|done].
    by apply elem_of_singleton in Hin.
Qed.

Lemma ref_write_outside h0 s l1 p k v0 l2 v :
  Inv s (l1 ++ (p, (k, v0)) :: l2) →
  outside h0 s (l1 ++ (p, (k, v0)) :: l2) →
  wp (ref_write p v) s (λ _ s',
    Inv s' (l1 ++ (p, (k, v)) :: l2) ∧
    outside h0 s' (l1 ++ (p, (k, v)) :: l2)).
Proof.
  intros HI [Ha Hb].
  eapply wp_mono; [exact (ref_write_spec s l1 p k v0 l2 v HI)|].
  intros [] s' (HI' & Hobj & Hfr). split; [done|].
  assert (∀ q, q ∈ cells (obj s') (l1 ++ (p, (k, v)) :: l2) ↔
               q ∈ cells (obj s) (l1 ++ (p, (k, v0)) :: l2)) as Hcells.
  { intros q. by rewrite !cells_elem, Hobj, !fmap_app, !fmap_cons. }
  split.
  - intros q Hq%Hcells. by apply Ha.
  - intros q Hq. rewrite Hcells in Hq. rewrite <- Hb by done.
    apply Hfr. intros ->. apply Hq. apply elem_of_cells.
    rewrite fmap_app, fmap_cons. apply elem_of_app. right. left.
Qed.

Lemma erase_outside h0 s l1 p kv l2 :
  Inv s (l1 ++ (p, kv) :: l2) → outside h0 s (l1 ++ (p, kv) :: l2) →
  wp (erase (mkIter (this (obj s)) p)) s (λ _ s',
    Inv s' (l1 ++ l2) ∧ outside h0 s' (l1 ++ l2)).
Proof.
  intros HI [Ha Hb].
  eapply wp_mono; [by apply erase_spec|].
  intros [] s' (HI' & _ & Hhd & Htl & _ & Hfr & Hp). split; [done|].
  assert (∀ q, q ∈ cells (obj s) (l1 ++ (p, kv) :: l2) ↔
               q ∈ cells (obj s') (l1 ++ l2) ∨ q = p) as Hcells.
  { intros q. rewrite !cells_elem, Hhd, Htl, !fmap_app, fmap_cons, !elem_of_app.
    simpl. rewrite elem_of_cons. tauto. }
  split.
  - intros q Hq. apply Ha, Hcells. by left.
  - intros q Hq.
    destruct (decide (q = p)) as [->|Hne].
    + rewrite Hp. symmetry. apply Ha, Hcells. by right.
    + assert (q ∉ cells (obj s) (l1 ++ (p, kv) :: l2)) as Hq'
        by (rewrite Hcells; tauto).
      rewrite Hfr by done. by apply Hb.
Qed.

Lemma ClearNode_loop_frees l : ∀ fuel s it s',
  order_list (mem s) (obj s) l → counters (obj s) l → len (obj s) = LEN →
  it = default (tl (obj s)) (head l.*1) → (length l ≤ fuel)%nat →
  ClearNode_loop fuel it s = Ok () s' →
  ∀ q, q ∈ l.*1 → mem s' !! q = None.
Proof.
  induction l as [|[p kv] l IH]; intros fuel s it s' Ho Hc Hlen -> Hf E q Hq.
  - by apply elem_of_nil in Hq.
  - destruct fuel as [|fuel]; [simpl in Hf; lia|].
    pose proof (order_list_distinct _ _ _ Ho) as [_ Hne].
    assert (p ≠ tl (obj s)) as Hptl by (apply Hne; left).
    destruct (holds_lookup (mem s) ((p, kv) :: l) p kv) as (n & Hn & Hv);
      [by destruct Ho as (_ & _ & _ & ?)|left|].
    pose proof (order_list_next _ _ [] _ _ _ Ho) as Hnext.
    rewrite Hn in Hnext. simpl in Hnext. injection Hnext as Hnext.
    cbn [ClearNode_loop] in E. simpl head in E. simpl default in E.
    rewrite bind_get_this in E. rewrite decide_False in E by done.
    apply bind_Ok in E as (n' & s0 & E0 & E).
    unfold deref in E0. rewrite Hn in E0. injection E0 as <- <-.
    apply bind_Ok in E as ([] & s1 & E1 & E).
    pose proof (wp_inv _ _ _ _ _ (Del_spec s [] p kv l Ho Hc) E1)
      as (Ho1 & Hc1 & Hthis & Hhd & Htl & Hlen1 & Hfr1 & Hp1 & _).
    simpl in Ho1, Hc1.
    unfold shrunk in Hlen1. rewrite shrinks_floor in Hlen1 by done.
    assert (len (obj s1) = LEN) as Hlen1' by congruence.
    rewrite Hnext, <- Htl in E.
    assert (length l ≤ fuel)%nat as Hf' by (simpl in Hf; lia).
    rewrite fmap_cons in Hq. simpl in Hq.
    apply elem_of_cons in Hq as [->|Hq].
    + pose proof (wp_inv _ _ _ _ _
        (ClearNode_loop_spec l fuel s1 _ Ho1 Hc1 Hlen1' eq_refl Hf') E)
        as (_ & _ & _ & _ & _ & _ & Hfr').
      rewrite Hfr'; [done|].
      destruct Ho as (_ & _ & Hnd & _). unfold cells in Hnd.
      rewrite fmap_cons in Hnd. simpl in Hnd.
      apply NoDup_cons in Hnd as [Hh Hnd]. apply NoDup_cons in Hnd as [Hp' _].
      unfold cells. rewrite Hhd, Htl.
      intros [->|Hin]%elem_of_cons; [apply Hh; left|done].
    + by eapply (IH fuel s1).
Qed.

Lemma ClearNode_frees s l s' :
  order_list (mem s) (obj s) l →
  load (obj s) = Z.of_nat (length l) → (load (obj s) ≤ max_load)%Z →
  ClearNode s = Ok () s' → ∀ q, q ∈ l.*1 → mem s' !! q = None.
Proof.
  intros Ho Hld Hmax E. unfold ClearNode in E.
  apply bind_Ok in E as ([] & s1 & E1 & E). injection E1 as <-.
  rewrite bind_get_this in E. proj.
  pose proof (order_list_hd_next _ _ _ Ho) as Hn.
  destruct (mem s !! hd (obj s)) as [nh|] eqn:Hh; [|done].
  simpl in Hn. injection Hn as Hn.
  apply bind_Ok in E as (n' & s0 & E0 & E).
  unfold deref in E0. proj. rewrite Hh in E0. injection E0 as <- <-.
  apply bind_Ok in E as (fuel & s2 & E2 & E). injection E2 as <- <-.
  rewrite Hn in E.
  eapply (ClearNode_loop_frees l (S (size (mem s)))
            (mkState (mem s) (set_len LEN (obj s))) _ s');
    [| | | | |exact E]; proj.
  - by eapply order_list_obj; [| |exact Ho].
  - split_and!; proj; [done|done|apply capacity_LEN].
  - done.
  - done.
  - pose proof (order_list_length _ _ _ Ho). lia.
Qed.

(** [ClearNode] leaves the two sentinels and frees every other cell of
    the map. *)
Lemma ClearNode_outside h0 s l :
  Inv s l → outside h0 s l →
  wp ClearNode s (λ _ s',
    order_list (mem s') (obj s') [] ∧ counters (obj s') [] ∧
    this (obj s') = this (obj s) ∧ hd (obj s') = hd (obj s) ∧
    tl (obj s') = tl (obj s) ∧ len (obj s') = LEN ∧
    outside h0 s' []).
Proof.
  intros (Ho & _ & _ & Hld & Hmax & _) [Ha Hb].
  pose proof (ClearNode_spec s l Ho Hld Hmax) as Hw.
  apply wp_ok in Hw as ([] & s' & E & Ho' & Hc' & Hthis & Hhd & Htl & Hlen & Hfr).
  pose proof (ClearNode_frees s l s' Ho Hld Hmax E) as Hfree.
  eapply wp_eq; [exact E|]. split_and!; try done.
  split.
  - intros q Hq. apply Ha. rewrite cells_elem in *. rewrite Hhd, Htl in Hq.
    simpl in Hq. rewrite elem_of_nil in Hq. tauto.
  - intros q Hq. rewrite cells_elem, Hhd, Htl in Hq. simpl in Hq.
    destruct (decide (q ∈ l.*1)) as [Hin|Hin].
    + rewrite Hfree by done. symmetry. apply Ha. by apply elem_of_cells.
    + assert (q ∉ cells (obj s) l) as Hq' by (rewrite cells_elem; tauto).
      rewrite Hfr by done. by apply Hb.
Qed.

Lemma clear_outside h0 s l :
  Inv s l → outside h0 s l →
  wp clear s (λ _ s', Inv s' [] ∧ outside h0 s' []).
Proof.
  intros HI Hout. unfold clear.
  apply wp_bind. eapply wp_mono; [by apply (ClearNode_outside h0 s l)|].
  intros _ s1 (Ho1 & Hc1 & Hthis & Hhd & Htl & Hlen & Hout1).
  apply wp_bind, wp_get_this. apply wp_set_this. proj.
  split.
  - split_and!.
    + by eapply order_list_obj; [| |exact Ho1].
    + apply bucket_table_empty; proj; [by rewrite Hlen|done].
    + by intros i j x y ?.
    + destruct Hc1 as (? & ? & ?). by split_and!.
  - done.
Qed.

Lemma exec_outside h0 o s l :
  Inv s l → (load (obj s) < max_load)%Z → outside h0 s l →
  wp (exec o) s (λ _ s', ∃ l',
    Inv s' l' ∧ (length l' ≤ S (length l))%nat ∧ outside h0 s' l').
Proof.
  intros HI Hlt Hout. destruct o as [value|key|key v|]; simpl.
  - destruct (find_node value.1 l) as [p|] eqn:Hf.
    + apply wp_bind. eapply wp_eq; [by eapply insert_dup|]. apply wp_ret.
      exists l. split_and!; [done|lia|done].
    + apply wp_bind. unfold insert_.
      apply wp_bind. eapply wp_eq; [by apply Find_spec|]. rewrite Hf. simpl.
      apply wp_bind, wp_get_this. rewrite decide_False by (by intros ?).
      apply wp_bind. eapply wp_mono; [by apply Add_outside|].
      intros p s' [HI' Hout']. apply wp_ret, wp_ret.
      exists (l ++ [(p, value)]).
      split_and!; [done|rewrite length_app; simpl; lia|done].
  - apply wp_bind. eapply wp_eq; [by eapply find_found|].
    apply wp_bind. unfold end_. apply wp_bind, wp_get_this, wp_ret.
    unfold iterator_eq. cbn [it_at].
    destruct (find_node key l) as [p|] eqn:Hf; simpl.
    + destruct (find_node_live _ _ _ _ _ (proj1 HI) Hf) as [Hp _].
      rewrite bool_decide_eq_false_2 by done.
      destruct (find_node_split _ _ _ Hf) as (l1 & kv & l2 & -> & Hk & Hn).
      eapply wp_mono; [by apply (erase_outside h0 s l1 p kv l2)|].
      intros [] s' [HI' Hout']. exists (l1 ++ l2).
      split_and!; [done|rewrite !length_app; simpl; lia|done].
    + rewrite bool_decide_eq_true_2 by done. apply wp_ret.
      exists l. split_and!; [done|lia|done].
  - destruct (find_node key l) as [p|] eqn:Hf.
    + apply wp_bind. eapply wp_eq; [by eapply operator_index_found|].
      destruct (find_node_split _ _ _ Hf) as (l1 & [k0 v0] & l2 & -> & Hk & Hn).
      eapply wp_mono; [by apply (ref_write_outside h0 s l1 p k0 v0 l2 v)|].
      intros [] s' [HI' Hout']. exists (l1 ++ (p, (k0, v)) :: l2).
      split_and!; [done|rewrite !length_app; simpl; lia|done].
    + apply wp_bind. unfold operator_index.
      apply wp_bind. eapply wp_eq; [by apply Find_spec|]. rewrite Hf. simpl.
      apply wp_bind, wp_get_this. rewrite decide_True by done.
      apply wp_bind.
      eapply wp_mono; [by apply (Add_outside h0 (key, T_default))|].
      intros p s1 [HI1 Hout1].
      destruct (holds_lookup (mem s1) (l ++ [(p, (key, T_default))]) p
                  (key, T_default)) as (n & Hn & Hv).
      { by destruct HI1 as ((_ & _ & _ & ?) & _). }
      { apply elem_of_app. right. left. }
      apply wp_bind. eapply wp_deref_val; [done..|]. apply wp_ret.
      eapply wp_mono;
        [by apply (ref_write_outside h0 s1 l p key T_default [] v)|].
      intros [] s' [HI' Hout']. exists (l ++ [(p, (key, v))]).
      split_and!; [done|rewrite length_app; simpl; lia|done].
  - eapply wp_mono; [by apply (clear_outside h0 s l)|].
    intros [] s' [HI' Hout']. exists []. split_and!; [done|simpl; lia|done].
Qed.

Lemma run_outside h0 ops : ∀ s l,
  Inv s l → (load (obj s) + Z.of_nat (length ops) ≤ max_load)%Z →
  outside h0 s l →
  wp (run ops) s (λ _ s', ∃ l', Inv s' l' ∧ outside h0 s' l').
Proof.
  induction ops as [|o ops IH]; intros s l HI Hb Hout; simpl.
  - apply wp_ret. by exists l.
  - simpl in Hb. apply wp_bind.
    eapply wp_mono; [apply (exec_outside h0 o s l); [done|lia|done]|].
    intros [] s1 (l1 & HI1 & Hl1 & Hout1).
    apply (IH s1 l1); [done| |done].
    destruct HI as (_ & _ & _ & Hld & _), HI1 as (_ & _ & _ & Hld1 & _). lia.
Qed.

Lemma construct_outside addr h :
  wp construct (raw addr h) (λ _ s', Inv s' [] ∧ outside h s' []).
Proof.
  unfold construct, raw.
  apply wp_bind, wp_set_this. apply wp_bind, wp_set_this.
  apply wp_bind, wp_new_Node. intros p1 Hp10 Hp1. proj.
  apply wp_bind, wp_set_this.
  apply wp_bind, wp_new_Node. intros p2 Hp20 Hp2. proj.
  assert (p1 ≠ p2) as Hne by (intros ->; by rewrite lookup_insert_eq in Hp2).
  rewrite lookup_insert_ne in Hp2 by done.
  apply wp_bind, wp_set_this. apply wp_bind, wp_set_this.
  apply wp_bind. eapply wp_assign; [proj; by lk|].
  eapply wp_assign; [proj; by lk|]. proj.
  split.
  - split_and!.
    + eapply order_list_empty; proj; try done; by lk.
    + by apply bucket_table_empty.
    + by intros i j x y ?.
    + split_and!; proj; [done|done|apply capacity_LEN].
  - split; proj.
    + intros q. rewrite cells_elem. simpl. rewrite elem_of_nil.
      intros [->|[[]| ->]]; done.
    + intros q. rewrite cells_elem. simpl. rewrite elem_of_nil. intros Hq.
      assert (q ≠ p1) by tauto. assert (q ≠ p2) by tauto. by lk.
Qed.

Lemma destructor_spec h0 s l :
  Inv s l → outside h0 s l →
  wp destructor s (λ _ s', mem s' = h0).
Proof.
  intros HI Hout. unfold destructor.
  apply wp_bind. eapply wp_mono; [by apply (ClearNode_outside h0 s l)|].
  intros _ s1 (Ho1 & _ & _ & _ & _ & _ & [Ha Hb]).
  destruct (order_list_distinct _ _ _ Ho1) as [Hne _].
  destruct (order_list_alloc _ _ _ (hd (obj s1)) Ho1) as [Hh0 [nh Hh]];
    [rewrite cells_elem; by left|].
  destruct (order_list_alloc _ _ _ (tl (obj s1)) Ho1) as [Ht0 [nt Ht]];
    [rewrite cells_elem; by right; right|].
  apply wp_bind, wp_get_this. apply wp_bind.
  unfold delete_ptr. rewrite decide_False by done.
  eapply wp_delete_Node; [done|]. proj.
  apply wp_bind, wp_get_this. proj. apply wp_bind.
  rewrite decide_False by done.
  eapply wp_delete_Node; [proj; by rewrite lookup_delete_ne|]. proj.
  apply wp_set_this. proj.
  apply map_eq. intros q.
  destruct (decide (q = tl (obj s1))) as [->|Hq2].
  { rewrite lookup_delete_eq. symmetry. apply Ha. rewrite cells_elem. tauto. }
  rewrite lookup_delete_ne by done.
  destruct (decide (q = hd (obj s1))) as [->|Hq1].
  { rewrite lookup_delete_eq. symmetry. apply Ha. rewrite cells_elem. tauto. }
  rewrite lookup_delete_ne by done.
  apply Hb. rewrite cells_elem. simpl. rewrite elem_of_nil. tauto.
Qed.

(** X19: a map that is default-constructed in a store, used by any run
    of [insert], [erase], [operator[]] assignments and [clear], and then
    destroyed, leaves the store exactly as it was before the
    construction: the destructor returns normally, every node the map
    allocated is freed, and no other cell is touched. *)
Theorem destructor_frees addr h ops :
  (Z.of_nat (length ops) ≤ max_load)%Z →
  ∃ s, (construct ≫= λ _, run ops) (raw addr h) = Ok () s ∧
  ∃ s', destructor s = Ok () s' ∧ mem s' = h.
Proof.
  intros Hlen.
  pose proof (construct_outside addr h) as Hw.
  apply wp_ok in Hw as ([] & s0 & E0 & HI0 & Hout0).
  assert (load (obj s0) = 0%Z) as Hl0 by (by destruct HI0 as (_ & _ & _ & ? & _)).
  pose proof (run_outside h ops s0 [] HI0) as Hw.
  rewrite Hl0 in Hw. specialize (Hw Hlen Hout0).
  apply wp_ok in Hw as ([] & s & E & l & HI & Hout).
  pose proof (destructor_spec h s l HI Hout) as Hw.
  apply wp_ok in Hw as ([] & s' & E' & Hmem).
  exists s. split.
  - unfold mbind, M_bind, bind. by rewrite E0.
  - by exists s'.
Qed.


(** ** References and erased iterators *)

(** X20: on a reachable map that has an entry with a key equal to [key],
    a write of [v] through the reference [at(key)] returns succeeds and
    changes that entry alone: its key and its place in the iteration
    order stay, its value becomes [v], the size stays, and [at(key)]
    afterwards returns the same reference, which reads [v]. *)
Theorem at_write_through s L key v :
  reachable s → traverse s = Ok L s → has_key key L = true →
  ∃ r s', at_ key s = Ok r s ∧ ref_write r v s = Ok () s' ∧
          traverse s' = Ok (update_key key v L) s' ∧
          length (update_key key v L) = length L ∧
          at_ key s' = Ok r s' ∧ ref_read r s' = Ok v s'.
Proof.
  intros Hr Ht Hk. destruct (reachable_contents _ _ Hr Ht) as (l & HI & ->).
  destruct (find_node key l) as [p|] eqn:Hf.
  2:{ apply find_node_has_key in Hf. congruence. }
  destruct (find_node_split _ _ _ Hf) as (l1 & [k0 v0] & l2 & -> & Hkv & Hn).
  pose proof (ref_write_spec s l1 p k0 v0 l2 v HI) as Hw.
  apply wp_ok in Hw as ([] & s' & E & HI' & _).
  assert ((p, (k0, v)) ∈ l1 ++ (p, (k0, v)) :: l2) as Hin
    by (apply elem_of_app; right; left).
  assert (update_key key v (l1 ++ (p, (k0, v0)) :: l2).*2 =
          (l1 ++ (p, (k0, v)) :: l2).*2) as EU.
  { rewrite !fmap_app, !fmap_cons. simpl. by rewrite update_key_middle. }
  exists p, s'. split_and!.
  - by eapply at_found.
  - done.
  - by rewrite (traverse_spec _ _ (proj1 HI')), EU.
  - rewrite EU, !length_fmap, !length_app. done.
  - eapply at_found; [done|].
    eapply find_node_elem; [by destruct HI' as (_ & _ & ? & _)|done|done].
  - by apply (ref_read_live s' _ p (k0, v) HI').
Qed.

(** X21: erasing by position.  On a reachable map whose iteration yields
    [L], the iterator reached by [n] increments from [begin()], for [n]
    below the length of [L], can be erased, and the iteration then yields
    [L] without its pair [n]. *)
Theorem erase_at_position s L n :
  reachable s → traverse s = Ok L s → (n < length L)%nat →
  ∃ it s', (begin_ ≫= incr_n n) s = Ok it s ∧ erase it s = Ok () s' ∧
           traverse s' = Ok (delete n L) s'.
Proof.
  intros Hr Ht Hn. destruct (reachable_contents _ _ Hr Ht) as (l & HI & ->).
  rewrite length_fmap in Hn.
  destruct (lookup_lt_is_Some_2 l n Hn) as [[p kv] Hl].
  pose proof (take_drop_middle _ _ _ Hl) as El.
  pose proof HI as HI0. rewrite <- El in HI.
  pose proof (erase_spec s _ p kv _ HI) as Hw.
  apply wp_ok in Hw as ([] & s' & E & HI' & _).
  exists (mkIter (this (obj s)) p), s'. split_and!.
  - change ((begin_ ≫= incr_n n) s) with (bind begin_ (incr_n n) s).
    unfold bind. rewrite (begin_spec s l (proj1 HI0)).
    rewrite (incr_n_spec s l _ n 0 (proj1 HI0)) by lia.
    by rewrite (position_lookup _ _ _ _ _ Hl).
  - done.
  - rewrite (traverse_spec _ _ (proj1 HI')).
    by rewrite <- delete_take_drop, list_fmap_delete.
Qed.

(** X22: erase frees the node.  After the iterator [find(key)] of a
    present key has been erased from a reachable map, dereferencing,
    incrementing or decrementing that iterator is undefined behaviour
    (a read of freed storage), not a thrown exception. *)
Theorem erased_iterator_dangles s L key :
  reachable s → traverse s = Ok L s → has_key key L = true →
  ∃ it s', find key s = Ok it s ∧ erase it s = Ok () s' ∧
           iterator_star it s' = UB ∧
           iterator_incr it s' = UB ∧
           iterator_decr it s' = UB.
Proof.
  intros Hr Ht Hk. destruct (reachable_contents _ _ Hr Ht) as (l & HI & ->).
  destruct (find_node key l) as [p|] eqn:Hf.
  2:{ apply find_node_has_key in Hf. congruence. }
  destruct (find_node_live _ _ _ _ _ (proj1 HI) Hf) as [Hp _].
  destruct (find_node_split _ _ _ Hf) as (l1 & kv & l2 & -> & Hkv & Hn).
  pose proof (erase_spec s l1 p kv l2 HI) as Hw.
  apply wp_ok in Hw as ([] & s' & E & HI' & _ & _ & Htl & _ & _ & Hnone).
  exists (mkIter (this (obj s)) p), s'. split_and!.
  - by rewrite (find_found _ _ _ HI), Hf.
  - done.
  - unfold iterator_star, deref_val, mbind, M_bind, bind, deref.
    cbn [it_at]. by rewrite Hnone.
  - unfold iterator_incr, mbind, M_bind, bind, get_this, deref.
    cbn [it_at]. rewrite decide_False by congruence. by rewrite Hnone.
  - unfold iterator_decr, mbind, M_bind, bind, get_this, deref.
    cbn [it_at]. by rewrite Hnone.
Qed.


(** ** Load factor *)

Lemma load_factor_grow ld ln :
  (LEN ≤ ln)%Z → (0 ≤ ld)%Z → load_factor_ok ld ln →
  load_factor_ok (ld + 1)
    (if (ld >? ln)%Z then Z.lor (Z.shiftl ln 1) 1 else ln).
Proof.
  unfold load_factor_ok, LEN. intros Hln Hld [Hup Hlow].
  destruct (Z.gtb_spec ld ln).
  - rewrite shiftl_lor_1 by lia. lia.
  - lia.
Qed.

Lemma load_factor_shrink ld ln :
  (LEN ≤ ln)%Z → (1 ≤ ld)%Z → load_factor_ok ld ln →
  load_factor_ok (ld - 1)
    (if ((ln >? LEN) && (4 * (ld - 1) <? ln))%Z then Z.shiftr ln 1 else ln).
Proof.
  unfold load_factor_ok, LEN. intros Hln Hld [Hup Hlow].
  destruct (Z.gtb_spec ln 13), (Z.ltb_spec (4 * (ld - 1)) ln); simpl;
    try lia.
  rewrite shiftr_1.
  pose proof (Z.div_mod ln 2 ltac:(lia)) as Hdm.
  pose proof (Z.mod_pos_bound ln 2 ltac:(lia)) as Hmb.
  lia.
Qed.

Lemma exec_load_factor o s l :
  Inv s l → (load (obj s) < max_load)%Z →
  load_factor_ok (load (obj s)) (len (obj s)) →
  wp (exec o) s (λ _ s', ∃ l',
    Inv s' l' ∧ (length l' ≤ S (length l))%nat ∧
    load_factor_ok (load (obj s')) (len (obj s'))).
Proof.
  intros HI Hlt Hlf.
  pose proof HI as (_ & _ & _ & Hld & _ & Hcap).
  pose proof (capacity_ge _ Hcap) as Hge.
  destruct o as [value|key|key v|]; simpl.
  - destruct (find_node value.1 l) as [p|] eqn:Hf.
    + apply wp_bind. eapply wp_eq; [by eapply insert_dup|]. apply wp_ret.
      exists l. split_and!; [done|lia|done].
    + apply wp_bind. eapply wp_mono; [by apply insert_new|].
      intros r s' (p & _ & HI' & _ & _ & _ & _ & _ & _ & Hlen).
      apply wp_ret. exists (l ++ [(p, value)]).
      split_and!; [done|rewrite length_app; simpl; lia|].
      destruct HI' as (_ & _ & _ & Hld' & _).
      rewrite length_app in Hld'. simpl in Hld'.
      replace (load (obj s')) with (load (obj s) + 1)%Z by lia.
      rewrite Hlen. unfold grown. apply load_factor_grow; [done|lia|done].
  - apply wp_bind. eapply wp_eq; [by eapply find_found|].
    apply wp_bind. unfold end_. apply wp_bind, wp_get_this, wp_ret.
    unfold iterator_eq. cbn [it_at].
    destruct (find_node key l) as [p|] eqn:Hf; simpl.
    + destruct (find_node_live _ _ _ _ _ (proj1 HI) Hf) as [Hp _].
      rewrite bool_decide_eq_false_2 by done.
      destruct (find_node_split _ _ _ Hf) as (l1 & kv & l2 & -> & Hk & Hn).
      eapply wp_mono; [by apply erase_spec|].
      intros [] s' (HI' & _ & _ & _ & Hlen & _).
      exists (l1 ++ l2).
      split_and!; [done|rewrite !length_app; simpl; lia|].
      destruct HI' as (_ & _ & _ & Hld' & _).
      rewrite length_app in Hld, Hld'. simpl in Hld.
      replace (load (obj s')) with (load (obj s) - 1)%Z by lia.
      rewrite Hlen. unfold shrunk, shrinks.
      apply load_factor_shrink; [done|lia|done].
    + rewrite bool_decide_eq_true_2 by done. apply wp_ret.
      exists l. split_and!; [done|lia|done].
  - destruct (find_node key l) as [p|] eqn:Hf.
    + apply wp_bind. eapply wp_eq; [by eapply operator_index_found|].
      destruct (find_node_split _ _ _ Hf) as (l1 & [k0 v0] & l2 & -> & Hk & Hn).
      eapply wp_mono; [exact (ref_write_spec s l1 p k0 v0 l2 v HI)|].
      intros [] s' (HI' & Hobj & _). exists (l1 ++ (p, (k0, v)) :: l2).
      split_and!; [done|rewrite !length_app; simpl; lia|by rewrite Hobj].
    + apply wp_bind. eapply wp_mono; [by apply operator_index_absent|].
      intros p s1 (HI1 & _ & _ & _ & _ & _ & _ & Hlen).
      eapply wp_mono;
        [exact (ref_write_spec s1 l p key T_default [] v HI1)|].
      intros [] s' (HI' & Hobj & _). exists (l ++ [(p, (key, v))]).
      split_and!; [done|rewrite length_app; simpl; lia|].
      destruct HI1 as (_ & _ & _ & Hld1 & _).
      rewrite length_app in Hld1. simpl in Hld1. rewrite Hobj.
      replace (load (obj s1)) with (load (obj s) + 1)%Z by lia.
      rewrite Hlen. unfold grown. apply load_factor_grow; [done|lia|done].
  - eapply wp_mono; [by apply (clear_spec s l)|].
    intros [] s' (HI' & _ & _ & _ & Hlen & _).
    exists []. split_and!; [done|simpl; lia|].
    destruct HI' as (_ & _ & _ & Hld' & _). simpl in Hld'.
    rewrite Hld', Hlen. unfold load_factor_ok, LEN. lia.
Qed.

(** ** Copies *)

Lemma wp_conj {A} (x : M A) s (Q1 Q2 : A → state → Prop) :
  wp x s Q1 → wp x s Q2 → wp x s (λ a s', Q1 a s' ∧ Q2 a s').
Proof. unfold wp. by destruct (x s). Qed.

Lemma copy_loop_more h0 l2 : ∀ fuel l1 lB s it (A : linked_hashmap),
  order_list (mem s) A (l1 ++ l2) →
  distinct_keys (l1 ++ l2) →
  (Z.of_nat (length (l1 ++ l2)) ≤ max_load)%Z →
  Inv s lB → lB.*2 = l1.*2 →
  (∀ q, q ∈ cells A (l1 ++ l2) → q ∉ cells (obj s) lB) →
  outside h0 s lB →
  it = default (tl A) (head l2.*1) → (length l2 ≤ fuel)%nat →
  wp (copy_loop fuel A it) s (λ _ s', ∃ lB',
    Inv s' lB' ∧ lB'.*2 = (l1 ++ l2).*2 ∧ outside h0 s' lB' ∧
    ((Z.of_nat (length (l1 ++ l2)) ≤ len (obj s) + 1)%Z →
     len (obj s') = len (obj s))).
Proof.
  induction l2 as [|[p kv] l2 IH];
    intros fuel l1 lB s it A HoA HdA HlA HI EB Hdisj Hout -> Hf.
  - simpl. rewrite app_nil_r in *.
    assert (wp (mret ()) s (λ _ s', ∃ lB',
      Inv s' lB' ∧ lB'.*2 = l1.*2 ∧ outside h0 s' lB' ∧
      ((Z.of_nat (length l1) ≤ len (obj s) + 1)%Z →
       len (obj s') = len (obj s)))) as H.
    { apply wp_ret. by exists lB. }
    destruct fuel; cbn [copy_loop]; by rewrite decide_True.
  - destruct fuel as [|fuel]; [simpl in Hf; lia|].
    pose proof (order_list_distinct _ _ _ HoA) as [_ Hne].
    assert (p ∈ (l1 ++ (p, kv) :: l2).*1) as Hpin
      by (rewrite fmap_app; apply elem_of_app; right; left).
    assert (p ≠ tl A) as Hptl by (by apply Hne).
    destruct (holds_lookup (mem s) (l1 ++ (p, kv) :: l2) p kv) as (n & Hn & Hv).
    { by destruct HoA as (_ & _ & _ & ?). }
    { apply elem_of_app. right. left. }
    pose proof (order_list_next _ _ _ _ _ _ HoA) as Hnext.
    rewrite Hn in Hnext. simpl in Hnext. injection Hnext as Hnext.
    pose proof HI as (_ & _ & _ & HldB & _).
    assert (length lB = length l1) as HlenB.
    { by rewrite <- (length_fmap snd lB), EB, length_fmap. }
    rewrite length_app in HlA. simpl in HlA.
    assert (find_node kv.1 lB = None) as Hfresh by (by eapply find_node_fresh).
    assert (load (obj s) < max_load)%Z as Hlt by lia.
    cbn [copy_loop]. simpl head. simpl default.
    rewrite decide_False by done.
    apply wp_bind. eapply wp_deref_val; [done..|].
    apply wp_bind. eapply wp_mono.
    { apply wp_conj;
        [exact (Add_spec kv s lB HI Hfresh Hlt)
        |exact (Add_outside h0 kv s lB HI Hfresh Hlt Hout)]. }
    intros p' s1 [(HI1 & Hp' & Hp'0 & Hpres & Hthis & Hhd & Htl & Hlen1)
                  [_ Hout1]].
    assert (∀ q n0, mem s !! q = Some n0 →
                    q ∈ cells A (l1 ++ (p, kv) :: l2) → mem s1 !! q = Some n0) as HA1.
    { intros q n0 Hq Hin. apply Hpres; [done|]. by apply Hdisj. }
    assert (∀ q, q ∈ cells (obj s1) (lB ++ [(p', kv)]) →
                 q ∈ cells (obj s) lB ∨ q = p') as Hc1.
    { intros q. rewrite !cells_elem, Hhd, Htl, fmap_app, elem_of_app. simpl.
      rewrite elem_of_cons, elem_of_nil. tauto. }
    apply wp_bind. eapply wp_deref; [apply HA1; [done|by apply elem_of_cells]|].
    rewrite Hnext.
    eapply wp_mono.
    { apply (IH fuel (l1 ++ [(p, kv)]) (lB ++ [(p', kv)]) s1).
      - rewrite <- app_assoc. simpl. by eapply order_list_preserved.
      - by rewrite <- app_assoc.
      - rewrite <- app_assoc. simpl. rewrite length_app. simpl. lia.
      - done.
      - by rewrite !fmap_app, EB.
      - rewrite <- app_assoc. simpl. intros q Hq Hin.
        destruct (Hc1 _ Hin) as [Hin'| ->].
        + by apply (Hdisj q).
        + destruct (order_list_alloc _ _ _ _ HoA Hq) as [_ [? ?]]. congruence.
      - done.
      - done.
      - simpl in Hf. lia. }
    intros [] s' (lB' & HI' & EB' & Hout' & Hlen').
    exists lB'. rewrite <- app_assoc in EB', Hlen'. simpl in EB', Hlen'.
    split_and!; [done|done|done|].
    intros Hcap. rewrite length_app in Hcap. simpl in Hcap.
    assert (len (obj s1) = len (obj s)) as El.
    { rewrite Hlen1. unfold grown.
      destruct (Z.gtb_spec (load (obj s)) (len (obj s))); [lia|done]. }
    rewrite Hlen'; [done|]. rewrite El, length_app. simpl. lia.
Qed.

Lemma copy_construct_more addr h (A : linked_hashmap) lA :
  Inv (mkState h A) lA →
  wp (copy_construct A) (raw addr h) (λ _ s', ∃ lB,
    Inv s' lB ∧ lB.*2 = lA.*2 ∧ outside h s' lB ∧
    ((load A ≤ len A + 1)%Z → len (obj s') = len A)).
Proof.
  intros (HoA & (HlenA & _) & HdA & HldA & HmaxA & HcapA). proj.
  unfold copy_construct, raw.
  apply wp_bind, wp_set_this. apply wp_bind, wp_set_this.
  apply wp_bind, wp_new_Node. intros p1 Hp10 Hp1. proj.
  apply wp_bind, wp_set_this.
  apply wp_bind, wp_new_Node. intros p2 Hp20 Hp2. proj.
  assert (p1 ≠ p2) as Hne by (intros ->; by rewrite lookup_insert_eq in Hp2).
  rewrite lookup_insert_ne in Hp2 by done.
  apply wp_bind, wp_set_this. apply wp_bind, wp_set_this.
  apply wp_bind. eapply wp_assign; [proj; by lk|].
  apply wp_bind. eapply wp_assign; [proj; by lk|]. proj.
  set (h4 := <[p2 := _]> _).
  assert (∀ q, q ≠ p1 → q ≠ p2 → h4 !! q = h !! q) as Hh4.
  { intros q ? ?. unfold h4. by lk. }
  assert (∀ q n, h !! q = Some n → h4 !! q = Some n) as Hh4'.
  { intros q n Hq. rewrite Hh4; [done| |]; intros ->; congruence. }
  pose proof (order_list_hd_next _ _ _ HoA) as Hn.
  destruct (h !! hd A) as [nh|] eqn:Hh; [|done].
  simpl in Hn. injection Hn as Hn.
  apply wp_bind. eapply wp_deref; [proj; by apply Hh4'|].
  apply wp_bind, wp_rounds. proj. rewrite Hn.
  eapply wp_mono.
  { apply (copy_loop_more h lA _ [] []); proj.
    - eapply order_list_preserved; [|exact HoA]. intros q n Hq _. by apply Hh4'.
    - done.
    - change ([] ++ lA) with lA. by rewrite <- HldA.
    - split_and!; proj.
      + eapply order_list_empty; proj; try done; unfold h4; by lk.
      + by apply bucket_table_empty.
      + by intros i j x y ?.
      + by split_and!.
    - done.
    - intros q Hq. simpl.
      destruct (order_list_alloc _ _ _ _ HoA Hq) as [_ [n Hq']].
      rewrite cells_elem. simpl. rewrite elem_of_nil.
      intros [->|[[]| ->]]; congruence.
    - split; proj.
      + intros q. rewrite cells_elem. simpl. rewrite elem_of_nil.
        intros [->|[[]| ->]]; done.
      + intros q. rewrite cells_elem. simpl. rewrite elem_of_nil. intros Hq.
        apply Hh4; tauto.
    - done.
    - pose proof (order_list_length _ _ _ HoA) as Hl.
      assert (size h ≤ size h4)%nat; [|lia].
      rewrite <- !size_dom. apply subseteq_size. intros q Hq.
      apply elem_of_dom in Hq as [n Hq]. apply elem_of_dom.
      exists n. by apply Hh4'. }
  intros [] s' (lB & HI' & EB & Hout & Hlen). proj.
  exists lB. split_and!; [done|done|done|].
  intros Hcap. apply Hlen. change ([] ++ lA) with lA. lia.
Qed.

(** Every reachable state keeps the load factor in bounds. *)
Lemma reachable_load_factor s :
  reachable s → load_factor_ok (load (obj s)) (len (obj s)).
Proof.
  induction 1 as [addr h s E|addr h A s Hr IH E|o s s' Hr IH Hlt E].
  - pose proof (wp_inv _ _ _ _ _ (construct_spec addr h) E)
      as ((_ & _ & _ & Hld & _) & _ & Hlen & _).
    simpl in Hld. rewrite Hld, Hlen. unfold load_factor_ok, LEN. lia.
  - destruct (reachable_Inv _ Hr) as [lA HIA]. proj.
    pose proof (wp_inv _ _ _ _ _ (copy_construct_more addr h A lA HIA) E)
      as (lB & HIB & EB & _ & Hlen).
    destruct IH as [Hup Hlow].
    destruct HIA as (_ & _ & _ & HldA & _), HIB as (_ & _ & _ & HldB & _).
    proj. rewrite (Hlen Hup).
    assert (load (obj s) = load A) as ->; [|done].
    rewrite HldA, HldB. f_equal.
    by rewrite <- (length_fmap snd lB), EB, length_fmap.
  - destruct (reachable_Inv _ Hr) as [l HI].
    by pose proof (wp_inv _ _ _ _ _ (exec_load_factor o s l HI Hlt IH) E)
      as (l' & _ & _ & ?).
Qed.

(** X23: the copy constructor makes a deep copy of the same capacity.
    Copy-constructing [B] from a reachable map [A] returns normally with
    the capacity of [A]; and after any run on [B], destroying [B] leaves
    the store exactly as it was before the copy was made, so every node
    of the copy is freed and no node of [A] is touched. *)
Theorem copy_is_deep h A addr ops :
  reachable (mkState h A) →
  (load A + Z.of_nat (length ops) ≤ max_load)%Z →
  ∃ sB sB' s', copy_construct A (raw addr h) = Ok () sB ∧
               len (obj sB) = len A ∧
               run ops sB = Ok () sB' ∧
               destructor sB' = Ok () s' ∧ mem s' = h.
Proof.
  intros Hr Hb. destruct (reachable_Inv _ Hr) as [lA HIA].
  pose proof (reachable_load_factor _ Hr) as [Hup _]. proj.
  pose proof (copy_construct_more addr h A lA HIA) as Hw.
  apply wp_ok in Hw as ([] & sB & E & lB & HIB & EB & Hout & Hlen).
  assert (load (obj sB) = load A) as El.
  { destruct HIA as (_ & _ & _ & HldA & _), HIB as (_ & _ & _ & HldB & _).
    proj. rewrite HldA, HldB. f_equal.
    by rewrite <- (length_fmap snd lB), EB, length_fmap. }
  rewrite <- El in Hb.
  pose proof (run_outside h ops sB lB HIB Hb Hout) as Hw.
  apply wp_ok in Hw as ([] & sB' & E' & l' & HI' & Hout').
  pose proof (destructor_spec h sB' l' HI' Hout') as Hw.
  apply wp_ok in Hw as ([] & s' & E'' & Hmem).
  exists sB, sB', s'. split_and!; [done|by apply Hlen|done|done|done].
Qed.

(** X24: the resizing keeps the load factor in bounds.  In every
    reachable state, copies included, the count [load], which is what
    [size()] returns, is at most the capacity [len] plus one, and when
    the capacity is above the floor 13 the count is at least a quarter
    of it. *)
Theorem load_factor_bounds s :
  reachable s →
  size_ s = Ok (load (obj s)) s ∧
  (load (obj s) ≤ len (obj s) + 1)%Z ∧
  (LEN < len (obj s) → len (obj s) ≤ 4 * load (obj s))%Z.
Proof.
  intros Hr. split; [done|].
  exact (reachable_load_factor s Hr).
Qed.

End linked_hashmap.

Arguments Ok {Key T A} a s.
Arguments Throw {Key T A} e s.
Arguments UB {Key T A}.
Arguments Diverge {Key T A}.

(** * An instance: keys and values in [Z], the identity for [Hash],
    [Z.eqb] for [Equal], [0] for [T{}] *)

Definition hashZ (k : Z) : Z := k.

Lemma Zeqb_sym x y : Z.eqb x y = true → Z.eqb y x = true.
Proof. by rewrite Z.eqb_sym. Qed.

Lemma Zeqb_trans x y z :
  Z.eqb x y = true → Z.eqb y z = true → Z.eqb x z = true.
Proof. rewrite !Z.eqb_eq. congruence. Qed.

Lemma hashZ_equal x y : Z.eqb x y = true → hashZ x = hashZ y.
Proof. rewrite Z.eqb_eq. by intros ->. Qed.

Lemma lawfulZ : lawful hashZ Z.eqb.
Proof.
  split; [exact Z.eqb_refl|exact Zeqb_sym|exact Zeqb_trans|exact hashZ_equal].
Qed.

(** The map a run leaves, built at address [1] in an empty store. *)
Definition after (ops : list (@op Z Z)) : @state Z Z :=
  match (construct ≫= λ _, run hashZ Z.eqb 0%Z ops) (raw 1%nat ∅) with
  | Ok _ s => s
  | _ => raw 1%nat ∅
  end.

(** [insert({i, 10 i})] for [i] from 1 to [n], and [erase] of the keys 1
    to [n]. *)
Definition inserts (n : nat) : list (@op Z Z) :=
  (λ i, op_insert (Z.of_nat i, 10 * Z.of_nat i)%Z) <$> seq 1 n.
Definition erases (n : nat) : list (@op Z Z) :=
  (λ i, op_erase (Z.of_nat i)) <$> seq 1 n.

Lemma reachable_example ops :
  (Z.of_nat (length ops) ≤ max_load)%Z →
  (construct ≫= λ _, run hashZ Z.eqb 0%Z ops) (raw 1%nat ∅) = Ok () (after ops) →
  reachable hashZ Z.eqb 0%Z (after ops).
Proof.
  apply (reachable_after hashZ Z.eqb 0%Z lawfulZ).
Qed.

(** Fourteen insertions leave the table at 13 slots, the fifteenth grows
    it to 27, and ten erases after sixteen insertions shrink it back to
    13. *)
Example resizes_occur :
  len (obj (after (inserts 14))) = 13%Z ∧
  len (obj (after (inserts 15))) = 27%Z ∧
  len (obj (after (inserts 16 ++ erases 9))) = 27%Z ∧
  len (obj (after (inserts 16 ++ erases 10))) = 13%Z.
Proof. vm_compute. done. Qed.

(** Sixteen insertions grow the table from 13 to 27 slots and the ten
    erases that follow shrink it back to 13: the six keys left come out in
    the order of their insertion. *)
Lemma order_preservation_witness :
  let ops := inserts 16 ++ erases 10 in
  pairwise_distinct Z.eqb (inserted ops) ∧
  (Z.of_nat (length ops) ≤ max_load)%Z ∧
  ∃ s, (construct ≫= λ _, run hashZ Z.eqb 0%Z ops) (raw 1%nat ∅) = Ok () s ∧
       traverse s = Ok (expected Z.eqb ops) s ∧
       (expected Z.eqb ops).*1 `sublist_of` inserted ops ∧
       (∀ kvs, ops = op_insert <$> kvs → expected Z.eqb ops = kvs).
Proof.
  cbv zeta.
  assert (pairwise_distinct Z.eqb (inserted (inserts 16 ++ erases 10))) as Hpd
    by (apply pairwise_distinctb_sound; vm_compute; reflexivity).
  assert (Z.of_nat (length (inserts 16 ++ erases 10)) ≤ max_load)%Z as Hlen
    by (by vm_compute).
  split; [exact Hpd|]. split; [exact Hlen|].
  exact (order_preservation hashZ Z.eqb 0%Z lawfulZ 1%nat ∅ (inserts 16 ++ erases 10) Hpd Hlen).
Defined.

(** The fifteenth insertion finds [load = 14 > 13 = len] and grows the
    table; with [len = 27] and seven entries, erasing the entry of key 9
    leaves [4 * 6 < 27] and shrinks it. *)
Lemma dual_structure_invariant_witness :
  let sg := after (inserts 14) in
  let Lg := (λ i, (Z.of_nat i, 10 * Z.of_nat i)%Z) <$> seq 1 14 in
  let ss := after (inserts 15 ++ erases 8) in
  let Ls := [(9, 90); (10, 100); (11, 110); (12, 120); (13, 130); (14, 140);
             (15, 150)]%Z in
  let it := mkIter 1 11 in
  (reachable hashZ Z.eqb 0%Z sg ∧ (load (obj sg) < max_load)%Z ∧
   traverse sg = Ok Lg sg ∧ has_key Z.eqb (100, 7)%Z.1 Lg = false ∧
   len (obj sg) = 13%Z ∧ (load (obj sg) >? len (obj sg))%Z = true) ∧
  (reachable hashZ Z.eqb 0%Z ss ∧ (load (obj ss) < max_load)%Z ∧
   traverse ss = Ok Ls ss ∧ find hashZ Z.eqb 9%Z ss = Ok it ss ∧
   it_at it ≠ tl (obj ss) ∧ len (obj ss) = 27%Z ∧ load (obj ss) = 7%Z) ∧
  dual_structure hashZ sg ∧
  (∃ it' s', insert_ hashZ Z.eqb (100, 7)%Z sg = Ok (it', true) s' ∧
             len (obj s') =
               (if (load (obj sg) >? len (obj sg))%Z
                then Z.lor (Z.shiftl (len (obj sg)) 1) 1 else len (obj sg)) ∧
             traverse s' = Ok (Lg ++ [(100, 7)%Z]) s' ∧
             ∀ k, has_key Z.eqb k Lg = true →
                  same_entry hashZ Z.eqb sg s' k) ∧
  (∃ s', erase hashZ it ss = Ok () s' ∧
         len (obj s') =
           (if ((len (obj ss) >? LEN) &&
                (4 * (load (obj ss) - 1) <? len (obj ss)))%Z
            then Z.shiftr (len (obj ss)) 1 else len (obj ss)) ∧
         traverse s' = Ok (remove_key Z.eqb 9%Z Ls) s' ∧
         ∀ k, has_key Z.eqb k Ls = true → Z.eqb k 9 = false →
              same_entry hashZ Z.eqb ss s' k) ∧
  (let s1 := mkState (mem sg)
               (set_load (size_t (load (obj sg) + 1)) (obj sg)) in
   Add hashZ (100, 7)%Z sg =
     (ChangeSpace hashZ 1 ≫= λ _, Add_link hashZ (100, 7)%Z) s1 ∧
   ∃ s' L, ChangeSpace hashZ 1 s1 = Ok () s' ∧
           len (obj s') = Z.lor (Z.shiftl (len (obj s1)) 1) 1 ∧
           dual_structure hashZ s' ∧
           traverse s1 = Ok L s1 ∧ traverse s' = Ok L s' ∧
           ∀ k, has_key Z.eqb k L = true → same_entry hashZ Z.eqb s1 s' k) ∧
  (∃ s1, erase_unlink hashZ it ss = Ok () s1 ∧
         erase hashZ it ss = Del_resize hashZ s1 ∧
         ∃ s' L, ChangeSpace hashZ (-1) s1 = Ok () s' ∧
                 erase hashZ it ss = Ok () s' ∧
                 len (obj s') = Z.shiftr (len (obj s1)) 1 ∧
                 dual_structure hashZ s' ∧
                 traverse s1 = Ok L s1 ∧ traverse s' = Ok L s' ∧
                 ∀ k, has_key Z.eqb k L = true →
                      same_entry hashZ Z.eqb s1 s' k).
Proof.
  cbv zeta.
  assert (reachable hashZ Z.eqb 0%Z (after (inserts 14))) as Hrg.
  { apply reachable_example; [by vm_compute|vm_compute; reflexivity]. }
  assert (load (obj (after (inserts 14))) < max_load)%Z as Hltg
    by (by vm_compute).
  assert (traverse (after (inserts 14)) =
          Ok ((λ i, (Z.of_nat i, 10 * Z.of_nat i)%Z) <$> seq 1 14)
             (after (inserts 14))) as Htg by (vm_compute; reflexivity).
  assert (has_key Z.eqb (100, 7)%Z.1
            ((λ i, (Z.of_nat i, 10 * Z.of_nat i)%Z) <$> seq 1 14) = false)
    as Hkg by (vm_compute; reflexivity).
  assert ((load (obj (after (inserts 14))) >? len (obj (after (inserts 14))))%Z
          = true) as Hgt by (vm_compute; reflexivity).
  assert (reachable hashZ Z.eqb 0%Z (after (inserts 15 ++ erases 8))) as Hrs.
  { apply reachable_example; [by vm_compute|vm_compute; reflexivity]. }
  assert (load (obj (after (inserts 15 ++ erases 8))) < max_load)%Z as Hlts
    by (by vm_compute).
  assert (traverse (after (inserts 15 ++ erases 8)) =
          Ok [(9, 90); (10, 100); (11, 110); (12, 120); (13, 130); (14, 140);
              (15, 150)]%Z (after (inserts 15 ++ erases 8))) as Hts
    by (vm_compute; reflexivity).
  assert (find hashZ Z.eqb 9%Z (after (inserts 15 ++ erases 8)) =
          Ok (mkIter 1 11) (after (inserts 15 ++ erases 8))) as Hfs
    by (vm_compute; reflexivity).
  assert (it_at (mkIter 1 11) ≠ tl (obj (after (inserts 15 ++ erases 8))))
    as Hits by (by vm_compute).
  destruct (dual_structure_invariant hashZ Z.eqb 0%Z lawfulZ)
    as (H1 & _ & H3 & H4 & H5).
  destruct (H3 _ _ Hrg Hltg Htg) as (H3a & _ & _).
  destruct (H3 _ _ Hrs Hlts Hts) as (_ & _ & H3c).
  destruct (H5 _ 9%Z _ Hrs Hfs Hits) as (s1 & E1 & Es & Hld & Hln & Himp).
  split; [split_and!; [exact Hrg|exact Hltg|exact Htg|exact Hkg
                       |vm_compute; reflexivity|exact Hgt]|].
  split; [split_and!; [exact Hrs|exact Hlts|exact Hts|exact Hfs|exact Hits
                       |vm_compute; reflexivity|vm_compute; reflexivity]|].
  split; [exact (H1 _ Hrg)|].
  split; [exact (H3a (100, 7)%Z Hkg)|].
  split; [exact (H3c 9%Z _ Hfs Hits)|].
  split; [exact (H4 _ (100, 7)%Z Hrg Hltg Hgt _ eq_refl)|].
  exists s1. split; [exact E1|]. split; [exact Es|].
  apply Himp. rewrite Hld, Hln. vm_compute. reflexivity.
Defined.

Lemma insert_duplicate_no_op_witness :
  let s := after (inserts 16 ++ erases 10) in
  let L := [(11, 110); (12, 120); (13, 130); (14, 140); (15, 150); (16, 160)]%Z in
  reachable hashZ Z.eqb 0%Z s ∧ traverse s = Ok L s ∧ (12, 120)%Z ∈ L ∧
  Z.eqb (12, 999)%Z.1 (12, 120)%Z.1 = true ∧
  ∃ it, insert_ hashZ Z.eqb (12, 999)%Z s = Ok (it, false) s ∧
        iterator_star it s = Ok (12, 120)%Z s ∧
        find hashZ Z.eqb (12, 999)%Z.1 s = Ok it s.
Proof.
  cbv zeta.
  assert (reachable hashZ Z.eqb 0%Z (after (inserts 16 ++ erases 10))) as Hr.
  { apply reachable_example; [by vm_compute|vm_compute; reflexivity]. }
  assert (traverse (after (inserts 16 ++ erases 10)) =
          Ok [(11, 110); (12, 120); (13, 130); (14, 140); (15, 150); (16, 160)]%Z
             (after (inserts 16 ++ erases 10))) as Ht
    by (vm_compute; reflexivity).
  assert ((12, 120)%Z ∈ [(11, 110); (12, 120); (13, 130); (14, 140);
                          (15, 150); (16, 160)]%Z) as Hin by (right; left).
  split; [exact Hr|]. split; [exact Ht|]. split; [exact Hin|].
  split; [reflexivity|].
  exact (insert_duplicate_no_op hashZ Z.eqb 0%Z lawfulZ _ _ (12, 120)%Z (12, 999)%Z Hr Ht Hin eq_refl).
Defined.

(** The fifteenth insertion finds [load = 14 > 13 = len] and grows the
    table to [27]. *)
Lemma growth_policy_witness :
  let s := after (inserts 14) in
  reachable hashZ Z.eqb 0%Z s ∧ (load (obj s) < max_load)%Z ∧
  (load (obj s) >? len (obj s))%Z = true ∧
  ∃ L, traverse s = Ok L s ∧ has_key Z.eqb (100, 7)%Z.1 L = false ∧
  (∃ it s', insert_ hashZ Z.eqb (100, 7)%Z s = Ok (it, true) s' ∧
            load (obj s') = (load (obj s) + 1)%Z ∧
            len (obj s') =
              (if (load (obj s) >? len (obj s))%Z
               then Z.lor (Z.shiftl (len (obj s)) 1) 1 else len (obj s))) ∧
  (∃ r s', operator_index hashZ Z.eqb 0%Z (100, 7)%Z.1 s = Ok r s' ∧
           load (obj s') = (load (obj s) + 1)%Z ∧
           len (obj s') =
             (if (load (obj s) >? len (obj s))%Z
              then Z.lor (Z.shiftl (len (obj s)) 1) 1 else len (obj s))) ∧
  ((load (obj s) >? len (obj s))%Z = true →
   Z.odd (Z.lor (Z.shiftl (len (obj s)) 1) 1) = true ∧
   ∀ n : nat, Z.lor (Z.shiftl (len (obj s)) 1) 1 ≠ (2 ^ Z.of_nat n)%Z).
Proof.
  cbv zeta.
  assert (reachable hashZ Z.eqb 0%Z (after (inserts 14))) as Hr.
  { apply reachable_example; [by vm_compute|vm_compute; reflexivity]. }
  assert (load (obj (after (inserts 14))) < max_load)%Z as Hlt by (by vm_compute).
  split; [exact Hr|]. split; [exact Hlt|]. split; [by vm_compute|].
  eexists. split; [vm_compute; reflexivity|]. split; [by vm_compute|].
  eapply (growth_policy hashZ Z.eqb 0%Z lawfulZ _ _ (100, 7)%Z Hr Hlt); [vm_compute; reflexivity|].
  by vm_compute.
Defined.

(** With [len = 27] and seven entries, erasing one leaves [4 * 6 < 27]
    and the table shrinks to [13]. *)
Lemma shrink_policy_witness :
  let s := after (inserts 15 ++ erases 8) in
  let it := mkIter 1 11 in
  reachable hashZ Z.eqb 0%Z s ∧ find hashZ Z.eqb 9%Z s = Ok it s ∧
  it_at it ≠ tl (obj s) ∧ len (obj s) = 27%Z ∧ (LEN ≤ len (obj s))%Z ∧
  ∃ s', erase hashZ it s = Ok () s' ∧
        load (obj s') = (load (obj s) - 1)%Z ∧
        len (obj s') =
          (if ((len (obj s) >? LEN) && (4 * load (obj s') <? len (obj s)))%Z
           then Z.shiftr (len (obj s)) 1 else len (obj s)).
Proof.
  cbv zeta.
  assert (reachable hashZ Z.eqb 0%Z (after (inserts 15 ++ erases 8))) as Hr.
  { apply reachable_example; [by vm_compute|vm_compute; reflexivity]. }
  assert (find hashZ Z.eqb 9%Z (after (inserts 15 ++ erases 8)) =
          Ok (mkIter 1 11) (after (inserts 15 ++ erases 8))) as Hf
    by (vm_compute; reflexivity).
  assert (it_at (mkIter 1 11) ≠ tl (obj (after (inserts 15 ++ erases 8)))) as Hit
    by (by vm_compute).
  destruct (shrink_policy hashZ Z.eqb 0%Z lawfulZ) as [H1 H2].
  split; [exact Hr|]. split; [exact Hf|]. split; [exact Hit|].
  split; [vm_compute; reflexivity|]. split; [exact (H1 _ Hr)|].
  exact (H2 _ 9%Z _ Hr Hf Hit).
Defined.

Lemma operator_index_inserts_default_witness :
  let s := after (inserts 14) in
  reachable hashZ Z.eqb 0%Z s ∧ (load (obj s) < max_load)%Z ∧
  ∃ L, traverse s = Ok L s ∧ has_key Z.eqb 100%Z L = false ∧
  ∃ r s', operator_index hashZ Z.eqb 0%Z 100%Z s = Ok r s' ∧
          traverse s' = Ok (L ++ [(100, 0)%Z]) s' ∧
          ref_read r s' = Ok 0%Z s' ∧
          ∀ v, ∃ s'', ref_write r v s' = Ok () s'' ∧
                      at_ hashZ Z.eqb 100%Z s'' = Ok r s'' ∧
                      ref_read r s'' = Ok v s'' ∧
                      traverse s'' = Ok (L ++ [(100, v)%Z]) s''.
Proof.
  cbv zeta.
  assert (reachable hashZ Z.eqb 0%Z (after (inserts 14))) as Hr.
  { apply reachable_example; [by vm_compute|vm_compute; reflexivity]. }
  assert (load (obj (after (inserts 14))) < max_load)%Z as Hlt by (by vm_compute).
  split; [exact Hr|]. split; [exact Hlt|].
  eexists. split; [vm_compute; reflexivity|]. split; [by vm_compute|].
  eapply (operator_index_inserts_default hashZ Z.eqb 0%Z lawfulZ _ _ 100%Z Hr Hlt); [vm_compute; reflexivity|].
  by vm_compute.
Defined.

(** An end iterator and an iterator of another map at address [7] are
    refused; the iterator of the live key [2] is not. *)
Example erase_invalid_iterator_example :
  let s := after (inserts 3) in
  erase hashZ (mkIter 1 2) s = Throw invalid_iterator s ∧
  erase hashZ (mkIter 7 4) s = Throw invalid_iterator s ∧
  ∃ s', erase hashZ (mkIter 1 4) s = Ok () s' ∧
        traverse s' = Ok [(1, 10); (3, 30)]%Z s'.
Proof.
  cbv zeta. split; [vm_compute; reflexivity|]. split; [vm_compute; reflexivity|].
  eexists. split; vm_compute; reflexivity.
Qed.

Lemma copy_round_trip_witness :
  let sA := after (inserts 16 ++ erases 10) in
  let L := [(11, 110); (12, 120); (13, 130); (14, 140); (15, 150); (16, 160)]%Z in
  reachable hashZ Z.eqb 0%Z (mkState (mem sA) (obj sA)) ∧
  traverse (mkState (mem sA) (obj sA)) = Ok L (mkState (mem sA) (obj sA)) ∧
  ∃ sB, copy_construct hashZ (obj sA) (raw 50%nat (mem sA)) = Ok () sB ∧
        traverse sB = Ok L sB ∧
        ∀ ops, (load (obj sB) + Z.of_nat (length ops) ≤ max_load)%Z →
          ∃ sB', run hashZ Z.eqb 0%Z ops sB = Ok () sB' ∧
                 traverse sB' = Ok (fold_left (model_step Z.eqb) ops L) sB' ∧
                 traverse (mkState (mem sB') (obj sA)) =
                   Ok L (mkState (mem sB') (obj sA)).
Proof.
  cbv zeta.
  assert (reachable hashZ Z.eqb 0%Z
            (mkState (mem (after (inserts 16 ++ erases 10)))
                     (obj (after (inserts 16 ++ erases 10))))) as Hr.
  { assert (mkState (mem (after (inserts 16 ++ erases 10)))
                    (obj (after (inserts 16 ++ erases 10))) =
            after (inserts 16 ++ erases 10)) as -> by (vm_compute; reflexivity).
    apply reachable_example; [by vm_compute|vm_compute; reflexivity]. }
  assert (traverse (mkState (mem (after (inserts 16 ++ erases 10)))
                            (obj (after (inserts 16 ++ erases 10)))) =
          Ok [(11, 110); (12, 120); (13, 130); (14, 140); (15, 150); (16, 160)]%Z
             (mkState (mem (after (inserts 16 ++ erases 10)))
                      (obj (after (inserts 16 ++ erases 10))))) as Ht
    by (vm_compute; reflexivity).
  split; [exact Hr|]. split; [exact Ht|].
  exact (copy_round_trip hashZ Z.eqb 0%Z lawfulZ _ _ _ 50%nat Hr Ht).
Defined.

(** C9 fails as stated when the second insertion of [a] goes through
    [insert]: after [1], [2], [3] are inserted with values [10], [20],
    [30] and [insert({1, 99})] is called, the iteration order is still
    [1], [2], [3], but [at(1)] reads the old value [10], not the new
    value [99]. *)
Lemma reinsert_through_insert_keeps_old_value :
  let s := after [op_insert (1, 10)%Z; op_insert (2, 20)%Z; op_insert (3, 30)%Z;
                  op_insert (1, 99)%Z] in
  traverse s = Ok [(1, 10); (2, 20); (3, 30)]%Z s ∧
  at_ hashZ Z.eqb 1%Z s = Ok 3%nat s ∧
  ref_read 3%nat s = Ok 10%Z s ∧
  10%Z ≠ 99%Z.
Proof.
  cbv zeta. split; [vm_compute; reflexivity|]. split; [vm_compute; reflexivity|].
  split; [vm_compute; reflexivity|]. done.
Qed.

Lemma reinsertion_stability_witness :
  Z.eqb 2 1 = false ∧ Z.eqb 3 1 = false ∧ Z.eqb 3 2 = false ∧
  ∃ s, (construct ≫= λ _,
        run hashZ Z.eqb 0%Z
          [op_insert (1, 10)%Z; op_insert (2, 20)%Z; op_insert (3, 30)%Z])
         (raw 1%nat ∅) = Ok () s ∧
       traverse s = Ok [(1, 10); (2, 20); (3, 30)]%Z s ∧
       (∃ it, insert_ hashZ Z.eqb (1, 99)%Z s = Ok (it, false) s) ∧
       (∃ r s' s'', operator_index hashZ Z.eqb 0%Z 1%Z s = Ok r s' ∧
                    ref_write r 99%Z s' = Ok () s'' ∧
                    traverse s'' = Ok [(1, 99); (2, 20); (3, 30)]%Z s'').
Proof.
  split; [reflexivity|]. split; [reflexivity|]. split; [reflexivity|].
  exact (reinsertion_stability hashZ Z.eqb 0%Z lawfulZ 1%nat ∅ 1%Z 2%Z 3%Z 10%Z 20%Z 30%Z 99%Z
           eq_refl eq_refl eq_refl).
Defined.

Lemma const_index_absent_witness :
  let s := after (inserts 3) in
  reachable hashZ Z.eqb 0%Z s ∧
  traverse s = Ok [(1, 10); (2, 20); (3, 30)]%Z s ∧
  has_key Z.eqb 7%Z [(1, 10); (2, 20); (3, 30)]%Z = false ∧
  operator_index_const hashZ Z.eqb 7%Z s = Throw index_out_of_bound s ∧
  operator_index_const hashZ Z.eqb 7%Z s = at_const hashZ Z.eqb 7%Z s.
Proof.
  cbv zeta.
  assert (reachable hashZ Z.eqb 0%Z (after (inserts 3))) as Hr.
  { apply reachable_example; [by vm_compute|vm_compute; reflexivity]. }
  assert (traverse (after (inserts 3)) =
          Ok [(1, 10); (2, 20); (3, 30)]%Z (after (inserts 3))) as Ht
    by (vm_compute; reflexivity).
  split; [exact Hr|]. split; [exact Ht|]. split; [reflexivity|].
  exact (const_index_absent hashZ Z.eqb 0%Z lawfulZ _ _ 7%Z Hr Ht eq_refl).
Defined.

(** * Instances of the further properties *)

Lemma reachable_three : reachable hashZ Z.eqb 0%Z (after (inserts 3)).
Proof. apply reachable_example; [by vm_compute|vm_compute; reflexivity]. Qed.

Lemma traverse_three :
  traverse (after (inserts 3)) =
  Ok [(1, 10); (2, 20); (3, 30)]%Z (after (inserts 3)).
Proof. vm_compute; reflexivity. Qed.

Lemma at_lookup_witness :
  let s := after (inserts 3) in
  let L := [(1, 10); (2, 20); (3, 30)]%Z in
  reachable hashZ Z.eqb 0%Z s ∧ traverse s = Ok L s ∧
  (∀ kv, kv ∈ L → Z.eqb 2 kv.1 = true →
     ∃ r, at_ hashZ Z.eqb 2%Z s = Ok r s ∧
          at_const hashZ Z.eqb 2%Z s = Ok r s ∧
          ref_read r s = Ok kv.2 s) ∧
  (has_key Z.eqb 2%Z L = false →
     at_ hashZ Z.eqb 2%Z s = Throw index_out_of_bound s ∧
     at_const hashZ Z.eqb 2%Z s = Throw index_out_of_bound s).
Proof.
  cbv zeta. split; [exact reachable_three|]. split; [exact traverse_three|].
  exact (at_lookup hashZ Z.eqb 0%Z lawfulZ _ _ 2%Z
           reachable_three traverse_three).
Defined.

Lemma operator_index_present_witness :
  let s := after (inserts 3) in
  let L := [(1, 10); (2, 20); (3, 30)]%Z in
  reachable hashZ Z.eqb 0%Z s ∧ traverse s = Ok L s ∧ (2, 20)%Z ∈ L ∧
  Z.eqb 2 (2, 20)%Z.1 = true ∧
  ∃ r, operator_index hashZ Z.eqb 0%Z 2%Z s = Ok r s ∧
       at_ hashZ Z.eqb 2%Z s = Ok r s ∧
       ref_read r s = Ok (2, 20)%Z.2 s.
Proof.
  cbv zeta.
  assert ((2, 20)%Z ∈ [(1, 10); (2, 20); (3, 30)]%Z) as Hin by (right; left).
  split; [exact reachable_three|]. split; [exact traverse_three|].
  split; [exact Hin|]. split; [reflexivity|].
  exact (operator_index_present hashZ Z.eqb 0%Z lawfulZ _ _ 2%Z (2, 20)%Z
           reachable_three traverse_three Hin eq_refl).
Defined.

Lemma count_presence_witness :
  let s := after (inserts 3) in
  let L := [(1, 10); (2, 20); (3, 30)]%Z in
  reachable hashZ Z.eqb 0%Z s ∧ traverse s = Ok L s ∧
  count hashZ Z.eqb 7%Z s = Ok (if has_key Z.eqb 7%Z L then 1 else 0)%Z s.
Proof.
  cbv zeta. split; [exact reachable_three|]. split; [exact traverse_three|].
  exact (count_presence hashZ Z.eqb 0%Z lawfulZ _ _ 7%Z
           reachable_three traverse_three).
Defined.

Lemma size_counts_entries_witness :
  let s := after (inserts 3) in
  let L := [(1, 10); (2, 20); (3, 30)]%Z in
  reachable hashZ Z.eqb 0%Z s ∧ traverse s = Ok L s ∧
  size_ s = Ok (Z.of_nat (length L)) s ∧
  empty_ s = Ok (bool_decide (L = [])) s.
Proof.
  cbv zeta. split; [exact reachable_three|]. split; [exact traverse_three|].
  exact (size_counts_entries hashZ Z.eqb 0%Z lawfulZ _ _
           reachable_three traverse_three).
Defined.

Lemma find_presence_witness :
  let s := after (inserts 3) in
  let L := [(1, 10); (2, 20); (3, 30)]%Z in
  reachable hashZ Z.eqb 0%Z s ∧ traverse s = Ok L s ∧
  ∃ it, find hashZ Z.eqb 2%Z s = Ok it s ∧ source it = this (obj s) ∧
        (has_key Z.eqb 2%Z L = false → end_ s = Ok it s) ∧
        (∀ kv, kv ∈ L → Z.eqb 2 kv.1 = true →
           it_at it ≠ tl (obj s) ∧ iterator_star it s = Ok kv s).
Proof.
  cbv zeta. split; [exact reachable_three|]. split; [exact traverse_three|].
  exact (find_presence hashZ Z.eqb 0%Z lawfulZ _ _ 2%Z
           reachable_three traverse_three).
Defined.

Lemma insert_new_key_witness :
  let s := after (inserts 3) in
  let L := [(1, 10); (2, 20); (3, 30)]%Z in
  reachable hashZ Z.eqb 0%Z s ∧ (load (obj s) < max_load)%Z ∧
  traverse s = Ok L s ∧ has_key Z.eqb (7, 70)%Z.1 L = false ∧
  ∃ it s', insert_ hashZ Z.eqb (7, 70)%Z s = Ok (it, true) s' ∧
           traverse s' = Ok (L ++ [(7, 70)%Z]) s' ∧
           iterator_star it s' = Ok (7, 70)%Z s' ∧
           find hashZ Z.eqb (7, 70)%Z.1 s' = Ok it s' ∧
           size_ s' = Ok (Z.of_nat (length L) + 1)%Z s' ∧
           ∃ r, at_ hashZ Z.eqb (7, 70)%Z.1 s' = Ok r s' ∧
                ref_read r s' = Ok (7, 70)%Z.2 s'.
Proof.
  cbv zeta.
  assert (load (obj (after (inserts 3))) < max_load)%Z as Hlt by (by vm_compute).
  split; [exact reachable_three|]. split; [exact Hlt|].
  split; [exact traverse_three|]. split; [reflexivity|].
  exact (insert_new_key hashZ Z.eqb 0%Z lawfulZ _ _ (7, 70)%Z
           reachable_three Hlt traverse_three eq_refl).
Defined.

Lemma erase_removes_witness :
  let s := after (inserts 3) in
  let L := [(1, 10); (2, 20); (3, 30)]%Z in
  reachable hashZ Z.eqb 0%Z s ∧ traverse s = Ok L s ∧
  has_key Z.eqb 2%Z L = true ∧
  ∃ it s', find hashZ Z.eqb 2%Z s = Ok it s ∧ erase hashZ it s = Ok () s' ∧
           traverse s' = Ok (remove_key Z.eqb 2%Z L) s' ∧
           size_ s' = Ok (Z.of_nat (length L) - 1)%Z s' ∧
           count hashZ Z.eqb 2%Z s' = Ok 0%Z s' ∧
           ∃ e, find hashZ Z.eqb 2%Z s' = Ok e s' ∧ end_ s' = Ok e s'.
Proof.
  cbv zeta. split; [exact reachable_three|]. split; [exact traverse_three|].
  split; [reflexivity|].
  exact (erase_removes hashZ Z.eqb 0%Z lawfulZ _ _ 2%Z
           reachable_three traverse_three eq_refl).
Defined.

Lemma erase_absent_throws_witness :
  let s := after (inserts 3) in
  let L := [(1, 10); (2, 20); (3, 30)]%Z in
  reachable hashZ Z.eqb 0%Z s ∧ traverse s = Ok L s ∧
  has_key Z.eqb 7%Z L = false ∧
  (find hashZ Z.eqb 7%Z ≫= erase hashZ) s = Throw invalid_iterator s.
Proof.
  cbv zeta. split; [exact reachable_three|]. split; [exact traverse_three|].
  split; [reflexivity|].
  exact (erase_absent_throws hashZ Z.eqb 0%Z lawfulZ _ _ 7%Z
           reachable_three traverse_three eq_refl).
Defined.

Lemma clear_empties_witness :
  let s := after (inserts 16) in
  reachable hashZ Z.eqb 0%Z s ∧
  ∃ s', clear hashZ s = Ok () s' ∧ traverse s' = Ok [] s' ∧
        size_ s' = Ok 0%Z s' ∧ empty_ s' = Ok true s' ∧
        len (obj s') = LEN ∧
        (∃ it, begin_ s' = Ok it s' ∧ end_ s' = Ok it s') ∧
        ∀ key, count hashZ Z.eqb key s' = Ok 0%Z s'.
Proof.
  cbv zeta.
  assert (reachable hashZ Z.eqb 0%Z (after (inserts 16))) as Hr.
  { apply reachable_example; [by vm_compute|vm_compute; reflexivity]. }
  split; [exact Hr|].
  exact (clear_empties hashZ Z.eqb 0%Z lawfulZ _ Hr).
Defined.


Lemma keys_distinct_witness :
  let s := after (inserts 3) in
  let L := [(1, 10); (2, 20); (3, 30)]%Z in
  reachable hashZ Z.eqb 0%Z s ∧ traverse s = Ok L s ∧
  L !! 1%nat = Some (2, 20)%Z ∧ Z.eqb (2, 20)%Z.1 (2, 20)%Z.1 = true ∧
  1%nat = 1%nat.
Proof.
  cbv zeta. split; [exact reachable_three|]. split; [exact traverse_three|].
  split; [reflexivity|]. split; [reflexivity|].
  exact (keys_distinct hashZ Z.eqb 0%Z lawfulZ _ _ 1%nat 1%nat (2, 20)%Z
           (2, 20)%Z reachable_three traverse_three eq_refl eq_refl eq_refl).
Defined.

Lemma construct_empty_witness :
  ∃ s, construct (raw 1%nat ∅) = Ok () s ∧
       traverse s = Ok [] s ∧ size_ s = Ok 0%Z s ∧ empty_ s = Ok true s ∧
       len (obj s) = LEN ∧ this (obj s) = 1%nat ∧
       (∀ key, at_ hashZ Z.eqb key s = Throw index_out_of_bound s ∧
               count hashZ Z.eqb key s = Ok 0%Z s) ∧
       ∀ q n, (∅ : gmap nat (@Node Z Z)) !! q = Some n → mem s !! q = Some n.
Proof.
  exact (construct_empty hashZ Z.eqb lawfulZ 1%nat ∅).
Defined.

Lemma capacity_form_witness :
  let s := after (inserts 16) in
  reachable hashZ Z.eqb 0%Z s ∧
  (∃ k : nat, len (obj s) = 14 * 2 ^ Z.of_nat k - 1)%Z ∧
  Z.odd (len (obj s)) = true.
Proof.
  cbv zeta.
  assert (reachable hashZ Z.eqb 0%Z (after (inserts 16))) as Hr.
  { apply reachable_example; [by vm_compute|vm_compute; reflexivity]. }
  split; [exact Hr|].
  exact (capacity_form hashZ Z.eqb 0%Z lawfulZ _ Hr).
Defined.

Lemma find_two :
  find hashZ Z.eqb 2%Z (after (inserts 3)) =
  Ok (mkIter 1 4) (after (inserts 3)).
Proof. vm_compute; reflexivity. Qed.

Lemma iterators_stay_valid_witness :
  let s := after (inserts 3) in
  let it := mkIter 1 4 in
  reachable hashZ Z.eqb 0%Z s ∧ (load (obj s) < max_load)%Z ∧
  find hashZ Z.eqb 2%Z s = Ok it s ∧ it_at it ≠ tl (obj s) ∧
  ∃ kv, iterator_star it s = Ok kv s ∧
    (∀ value, ∃ r s', insert_ hashZ Z.eqb value s = Ok r s' ∧
                      iterator_star it s' = Ok kv s' ∧
                      find hashZ Z.eqb 2%Z s' = Ok it s') ∧
    (∀ key' it', find hashZ Z.eqb key' s = Ok it' s →
                 it_at it' ≠ tl (obj s) → it_at it' ≠ it_at it →
                 ∃ s', erase hashZ it' s = Ok () s' ∧
                       iterator_star it s' = Ok kv s' ∧
                       find hashZ Z.eqb 2%Z s' = Ok it s').
Proof.
  cbv zeta.
  assert (load (obj (after (inserts 3))) < max_load)%Z as Hlt by (by vm_compute).
  assert (it_at (mkIter 1 4) ≠ tl (obj (after (inserts 3)))) as Hit
    by (by vm_compute).
  split; [exact reachable_three|]. split; [exact Hlt|].
  split; [exact find_two|]. split; [exact Hit|].
  exact (iterators_stay_valid hashZ Z.eqb 0%Z lawfulZ _ 2%Z _
           reachable_three Hlt find_two Hit).
Defined.

Lemma iterator_forward_witness :
  let s := after (inserts 3) in
  let L := [(1, 10); (2, 20); (3, 30)]%Z in
  reachable hashZ Z.eqb 0%Z s ∧ traverse s = Ok L s ∧ (3 ≤ length L)%nat ∧
  ∃ it, (begin_ ≫= incr_n 3) s = Ok it s ∧
        (∀ kv, L !! 3%nat = Some kv → iterator_star it s = Ok kv s) ∧
        (3%nat = length L →
         end_ s = Ok it s ∧ iterator_incr it s = Throw invalid_iterator s).
Proof.
  cbv zeta.
  assert (3 ≤ length [(1, 10); (2, 20); (3, 30)]%Z)%nat as Hn by (simpl; lia).
  split; [exact reachable_three|]. split; [exact traverse_three|].
  split; [exact Hn|].
  exact (iterator_forward hashZ Z.eqb 0%Z lawfulZ _ _ 3%nat
           reachable_three traverse_three Hn).
Defined.

Lemma iterator_backward_witness :
  let s := after (inserts 3) in
  let L := [(1, 10); (2, 20); (3, 30)]%Z in
  reachable hashZ Z.eqb 0%Z s ∧ traverse s = Ok L s ∧ (3 ≤ length L)%nat ∧
  ∃ it, (end_ ≫= decr_n 3) s = Ok it s ∧
        (∀ kv, (0 < 3)%nat → L !! (length L - 3)%nat = Some kv →
               iterator_star it s = Ok kv s) ∧
        (3%nat = length L →
         begin_ s = Ok it s ∧ iterator_decr it s = Throw invalid_iterator s).
Proof.
  cbv zeta.
  assert (3 ≤ length [(1, 10); (2, 20); (3, 30)]%Z)%nat as Hn by (simpl; lia).
  split; [exact reachable_three|]. split; [exact traverse_three|].
  split; [exact Hn|].
  exact (iterator_backward hashZ Z.eqb 0%Z lawfulZ _ _ 3%nat
           reachable_three traverse_three Hn).
Defined.

Lemma incr_decr_round_trip_witness :
  let s := after (inserts 3) in
  let it := mkIter 1 4 in
  reachable hashZ Z.eqb 0%Z s ∧ find hashZ Z.eqb 2%Z s = Ok it s ∧
  it_at it ≠ tl (obj s) ∧
  (iterator_incr it ≫= iterator_decr) s = Ok it s ∧
  (begin_ s ≠ Ok it s → (iterator_decr it ≫= iterator_incr) s = Ok it s) ∧
  (begin_ s = Ok it s → iterator_decr it s = Throw invalid_iterator s).
Proof.
  cbv zeta.
  assert (it_at (mkIter 1 4) ≠ tl (obj (after (inserts 3)))) as Hit
    by (by vm_compute).
  split; [exact reachable_three|]. split; [exact find_two|].
  split; [exact Hit|].
  exact (incr_decr_round_trip hashZ Z.eqb 0%Z lawfulZ _ 2%Z _
           reachable_three find_two Hit).
Defined.

Lemma assignment_copies_witness :
  let sA := after (inserts 3) in
  let L := [(1, 10); (2, 20); (3, 30)]%Z in
  let ops := [op_insert (9, 90)%Z; op_insert (8, 80)%Z] in
  reachable hashZ Z.eqb 0%Z (mkState (mem sA) (obj sA)) ∧
  traverse (mkState (mem sA) (obj sA)) = Ok L (mkState (mem sA) (obj sA)) ∧
  50%nat ≠ this (obj sA) ∧ (Z.of_nat (length ops) ≤ max_load)%Z ∧
  ∃ sB sB',
    (construct ≫= λ _, run hashZ Z.eqb 0%Z ops) (raw 50%nat (mem sA)) =
      Ok () sB ∧
    operator_assign hashZ (obj sA) sB = Ok () sB' ∧
    traverse sB' = Ok L sB' ∧
    size_ sB' = Ok (Z.of_nat (length L)) sB' ∧
    traverse (mkState (mem sB') (obj sA)) = Ok L (mkState (mem sB') (obj sA)) ∧
    operator_assign hashZ (obj sB') sB' = Ok () sB'.
Proof.
  cbv zeta.
  assert (mkState (mem (after (inserts 3))) (obj (after (inserts 3))) =
          after (inserts 3)) as Es by (vm_compute; reflexivity).
  assert (reachable hashZ Z.eqb 0%Z
            (mkState (mem (after (inserts 3))) (obj (after (inserts 3))))) as Hr
    by (rewrite Es; exact reachable_three).
  assert (traverse (mkState (mem (after (inserts 3))) (obj (after (inserts 3)))) =
          Ok [(1, 10); (2, 20); (3, 30)]%Z
             (mkState (mem (after (inserts 3))) (obj (after (inserts 3))))) as Ht
    by (vm_compute; reflexivity).
  assert (50%nat ≠ this (obj (after (inserts 3)))) as Haddr by (by vm_compute).
  assert (Z.of_nat (length [op_insert (9, 90)%Z; op_insert (8, 80)%Z]) ≤
          max_load)%Z as Hlen by (by vm_compute).
  split; [exact Hr|]. split; [exact Ht|]. split; [exact Haddr|].
  split; [exact Hlen|].
  exact (assignment_copies hashZ Z.eqb 0%Z lawfulZ 50%nat _ _ _ _
           Hr Ht Haddr Hlen).
Defined.

Lemma destructor_frees_witness :
  let ops := inserts 16 ++ erases 10 ++ [op_assign 3%Z 33%Z; op_clear;
                                         op_insert (4, 40)%Z] in
  (Z.of_nat (length ops) ≤ max_load)%Z ∧
  ∃ s, (construct ≫= λ _, run hashZ Z.eqb 0%Z ops) (raw 1%nat ∅) = Ok () s ∧
  ∃ s', destructor hashZ s = Ok () s' ∧ mem s' = ∅.
Proof.
  cbv zeta. split; [by vm_compute|].
  apply (destructor_frees hashZ Z.eqb 0%Z lawfulZ 1%nat ∅). by vm_compute.
Defined.

Lemma at_write_through_witness :
  let s := after (inserts 3) in
  let L := [(1, 10); (2, 20); (3, 30)]%Z in
  reachable hashZ Z.eqb 0%Z s ∧ traverse s = Ok L s ∧
  has_key Z.eqb 2%Z L = true ∧
  ∃ r s', at_ hashZ Z.eqb 2%Z s = Ok r s ∧ ref_write r 21%Z s = Ok () s' ∧
          traverse s' = Ok (update_key Z.eqb 2%Z 21%Z L) s' ∧
          length (update_key Z.eqb 2%Z 21%Z L) = length L ∧
          at_ hashZ Z.eqb 2%Z s' = Ok r s' ∧ ref_read r s' = Ok 21%Z s'.
Proof.
  cbv zeta. split; [exact reachable_three|]. split; [exact traverse_three|].
  split; [reflexivity|].
  exact (at_write_through hashZ Z.eqb 0%Z lawfulZ _ _ 2%Z 21%Z
           reachable_three traverse_three eq_refl).
Defined.

Lemma erase_at_position_witness :
  let s := after (inserts 3) in
  let L := [(1, 10); (2, 20); (3, 30)]%Z in
  reachable hashZ Z.eqb 0%Z s ∧ traverse s = Ok L s ∧ (1 < length L)%nat ∧
  ∃ it s', (begin_ ≫= incr_n 1) s = Ok it s ∧ erase hashZ it s = Ok () s' ∧
           traverse s' = Ok (delete 1%nat L) s'.
Proof.
  cbv zeta.
  assert (1 < length [(1, 10); (2, 20); (3, 30)]%Z)%nat as Hn by (simpl; lia).
  split; [exact reachable_three|]. split; [exact traverse_three|].
  split; [exact Hn|].
  exact (erase_at_position hashZ Z.eqb 0%Z lawfulZ _ _ 1%nat
           reachable_three traverse_three Hn).
Defined.

Lemma erased_iterator_dangles_witness :
  let s := after (inserts 3) in
  let L := [(1, 10); (2, 20); (3, 30)]%Z in
  reachable hashZ Z.eqb 0%Z s ∧ traverse s = Ok L s ∧
  has_key Z.eqb 2%Z L = true ∧
  ∃ it s', find hashZ Z.eqb 2%Z s = Ok it s ∧ erase hashZ it s = Ok () s' ∧
           iterator_star it s' = UB ∧
           iterator_incr it s' = UB ∧
           iterator_decr it s' = UB.
Proof.
  cbv zeta. split; [exact reachable_three|]. split; [exact traverse_three|].
  split; [reflexivity|].
  exact (erased_iterator_dangles hashZ Z.eqb 0%Z lawfulZ _ _ 2%Z
           reachable_three traverse_three eq_refl).
Defined.

Lemma load_factor_bounds_witness :
  let s := after (inserts 16 ++ erases 9) in
  reachable hashZ Z.eqb 0%Z s ∧
  size_ s = Ok (load (obj s)) s ∧
  (load (obj s) ≤ len (obj s) + 1)%Z ∧
  (LEN < len (obj s) → len (obj s) ≤ 4 * load (obj s))%Z.
Proof.
  cbv zeta.
  assert (reachable hashZ Z.eqb 0%Z (after (inserts 16 ++ erases 9))) as Hr.
  { apply reachable_example; [by vm_compute|vm_compute; reflexivity]. }
  split; [exact Hr|].
  exact (load_factor_bounds hashZ Z.eqb 0%Z lawfulZ _ Hr).
Defined.

Lemma copy_is_deep_witness :
  let sA := after (inserts 16) in
  let ops := erases 12 ++ [op_insert (9, 90)%Z; op_assign 20%Z 7%Z] in
  reachable hashZ Z.eqb 0%Z (mkState (mem sA) (obj sA)) ∧
  (load (obj sA) + Z.of_nat (length ops) ≤ max_load)%Z ∧
  ∃ sB sB' s',
    copy_construct hashZ (obj sA) (raw 50%nat (mem sA)) = Ok () sB ∧
    len (obj sB) = len (obj sA) ∧
    run hashZ Z.eqb 0%Z ops sB = Ok () sB' ∧
    destructor hashZ sB' = Ok () s' ∧ mem s' = mem sA.
Proof.
  cbv zeta.
  assert (reachable hashZ Z.eqb 0%Z
            (mkState (mem (after (inserts 16))) (obj (after (inserts 16))))) as Hr.
  { assert (mkState (mem (after (inserts 16))) (obj (after (inserts 16))) =
            after (inserts 16)) as -> by (vm_compute; reflexivity).
    apply reachable_example; [by vm_compute|vm_compute; reflexivity]. }
  assert (load (obj (after (inserts 16))) +
          Z.of_nat (length (erases 12 ++ [op_insert (9, 90)%Z;
                                          op_assign 20%Z 7%Z])) ≤ max_load)%Z
    as Hb by (by vm_compute).
  split; [exact Hr|]. split; [exact Hb|].
  exact (copy_is_deep hashZ Z.eqb 0%Z lawfulZ _ _ 50%nat _ Hr Hb).
Defined.
